(** * Cyber Runner: a shallow embedding of the simulation core

    Source: [src/cyber-runner/src/app/page.tsx].

    Modelling conventions.
    - A JavaScript [number] that holds a measure (positions, velocities,
      times, the score) is a rational [Q]: arithmetic is exact, rounding of
      IEEE doubles is not modelled.  A [number] that only ever holds a count
      (entity ids, upgrade levels, upgrade points, shield charges, the frame
      counter) is an integer [Z].
    - [Math.sin] and [Math.PI] are not rational; they are the variables
      [sin] and [PI] of the section [Simulation].
    - What a callback reads from the browser ([performance.now()],
      [Date.now()], [Math.random()], the handle returned by
      [requestAnimationFrame], whether an [AudioContext] can be created and
      resumed) is passed in an [Env.t] record.
    - The component's refs and React state are the fields of [Game.t]; every
      callback of the component is a function [Game.t -> Game.t].
    - Canvas drawing has no effect on the state and is left out.  Calls to
      [playTone] are appended to the log [Game.tones].
    - A JavaScript string is a [string]; one character of the model stands
      for one UTF-16 code unit of the source. *)

From Stdlib Require Import ZArith QArith Qabs Qround Qminmax.
From Stdlib Require Import List Sorted Permutation Bool String Lia Lqa.
Import ListNotations.
Local Open Scope Q_scope.

(** ** Numbers *)

Definition Qltb (a b : Q) : bool := negb (Qle_bool b a).

Notation "a <? b" := (Qltb a b) (at level 70, no associativity) : Q_scope.
Notation "a <=? b" := (Qle_bool a b) (at level 70, no associativity) : Q_scope.

(** [a ?? b] on an optional number. *)
Definition orElse (a : option Q) (b : Q) : Q :=
  match a with Some v => v | None => b end.

(** ** Types (page.tsx, lines 5-101) *)

Inductive GameStatus : Type := idle | running | paused | over.

Inductive EntityType : Type := data | firewall | virus.

Definition GameStatus_eqb (a b : GameStatus) : bool :=
  match a, b with
  | idle, idle | running, running | paused, paused | over, over => true
  | _, _ => false
  end.

Definition EntityType_eqb (a b : EntityType) : bool :=
  match a, b with
  | data, data | firewall, firewall | virus, virus => true
  | _, _ => false
  end.

Module Entity.
Record t : Type := mk {
    id : Z;
    type : EntityType;
    x : Q;
    y : Q;
    width : Q;
    height : Q;
    speed : Q;
    amplitude : option Q;
    phase : option Q
  }.

Definition with_x (v : Q) (e : t) : t :=
    mk (id e) (type e) v (y e) (width e) (height e) (speed e) (amplitude e) (phase e).
Definition with_y (v : Q) (e : t) : t :=
    mk (id e) (type e) (x e) v (width e) (height e) (speed e) (amplitude e) (phase e).
End Entity.

Module Player.
Record t : Type := mk {
    x : Q;
    y : Q;
    width : Q;
    height : Q;
    vy : Q;
    vx : Q;
    onGround : bool;
    shieldCharges : Z;
    invulnerableUntil : Q
  }.

Definition with_x (v : Q) (p : t) : t :=
    mk v (y p) (width p) (height p) (vy p) (vx p) (onGround p)
       (shieldCharges p) (invulnerableUntil p).
Definition with_y (v : Q) (p : t) : t :=
    mk (x p) v (width p) (height p) (vy p) (vx p) (onGround p)
       (shieldCharges p) (invulnerableUntil p).
Definition with_vy (v : Q) (p : t) : t :=
    mk (x p) (y p) (width p) (height p) v (vx p) (onGround p)
       (shieldCharges p) (invulnerableUntil p).
Definition with_vx (v : Q) (p : t) : t :=
    mk (x p) (y p) (width p) (height p) (vy p) v (onGround p)
       (shieldCharges p) (invulnerableUntil p).
Definition with_onGround (v : bool) (p : t) : t :=
    mk (x p) (y p) (width p) (height p) (vy p) (vx p) v
       (shieldCharges p) (invulnerableUntil p).
Definition with_shieldCharges (v : Z) (p : t) : t :=
    mk (x p) (y p) (width p) (height p) (vy p) (vx p) (onGround p)
       v (invulnerableUntil p).
Definition with_invulnerableUntil (v : Q) (p : t) : t :=
    mk (x p) (y p) (width p) (height p) (vy p) (vx p) (onGround p)
       (shieldCharges p) v.
End Player.

Module LevelConfig.
Record t : Type := mk {
    level : Z;
    speedScale : Q;
    obstacleInterval : Q;
    virusInterval : Q;
    dataInterval : Q;
    label : string
  }.
End LevelConfig.

Module LeaderboardEntry.
Record t : Type := mk {
    name : string;
    score : Q;
    timestamp : Z
  }.
End LeaderboardEntry.

Module HudState.
Record t : Type := mk {
    score : Z;
    level : Z;
    upgradePoints : Z;
    shields : Z
  }.

  (** [Partial<HudState>] *)
Record partial : Type := mkPartial {
    p_score : option Z;
    p_level : option Z;
    p_upgradePoints : option Z;
    p_shields : option Z
  }.

Definition pick (o : option Z) (d : Z) : Z :=
    match o with Some v => v | None => d end.

  (** [{ ...hud, ...partial }] *)
Definition spread (h : t) (p : partial) : t :=
    mk (pick (p_score p) (score h)) (pick (p_level p) (level h))
       (pick (p_upgradePoints p) (upgradePoints h)) (pick (p_shields p) (shields h)).
End HudState.

Module Inputs.
Record t : Type := mk {
    left : bool;
    right : bool;
    jumpQueued : bool
  }.

Definition with_left (v : bool) (i : t) : t := mk v (right i) (jumpQueued i).
Definition with_right (v : bool) (i : t) : t := mk (left i) v (jumpQueued i).
Definition with_jumpQueued (v : bool) (i : t) : t := mk (left i) (right i) v.
End Inputs.

Module UpgradeState.
Record t : Type := mk {
    speed : Z;
    jump : Z;
    shield : Z
  }.

  (** [keyof UpgradeState] *)
Inductive key : Type := Speed | Jump | Shield.

  (** [current[type]] *)
Definition get (k : key) (u : t) : Z :=
    match k with Speed => speed u | Jump => jump u | Shield => shield u end.

  (** [{ ...current, [type]: v }] *)
Definition set (k : key) (v : Z) (u : t) : t :=
    match k with
    | Speed => mk v (jump u) (shield u)
    | Jump => mk (speed u) v (shield u)
    | Shield => mk (speed u) (jump u) v
    end.
End UpgradeState.

(** [AudioHandles]: the context always exists once the handle does; [music]
    tells whether the background pattern is playing. *)
Module AudioHandles.
Record t : Type := mk { music : bool }.
End AudioHandles.

Inductive OscillatorType : Type := sine | square | sawtooth | triangle.

(** One call [playTone(ctx, frequency, duration, type)]. *)
Module Tone.
Record t : Type := mk {
    frequency : Q;
    duration : Q;
    wave : OscillatorType
  }.
End Tone.

Module LastSpawn.
Record t : Type := mk {
    firewall : Q;
    virus : Q;
    data : Q
  }.
End LastSpawn.

Module World.
Record t : Type := mk {
    status : GameStatus;
    player : Player.t;
    entities : list Entity.t;
    lastFrame : Q;
    lastSpawn : LastSpawn.t;
    score : Q;
    upgradePoints : Z;
    level : Z;
    inputs : Inputs.t;
    animation : option Z
  }.

Definition with_status (v : GameStatus) (w : t) : t :=
    mk v (player w) (entities w) (lastFrame w) (lastSpawn w) (score w)
       (upgradePoints w) (level w) (inputs w) (animation w).
Definition with_player (v : Player.t) (w : t) : t :=
    mk (status w) v (entities w) (lastFrame w) (lastSpawn w) (score w)
       (upgradePoints w) (level w) (inputs w) (animation w).
Definition with_entities (v : list Entity.t) (w : t) : t :=
    mk (status w) (player w) v (lastFrame w) (lastSpawn w) (score w)
       (upgradePoints w) (level w) (inputs w) (animation w).
Definition with_lastFrame (v : Q) (w : t) : t :=
    mk (status w) (player w) (entities w) v (lastSpawn w) (score w)
       (upgradePoints w) (level w) (inputs w) (animation w).
Definition with_lastSpawn (v : LastSpawn.t) (w : t) : t :=
    mk (status w) (player w) (entities w) (lastFrame w) v (score w)
       (upgradePoints w) (level w) (inputs w) (animation w).
Definition with_score (v : Q) (w : t) : t :=
    mk (status w) (player w) (entities w) (lastFrame w) (lastSpawn w) v
       (upgradePoints w) (level w) (inputs w) (animation w).
Definition with_upgradePoints (v : Z) (w : t) : t :=
    mk (status w) (player w) (entities w) (lastFrame w) (lastSpawn w) (score w)
       v (level w) (inputs w) (animation w).
Definition with_level (v : Z) (w : t) : t :=
    mk (status w) (player w) (entities w) (lastFrame w) (lastSpawn w) (score w)
       (upgradePoints w) v (inputs w) (animation w).
Definition with_inputs (v : Inputs.t) (w : t) : t :=
    mk (status w) (player w) (entities w) (lastFrame w) (lastSpawn w) (score w)
       (upgradePoints w) (level w) v (animation w).
Definition with_animation (v : option Z) (w : t) : t :=
    mk (status w) (player w) (entities w) (lastFrame w) (lastSpawn w) (score w)
       (upgradePoints w) (level w) (inputs w) v.
End World.

(** What one callback reads from the browser. *)
Module Env.
Record t : Type := mk {
    perfNow : Q;          (* performance.now() *)
    dateNow : Z;          (* Date.now() *)
    virusPhaseRnd : Q;    (* Math.random() in spawnVirus *)
    dataHeightRnd : Q;    (* first Math.random() in spawnDataPacket *)
    dataPhaseRnd : Q;     (* second Math.random() in spawnDataPacket *)
    rafHandle : Z;        (* window.requestAnimationFrame(...) *)
    contextOk : bool;     (* new window.AudioContext() does not throw *)
    audioOk : bool        (* context.resume() and startMusic do not throw *)
  }.
End Env.

(** The refs and the React state of [CyberRunnerGame], the closure variable
    of [createUniqueId], the leaderboard slot of local storage, and the log
    of tones played. *)
Module Game.
Record t : Type := mk {
    worldRef : option World.t;
    hudRef : HudState.t;
    status : GameStatus;
    leaderboard : list LeaderboardEntry.t;
    playerName : string;
    upgrades : UpgradeState.t;
    upgradesRef : UpgradeState.t;
    audioRef : option AudioHandles.t;
    frameRef : Z;
    uniqueId : Z;
    storedLeaderboard : option (list LeaderboardEntry.t);
    tones : list Tone.t
  }.

Definition with_worldRef (v : option World.t) (g : t) : t :=
    mk v (hudRef g) (status g) (leaderboard g) (playerName g) (upgrades g)
       (upgradesRef g) (audioRef g) (frameRef g) (uniqueId g)
       (storedLeaderboard g) (tones g).
Definition with_hudRef (v : HudState.t) (g : t) : t :=
    mk (worldRef g) v (status g) (leaderboard g) (playerName g) (upgrades g)
       (upgradesRef g) (audioRef g) (frameRef g) (uniqueId g)
       (storedLeaderboard g) (tones g).
Definition with_status (v : GameStatus) (g : t) : t :=
    mk (worldRef g) (hudRef g) v (leaderboard g) (playerName g) (upgrades g)
       (upgradesRef g) (audioRef g) (frameRef g) (uniqueId g)
       (storedLeaderboard g) (tones g).
Definition with_leaderboard (v : list LeaderboardEntry.t) (g : t) : t :=
    mk (worldRef g) (hudRef g) (status g) v (playerName g) (upgrades g)
       (upgradesRef g) (audioRef g) (frameRef g) (uniqueId g)
       (storedLeaderboard g) (tones g).
Definition with_playerName (v : string) (g : t) : t :=
    mk (worldRef g) (hudRef g) (status g) (leaderboard g) v (upgrades g)
       (upgradesRef g) (audioRef g) (frameRef g) (uniqueId g)
       (storedLeaderboard g) (tones g).
Definition with_upgrades (v : UpgradeState.t) (g : t) : t :=
    mk (worldRef g) (hudRef g) (status g) (leaderboard g) (playerName g) v
       (upgradesRef g) (audioRef g) (frameRef g) (uniqueId g)
       (storedLeaderboard g) (tones g).
Definition with_upgradesRef (v : UpgradeState.t) (g : t) : t :=
    mk (worldRef g) (hudRef g) (status g) (leaderboard g) (playerName g)
       (upgrades g) v (audioRef g) (frameRef g) (uniqueId g)
       (storedLeaderboard g) (tones g).
Definition with_audioRef (v : option AudioHandles.t) (g : t) : t :=
    mk (worldRef g) (hudRef g) (status g) (leaderboard g) (playerName g)
       (upgrades g) (upgradesRef g) v (frameRef g) (uniqueId g)
       (storedLeaderboard g) (tones g).
Definition with_frameRef (v : Z) (g : t) : t :=
    mk (worldRef g) (hudRef g) (status g) (leaderboard g) (playerName g)
       (upgrades g) (upgradesRef g) (audioRef g) v (uniqueId g)
       (storedLeaderboard g) (tones g).
Definition with_uniqueId (v : Z) (g : t) : t :=
    mk (worldRef g) (hudRef g) (status g) (leaderboard g) (playerName g)
       (upgrades g) (upgradesRef g) (audioRef g) (frameRef g) v
       (storedLeaderboard g) (tones g).
Definition with_storedLeaderboard (v : option (list LeaderboardEntry.t)) (g : t) : t :=
    mk (worldRef g) (hudRef g) (status g) (leaderboard g) (playerName g)
       (upgrades g) (upgradesRef g) (audioRef g) (frameRef g) (uniqueId g)
       v (tones g).
Definition with_tones (v : list Tone.t) (g : t) : t :=
    mk (worldRef g) (hudRef g) (status g) (leaderboard g) (playerName g)
       (upgrades g) (upgradesRef g) (audioRef g) (frameRef g) (uniqueId g)
       (storedLeaderboard g) v.
End Game.

(** ** Constants (lines 55-67) *)

Definition CANVAS_WIDTH : Q := 960.
Definition CANVAS_HEIGHT : Q := 540.
Definition GROUND_HEIGHT : Q := 120.
Definition GRAVITY : Q := 0.6.
Definition MAX_LEADERS : nat := 5.

Definition LEVEL_BOOT : LevelConfig.t :=
  LevelConfig.mk 1 1 1600 2900 1100 "Boot Sequence".

Definition LEVELS : list LevelConfig.t :=
  [ LEVEL_BOOT;
    LevelConfig.mk 2 1.35 1400 2400 950 "Firewall Breach";
    LevelConfig.mk 3 1.7 1150 1900 820 "Cyber Overload" ].

(** [LEVELS[i]] for an index inside the table. *)
Definition LEVELS_at (i : nat) : LevelConfig.t := nth i LEVELS LEVEL_BOOT.

(** ** Pure helpers (lines 103-129) *)

Definition initialPlayer (shieldCharges : Z) : Player.t :=
  Player.mk 160 (CANVAS_HEIGHT - GROUND_HEIGHT - 72) 48 72 0 0 true shieldCharges 0.

Definition clamp (value min max : Q) : Q := Qmax min (Qmin max value).

Definition getLevel (score : Q) : LevelConfig.t :=
  if 1600 <=? score then LEVELS_at 2
  else if 600 <=? score then LEVELS_at 1
  else LEVELS_at 0.

(** [createUniqueId]: from the closure variable [id] to its new value, which
    is also the identifier returned. *)
Definition createUniqueId (counter : Z) : Z := (counter + 1)%Z.

(** ** Arrays *)

(** [Array.prototype.sort(cmp)] is stable, and for a consistent comparator
    every stable sort returns the same array; it is modelled as a stable
    insertion sort.  [cmp a b <= 0] keeps [a] before [b]. *)
Fixpoint insertBy {A : Type} (cmp : A -> A -> Q) (a : A) (l : list A) : list A :=
  match l with
  | [] => [a]
  | b :: rest => if cmp a b <=? 0 then a :: l else b :: insertBy cmp a rest
  end.

Definition sortBy {A : Type} (cmp : A -> A -> Q) (l : list A) : list A :=
  fold_right (insertBy cmp) [] l.

(** ** Audio (lines 161-173, 354-383) *)

(** [if (audioRef.current) playTone(audioRef.current.context, ...)] *)
Definition playTone (audio : option AudioHandles.t) (frequency duration : Q)
    (wave : OscillatorType) (log : list Tone.t) : list Tone.t :=
  match audio with
  | Some _ => log ++ [Tone.mk frequency duration wave]
  | None => log
  end.

(** Lines 354-372.  The handle is created when there is none and the
    constructor does not throw; the music is then started unless resuming
    the context or starting the music throws.  An exception leaves what was
    done before it. *)
Definition ensureAudio (env : Env.t) (g : Game.t) : Game.t :=
  let g :=
    match Game.audioRef g with
    | Some _ => g
    | None =>
        if Env.contextOk env then Game.with_audioRef (Some (AudioHandles.mk false)) g
        else g
    end in
  match Game.audioRef g with
  | None => g
  | Some _ =>
      if Env.audioOk env then Game.with_audioRef (Some (AudioHandles.mk true)) g
      else g
  end.

Definition stopAudio (g : Game.t) : Game.t :=
  match Game.audioRef g with
  | None => g
  | Some _ => Game.with_audioRef (Some (AudioHandles.mk false)) g
  end.

(** ** HUD and leaderboard (lines 404-422) *)

Definition updateHud (p : HudState.partial) (g : Game.t) : Game.t :=
  Game.with_hudRef (HudState.spread (Game.hudRef g) p) g.

(** The comparator [(a, b) => b.score - a.score]. *)
Definition byScoreDesc (a b : LeaderboardEntry.t) : Q :=
  LeaderboardEntry.score b - LeaderboardEntry.score a.

(** [playerName || 'Anonymous']: the empty string is falsy. *)
Definition nameOrAnonymous (playerName : string) : string :=
  if String.eqb playerName "" then "Anonymous"%string else playerName.

(** The updater passed to [setLeaderboard]. *)
Definition nextLeaderboard (playerName : string) (score : Q) (now : Z)
    (prev : list LeaderboardEntry.t) : list LeaderboardEntry.t :=
  firstn MAX_LEADERS
    (sortBy byScoreDesc
       (prev ++ [LeaderboardEntry.mk (nameOrAnonymous playerName) score now])).

(** [saveScore] closes over the [playerName] of the render that created it;
    that captured name is the first argument. *)
Definition saveScore (playerName : string) (score : Q) (env : Env.t) (g : Game.t) : Game.t :=
  let next := nextLeaderboard playerName score (Env.dateNow env) (Game.leaderboard g) in
  Game.with_storedLeaderboard (Some next) (Game.with_leaderboard next g).

Section Simulation.

#[local] Set Default Proof Using "Type".

  (** [Math.sin] and [Math.PI]. *)
Variable sin : Q -> Q.
Variable PI : Q.

  (** ** Entity factory (lines 212-244) *)

Definition spawnFirewall (level : LevelConfig.t) (counter : Z) : Entity.t * Z :=
    let id := createUniqueId counter in
    (Entity.mk id firewall (CANVAS_WIDTH + 40) (CANVAS_HEIGHT - GROUND_HEIGHT - 60)
       50 60 (4.2 * LevelConfig.speedScale level) None None,
     id).

Definition spawnVirus (env : Env.t) (level : LevelConfig.t) (counter : Z) : Entity.t * Z :=
    let id := createUniqueId counter in
    (Entity.mk id virus (CANVAS_WIDTH + 40) (CANVAS_HEIGHT - GROUND_HEIGHT - 140)
       54 54 (3.8 * LevelConfig.speedScale level)
       (Some (26 + inject_Z (LevelConfig.level level) * 6))
       (Some (Env.virusPhaseRnd env * PI * 2)),
     id).

Definition spawnDataPacket (env : Env.t) (level : LevelConfig.t) (counter : Z) : Entity.t * Z :=
    let id := createUniqueId counter in
    (Entity.mk id data (CANVAS_WIDTH + 40)
       (CANVAS_HEIGHT - GROUND_HEIGHT - (if 0.45 <? Env.dataHeightRnd env then 180 else 90))
       36 36 (4.1 * LevelConfig.speedScale level)
       (Some 18)
       (Some (Env.dataPhaseRnd env * PI * 2)),
     id).

  (** ** The frame callback [renderFrame] (lines 431-608), in its blocks *)

  (** Lines 443-473: horizontal motion. *)
Definition steer (upgradeSnapshot : UpgradeState.t) (inputs : Inputs.t)
      (deltaScale : Q) (p : Player.t) : Player.t :=
    let playerSpeedBase := 5 + inject_Z (UpgradeState.speed upgradeSnapshot) * 1.4 in
    let maxSpeed := 9 + inject_Z (UpgradeState.speed upgradeSnapshot) * 1.2 in
    let acceleration := 0.5 + inject_Z (UpgradeState.speed upgradeSnapshot) * 0.12 in
    let p :=
      if Inputs.left inputs then
        Player.with_vx (clamp (Player.vx p - acceleration) (- maxSpeed) maxSpeed) p
      else if Inputs.right inputs then
        Player.with_vx (clamp (Player.vx p + acceleration) (- maxSpeed) maxSpeed) p
      else
        let p := Player.with_vx (Player.vx p * 0.92) p in
        if Qabs (Player.vx p) <? 0.15 then Player.with_vx 0 p else p in
    let p :=
      if (Qabs (Player.vx p) <? playerSpeedBase * 0.35) && Inputs.right inputs
      then Player.with_vx (playerSpeedBase * 0.6) p
      else p in
    let p := Player.with_x (Player.x p + Player.vx p * deltaScale) p in
    Player.with_x (clamp (Player.x p) 60 (CANVAS_WIDTH - Player.width p - 80)) p.

  (** Lines 475-482: the jump request. *)
Definition jump (upgradeSnapshot : UpgradeState.t) (audio : option AudioHandles.t)
      (st : World.t * list Tone.t) : World.t * list Tone.t :=
    let '(w, log) := st in
    if Inputs.jumpQueued (World.inputs w) && Player.onGround (World.player w) then
      let p := Player.with_vy (- (12 + inject_Z (UpgradeState.jump upgradeSnapshot) * 1.8))
                 (World.player w) in
      let p := Player.with_onGround false p in
      let w := World.with_player p w in
      let w := World.with_inputs (Inputs.with_jumpQueued false (World.inputs w)) w in
      (w, playTone audio (520 + inject_Z (UpgradeState.jump upgradeSnapshot) * 40)
             0.18 triangle log)
    else st.

  (** Lines 484-491: gravity and landing. *)
Definition fall (deltaScale : Q) (p : Player.t) : Player.t :=
    let p := Player.with_vy (Player.vy p + GRAVITY * deltaScale) p in
    let p := Player.with_y (Player.y p + Player.vy p * deltaScale) p in
    let groundY := CANVAS_HEIGHT - GROUND_HEIGHT - Player.height p in
    if groundY <=? Player.y p then
      Player.with_onGround true (Player.with_vy 0 (Player.with_y groundY p))
    else p.

  (** [currentWorld.entities.push(e)] *)
Definition push (e : Entity.t) (w : World.t) : World.t :=
    World.with_entities (World.entities w ++ [e]) w.

  (** Lines 494-505: the three spawn timers; the second component is the
      closure variable of [createUniqueId]. *)
Definition spawnDue (timestamp : Q) (env : Env.t) (currentLevel : LevelConfig.t)
      (st : World.t * Z) : World.t * Z :=
    let '(w, counter) := st in
    let '(w, counter) :=
      if LevelConfig.obstacleInterval currentLevel
           <? timestamp - LastSpawn.firewall (World.lastSpawn w) then
        let '(e, counter) := spawnFirewall currentLevel counter in
        let w := push e w in
        let ls := World.lastSpawn w in
        (World.with_lastSpawn
           (LastSpawn.mk timestamp (LastSpawn.virus ls) (LastSpawn.data ls)) w, counter)
      else (w, counter) in
    let '(w, counter) :=
      if LevelConfig.virusInterval currentLevel
           <? timestamp - LastSpawn.virus (World.lastSpawn w) then
        let '(e, counter) := spawnVirus env currentLevel counter in
        let w := push e w in
        let ls := World.lastSpawn w in
        (World.with_lastSpawn
           (LastSpawn.mk (LastSpawn.firewall ls) timestamp (LastSpawn.data ls)) w, counter)
      else (w, counter) in
    if LevelConfig.dataInterval currentLevel
         <? timestamp - LastSpawn.data (World.lastSpawn w) then
      let '(e, counter) := spawnDataPacket env currentLevel counter in
      let w := push e w in
      let ls := World.lastSpawn w in
      (World.with_lastSpawn
         (LastSpawn.mk (LastSpawn.firewall ls) (LastSpawn.virus ls) timestamp) w, counter)
    else (w, counter).

  (** Lines 508-517: the callback of [map]. *)
Definition advance (upgradeSnapshot : UpgradeState.t) (currentLevel : LevelConfig.t)
      (deltaScale : Q) (frame : Z) (entity : Entity.t) : Entity.t :=
    let updated :=
      Entity.with_x
        (Entity.x entity
         - (Entity.speed entity + inject_Z (UpgradeState.speed upgradeSnapshot) * 0.6
            + LevelConfig.speedScale currentLevel) * deltaScale * 4.2)
        entity in
    if negb (EntityType_eqb (Entity.type entity) firewall) then
      let amplitude := orElse (Entity.amplitude entity) 0 in
      let phase := orElse (Entity.phase entity) 0 in
      Entity.with_y
        (Entity.y updated + sin (inject_Z frame / 16 + phase) * amplitude * 0.04 * deltaScale)
        updated
    else updated.

  (** Line 518: the predicate of [filter]. *)
Definition onScreen (entity : Entity.t) : bool :=
    -160 <? Entity.x entity + Entity.width entity.

  (** Lines 443-473 applied to the world: the player is steered by the held keys. *)
Definition move (upgradeSnapshot : UpgradeState.t) (deltaScale : Q) (w : World.t) : World.t :=
  World.with_player (steer upgradeSnapshot (World.inputs w) deltaScale (World.player w)) w.

(** Lines 484-491 applied to the world. *)
Definition land (deltaScale : Q) (w : World.t) : World.t :=
  World.with_player (fall deltaScale (World.player w)) w.

(** Lines 507-518: every entity moves, those far behind the left edge go. *)
Definition scroll (upgradeSnapshot : UpgradeState.t) (currentLevel : LevelConfig.t)
    (deltaScale : Q) (frame : Z) (w : World.t) : World.t :=
  World.with_entities
    (filter onScreen
       (map (advance upgradeSnapshot currentLevel deltaScale frame) (World.entities w))) w.

(** Lines 435-518: everything before the collision pass.  The result is
    the world, the tone log and the identifier counter. *)
Definition simulate (timestamp : Q) (env : Env.t) (g : Game.t)
    (currentWorld : World.t) : World.t * list Tone.t * Z :=
  let delta := timestamp - World.lastFrame currentWorld in
  let w := World.with_lastFrame timestamp currentWorld in
  let frame := (Game.frameRef g + 1)%Z in
  let deltaScale := delta / (1000 / 60) in
  let currentLevel := getLevel (World.score w) in
  let w := World.with_level (LevelConfig.level currentLevel) w in
  let upgradeSnapshot := Game.upgradesRef g in
  let w := move upgradeSnapshot deltaScale w in
  let '(w, log) := jump upgradeSnapshot (Game.audioRef g) (w, Game.tones g) in
  let w := land deltaScale w in
  let '(w, counter) := spawnDue timestamp env currentLevel (w, Game.uniqueId g) in
  let w := scroll upgradeSnapshot currentLevel deltaScale frame w in
  (w, log, counter).

(** Lines 522-528: the overlap test, with the bob of a data packet. *)
Definition collides (frame : Z) (player : Player.t) (entity : Entity.t) : bool :=
    let bob :=
      if EntityType_eqb (Entity.type entity) data
      then sin (inject_Z frame / 6 + orElse (Entity.phase entity) 0) * 4
      else 0 in
    let entityY := Entity.y entity + bob in
    (Player.x player <? Entity.x entity + Entity.width entity)
    && (Entity.x entity <? Player.x player + Player.width player)
    && (Player.y player <? entityY + Entity.height entity)
    && (entityY <? Player.y player + Player.height player).

  (** [currentWorld.entities.filter((e) => e.id !== entity.id)] *)
Definition without (entity : Entity.t) (l : list Entity.t) : list Entity.t :=
    filter (fun e => negb (Entity.id e =? Entity.id entity)%Z) l.

  (** Lines 521-551: the callback of [forEach], for one entity. *)
Definition onEntity (audio : option AudioHandles.t) (frame : Z) (timeNow : Q)
      (st : World.t * list Tone.t) (entity : Entity.t) : World.t * list Tone.t :=
    let '(w, log) := st in
    if negb (collides frame (World.player w) entity) then st
    else if EntityType_eqb (Entity.type entity) data then
      let w := World.with_entities (without entity (World.entities w)) w in
      let w := World.with_score (World.score w + 120) w in
      let w := World.with_upgradePoints (World.upgradePoints w + 1)%Z w in
      (w, playTone audio 880 0.16 square log)
    else if timeNow <? Player.invulnerableUntil (World.player w) then st
    else if (0 <? Player.shieldCharges (World.player w))%Z then
      let p := World.player w in
      let p := Player.with_shieldCharges (Player.shieldCharges p - 1)%Z p in
      let p := Player.with_invulnerableUntil (timeNow + 1200) p in
      let w := World.with_player p w in
      let w := World.with_entities (without entity (World.entities w)) w in
      (w, playTone audio 160 0.3 sawtooth log)
    else (World.with_status over w, log).

  (** Lines 520-551: [forEach] walks the array that [currentWorld.entities]
      held when the loop began; the callback replaces the property by a new,
      filtered array and never changes the array being walked. *)
Definition resolveCollisions (audio : option AudioHandles.t) (frame : Z) (timeNow : Q)
      (st : World.t * list Tone.t) : World.t * list Tone.t :=
    fold_left (onEntity audio frame timeNow) (World.entities (fst st)) st.

  (** Line 553: the time accrual of the tick. *)
Definition accrue (delta : Q) (currentLevel : LevelConfig.t) (w : World.t) : World.t :=
    World.with_score
      (World.score w + delta * 0.35 * LevelConfig.speedScale currentLevel) w.

Definition hudOf (currentLevel : LevelConfig.t) (w : World.t) : HudState.partial :=
    HudState.mkPartial (Some (Qfloor (World.score w)))
      (Some (LevelConfig.level currentLevel))
      (Some (World.upgradePoints w))
      (Some (Player.shieldCharges (World.player w))).

  (** Lines 598-607: re-arm the callback or end the run.  [playerName] is the
      name captured by the [saveScore] this loop was started with. *)
Definition conclude (playerName : string) (env : Env.t) (w : World.t) (g : Game.t) : Game.t :=
    if GameStatus_eqb (World.status w) running then
      Game.with_worldRef (Some (World.with_animation (Some (Env.rafHandle env)) w)) g
    else
      let g := Game.with_worldRef (Some w) g in
      if GameStatus_eqb (World.status w) over then
        let g := Game.with_status over g in
        let g := stopAudio g in
        let g := updateHud (HudState.mkPartial None None None (Some 0%Z)) g in
        saveScore playerName (inject_Z (Qfloor (World.score w))) env g
      else g.

Definition renderFrame (playerName : string) (timestamp : Q) (env : Env.t)
      (g : Game.t) : Game.t :=
    match Game.worldRef g with
    | None => g
    | Some currentWorld =>
      if negb (GameStatus_eqb (World.status currentWorld) running) then g
      else
        let delta := timestamp - World.lastFrame currentWorld in
        let frame := (Game.frameRef g + 1)%Z in
        let currentLevel := getLevel (World.score currentWorld) in
        let '(w, log, counter) := simulate timestamp env g currentWorld in
        let '(w, log) :=
          resolveCollisions (Game.audioRef g) frame (Env.perfNow env) (w, log) in
        let w := accrue delta currentLevel w in
        let g := Game.with_frameRef frame g in
        let g := Game.with_uniqueId counter g in
        let g := Game.with_tones log g in
        let g := updateHud (hudOf currentLevel w) g in
        conclude playerName env w g
    end.

(** ** Run lifecycle (lines 385-402, 424-430, 610, 672-707) *)

Definition resetWorld (env : Env.t) (shieldCharges : Z) : World.t :=
  World.mk idle (initialPlayer shieldCharges) [] (Env.perfNow env)
    (LastSpawn.mk 0 0 0) 0 0%Z 1%Z (Inputs.mk false false false) None.

(** [startLoop]: the canvas is mounted; the first frame is requested for
    the world the ref holds. *)
Definition startLoop (env : Env.t) (g : Game.t) : Game.t :=
  match Game.worldRef g with
  | None => g
  | Some world =>
      Game.with_worldRef (Some (World.with_animation (Some (Env.rafHandle env)) world)) g
  end.

Definition startGame (env : Env.t) (g : Game.t) : Game.t :=
  let shieldCharges := (1 + UpgradeState.shield (Game.upgradesRef g))%Z in
  let world := resetWorld env shieldCharges in
  let world := World.with_status running world in
  let g := Game.with_worldRef (Some world) g in
  let g := Game.with_frameRef 0%Z g in
  let g := updateHud
             (HudState.mkPartial (Some 0%Z) (Some 1%Z) (Some 0%Z) (Some shieldCharges)) g in
  let g := Game.with_status running g in
  let g := ensureAudio env g in
  startLoop env g.

Definition togglePause (env : Env.t) (g : Game.t) : Game.t :=
  match Game.worldRef g with
  | None => g
  | Some world =>
      if GameStatus_eqb (World.status world) running then
        let world := World.with_status paused world in
        let g := Game.with_worldRef (Some world) g in
        let g := Game.with_status paused g in
        stopAudio g
      else if GameStatus_eqb (World.status world) paused then
        let world := World.with_status running world in
        let world := World.with_lastFrame (Env.perfNow env) world in
        let g := Game.with_worldRef (Some world) g in
        let g := Game.with_status running g in
        let g := ensureAudio env g in
        startLoop env g
      else g
  end.

Definition restartGame (env : Env.t) (g : Game.t) : Game.t :=
  startGame env (stopAudio g).

(** ** Upgrades (lines 350-352, 709-743) *)

Definition applyUpgrade (type : UpgradeState.key) (g : Game.t) : Game.t :=
  match Game.worldRef g with
  | None => g
  | Some world =>
      if GameStatus_eqb (World.status world) idle then g
      else
        let current := Game.upgradesRef g in
        let cost := (3 + UpgradeState.get type current * 2)%Z in
        if (World.upgradePoints world <? cost)%Z then g
        else
          let nextLevel := (UpgradeState.get type current + 1)%Z in
          let nextUpgrades := UpgradeState.set type nextLevel current in
          let g := Game.with_upgradesRef nextUpgrades g in
          let world := World.with_upgradePoints (World.upgradePoints world - cost)%Z world in
          let g := Game.with_upgrades nextUpgrades g in
          let '(world, hud) :=
            match type with
            | UpgradeState.Shield =>
                let p := World.player world in
                let world :=
                  World.with_player
                    (Player.with_shieldCharges (Player.shieldCharges p + 1)%Z p) world in
                (world,
                 HudState.mkPartial None None (Some (World.upgradePoints world))
                   (Some (Player.shieldCharges (World.player world))))
            | _ =>
                (world, HudState.mkPartial None None (Some (World.upgradePoints world)) None)
            end in
          let g := Game.with_worldRef (Some world) g in
          let g := updateHud hud g in
          Game.with_tones
            (playTone (Game.audioRef g) (660 + inject_Z nextLevel * 40) 0.15 square
               (Game.tones g)) g
  end.

(** The effect of lines 350-352: [upgradesRef.current = upgrades]. *)
Definition syncUpgradesRef (g : Game.t) : Game.t :=
  Game.with_upgradesRef (Game.upgrades g) g.

(** The effect of lines 734-743, run when [upgrades.shield] has changed. *)
Definition syncShield (g : Game.t) : Game.t :=
  match Game.worldRef g with
  | None => g
  | Some world =>
      let shieldLevel := (1 + UpgradeState.shield (Game.upgrades g))%Z in
      if (Player.shieldCharges (World.player world) <? shieldLevel)%Z then
        Game.with_worldRef
          (Some (World.with_player
                   (Player.with_shieldCharges shieldLevel (World.player world)) world)) g
      else g
  end.

(** ** Keyboard (lines 634-670) *)

Definition isLeftKey (code : string) : bool :=
  String.eqb code "ArrowLeft" || String.eqb code "KeyA".
Definition isRightKey (code : string) : bool :=
  String.eqb code "ArrowRight" || String.eqb code "KeyD".
Definition isJumpKey (code : string) : bool :=
  String.eqb code "Space" || String.eqb code "ArrowUp" || String.eqb code "KeyW".

Definition setInputs (f : Inputs.t -> Inputs.t) (g : Game.t) : Game.t :=
  match Game.worldRef g with
  | None => g
  | Some world => Game.with_worldRef (Some (World.with_inputs (f (World.inputs world)) world)) g
  end.

Definition handleKeyDown (code : string) (env : Env.t) (g : Game.t) : Game.t :=
  match Game.worldRef g with
  | None => g
  | Some _ =>
      let g := if isLeftKey code then setInputs (Inputs.with_left true) g else g in
      let g := if isRightKey code then setInputs (Inputs.with_right true) g else g in
      let g := if isJumpKey code then setInputs (Inputs.with_jumpQueued true) g else g in
      if String.eqb code "KeyP" then togglePause env g else g
  end.

Definition handleKeyUp (code : string) (g : Game.t) : Game.t :=
  match Game.worldRef g with
  | None => g
  | Some _ =>
      let g := if isLeftKey code then setInputs (Inputs.with_left false) g else g in
      let g := if isRightKey code then setInputs (Inputs.with_right false) g else g in
      if isJumpKey code then setInputs (Inputs.with_jumpQueued false) g else g
  end.

(** Line 765: [setPlayerName(event.target.value.slice(0, 16))]. *)
Definition changeName (value : string) (g : Game.t) : Game.t :=
  Game.with_playerName (String.substring 0 16 value) g.

(** ** The component as a transition system *)

(** The state after the first render and the mount effect of lines 328-343:
    [stored] is the leaderboard in local storage when it is there and
    parses, [storedName] the stored handle. *)
Definition mount (stored : option (list LeaderboardEntry.t)) (storedName : option string)
    : Game.t :=
  Game.mk None (HudState.mk 0 1 0 0) idle
    (match stored with Some l => l | None => [] end)
    (match storedName with
     | Some n => if String.eqb n "" then "Cipher"%string else n
     | None => "Cipher"%string
     end)
    (UpgradeState.mk 0 0 1) (UpgradeState.mk 0 0 1) None 0%Z 0%Z stored [].

(** Whatever can happen to a mounted component.  A frame callback may fire
    at any time (the guards of [renderFrame] decide whether it acts), with
    the handle its [saveScore] captured. *)
Inductive Event : Type :=
| Frame (playerName : string) (timestamp : Q) (env : Env.t)
| Start (env : Env.t)
| Pause (env : Env.t)
| Restart (env : Env.t)
| Upgrade (type : UpgradeState.key)
| RefEffect
| ShieldEffect
| KeyDown (code : string) (env : Env.t)
| KeyUp (code : string)
| Rename (value : string).

Definition step (g : Game.t) (ev : Event) : Game.t :=
  match ev with
  | Frame playerName timestamp env => renderFrame playerName timestamp env g
  | Start env => startGame env g
  | Pause env => togglePause env g
  | Restart env => restartGame env g
  | Upgrade type => applyUpgrade type g
  | RefEffect => syncUpgradesRef g
  | ShieldEffect => syncShield g
  | KeyDown code env => handleKeyDown code env g
  | KeyUp code => handleKeyUp code g
  | Rename value => changeName value g
  end.

Definition run (g : Game.t) (evs : list Event) : Game.t := fold_left step evs g.

(** An event that replaces the run by a fresh one. *)
Definition startsRun (ev : Event) : bool :=
  match ev with
  | Start _ | Restart _ => true
  | _ => false
  end.

(** ** Stages of a tick *)

(** The world at the end of a tick of a running world, before the callback
    is re-armed: lines 435-553 of [renderFrame]. *)
Definition tickState (timestamp : Q) (env : Env.t) (g : Game.t) (w : World.t)
    : World.t * list Tone.t :=
  let sim := simulate timestamp env g w in
  resolveCollisions (Game.audioRef g) (Game.frameRef g + 1)%Z (Env.perfNow env) (fst sim).

Definition tickWorld (timestamp : Q) (env : Env.t) (g : Game.t) (w : World.t) : World.t :=
  accrue (timestamp - World.lastFrame w) (getLevel (World.score w))
    (fst (tickState timestamp env g w)).

(** The entity is a data packet that overlaps the player. *)
Definition picks (frame : Z) (player : Player.t) (entity : Entity.t) : bool :=
  collides frame player entity && EntityType_eqb (Entity.type entity) data.

(** The entity is a firewall or a virus that overlaps the player. *)
Definition hits (frame : Z) (player : Player.t) (entity : Entity.t) : bool :=
  collides frame player entity && negb (EntityType_eqb (Entity.type entity) data).

(** The number of elements of a list, as a rational. *)
Definition count {A : Type} (l : list A) : Q := inject_Z (Z.of_nat (List.length l)).

(** The world after a data packet was picked up. *)
Definition collected (entity : Entity.t) (w : World.t) : World.t :=
  World.with_upgradePoints (World.upgradePoints w + 1)%Z
    (World.with_score (World.score w + 120)
       (World.with_entities (without entity (World.entities w)) w)).

(** The world after a hazard was absorbed by a shield charge. *)
Definition absorbed (timeNow : Q) (entity : Entity.t) (w : World.t) : World.t :=
  World.with_entities (without entity (World.entities w))
    (World.with_player
       (Player.with_invulnerableUntil (timeNow + 1200)
          (Player.with_shieldCharges (Player.shieldCharges (World.player w) - 1)%Z
             (World.player w))) w).

(** What every world held by the ref satisfies, given the value [c] of the
    identifier counter: the charge count is not negative, identifiers are
    pairwise distinct and were all handed out already, and the status is
    not idle. *)
Definition worldOk (c : Z) (w : World.t) : Prop :=
  (0 <= Player.shieldCharges (World.player w))%Z
  /\ NoDup (map Entity.id (World.entities w))
  /\ (forall e, In e (World.entities w) -> (Entity.id e <= c)%Z)
  /\ World.status w <> idle.

(** The invariant of the component. *)
Definition wellFormed (g : Game.t) : Prop :=
  Game.upgrades g = Game.upgradesRef g
  /\ (0 <= UpgradeState.speed (Game.upgradesRef g))%Z
  /\ (0 <= UpgradeState.jump (Game.upgradesRef g))%Z
  /\ (1 <= UpgradeState.shield (Game.upgradesRef g))%Z
  /\ (forall w, Game.worldRef g = Some w -> worldOk (Game.uniqueId g) w).

(** The states the component can be in: those reached from a mount by any
    sequence of events. *)
Definition reachable (g : Game.t) : Prop :=
  exists stored storedName evs, g = run (mount stored storedName) evs.

(** The player of the current run, when there is one. *)
Definition playerOf (g : Game.t) : option Player.t :=
  option_map World.player (Game.worldRef g).

(** The status and the score of the current run, when there is one. *)
Definition outcomeOf (g : Game.t) : option (GameStatus * Q) :=
  option_map (fun w => (World.status w, World.score w)) (Game.worldRef g).

(** The entities of the current run (none when there is no run). *)
Definition entitiesOf (g : Game.t) : list Entity.t :=
  match Game.worldRef g with
  | Some w => World.entities w
  | None => []
  end.

(** The entities of the current run together with the identifier counter. *)
Definition arena (g : Game.t) : list Entity.t * Z := (entitiesOf g, Game.uniqueId g).

(** An identifier that can still be met in a collision: it belongs to an
    entity of the current run, or it was not handed out yet. *)
Definition live (g : Game.t) (i : Z) : Prop :=
  In i (map Entity.id (entitiesOf g)) \/ (Game.uniqueId g < i)%Z.

(** The identifiers of the data packets picked up by the frame callback
    called in state [g]: the packets of the array walked by the collision
    pass that overlap the player. *)
Definition pickedUp (timestamp : Q) (env : Env.t) (g : Game.t) : list Z :=
  match Game.worldRef g with
  | Some w =>
      if GameStatus_eqb (World.status w) running then
        let w1 := fst (fst (simulate timestamp env g w)) in
        map Entity.id
          (filter (picks (Game.frameRef g + 1)%Z (World.player w1)) (World.entities w1))
      else []
  | None => []
  end.

Definition pickedBy (g : Game.t) (ev : Event) : list Z :=
  match ev with
  | Frame _ timestamp env => pickedUp timestamp env g
  | _ => []
  end.

(** The identifiers picked up along a sequence of events, in order. *)
Fixpoint pickedAlong (g : Game.t) (evs : list Event) : list Z :=
  match evs with
  | [] => []
  | ev :: rest => pickedBy g ev ++ pickedAlong (step g ev) rest
  end.

(** The top speed for an upgrade level: [9 + speed * 1.2]. *)
Definition maxSpeedOf (u : UpgradeState.t) : Q :=
  9 + inject_Z (UpgradeState.speed u) * 1.2.

(** The ground plane for the player: [CANVAS_HEIGHT - GROUND_HEIGHT - height]. *)
Definition groundYOf (p : Player.t) : Q := CANVAS_HEIGHT - GROUND_HEIGHT - Player.height p.

(** [p'] is [p] up to the shield-charge count and the invulnerability
    expiry. *)
Definition sameBody (p p' : Player.t) : Prop :=
  Player.with_shieldCharges (Player.shieldCharges p)
    (Player.with_invulnerableUntil (Player.invulnerableUntil p) p') = p.

(** Line 747: the score shown as Best. *)
Definition highestScore (leaderboard : list LeaderboardEntry.t) : Q :=
  match leaderboard with
  | [] => 0
  | first :: _ => LeaderboardEntry.score first
  end.

(** The three spawn timers of lines 494-505, as tests. *)
Definition firewallDue (timestamp : Q) (lvl : LevelConfig.t) (w : World.t) : bool :=
  LevelConfig.obstacleInterval lvl <? timestamp - LastSpawn.firewall (World.lastSpawn w).
Definition virusDue (timestamp : Q) (lvl : LevelConfig.t) (w : World.t) : bool :=
  LevelConfig.virusInterval lvl <? timestamp - LastSpawn.virus (World.lastSpawn w).
Definition dataDue (timestamp : Q) (lvl : LevelConfig.t) (w : World.t) : bool :=
  LevelConfig.dataInterval lvl <? timestamp - LastSpawn.data (World.lastSpawn w).

(** The consecutive identifiers [c + 1, ..., c + n]. *)
Definition nextIds (c : Z) (n : nat) : list Z :=
  map (fun k => (c + 1 + Z.of_nat k)%Z) (seq 0 n).

(** What the screen shows agrees with the run: the overlay status is the
    status of the world (idle when there is none), the HUD shows the floored
    score, the tier number and the upgrade points of the world, and the
    upgrade points are not negative. *)
Definition consistent (g : Game.t) : Prop :=
  match Game.worldRef g with
  | None => Game.status g = idle
  | Some w =>
      Game.status g = World.status w
      /\ HudState.score (Game.hudRef g) = Qfloor (World.score w)
      /\ HudState.level (Game.hudRef g) = World.level w
      /\ HudState.upgradePoints (Game.hudRef g) = World.upgradePoints w
      /\ (0 <= World.upgradePoints w)%Z
  end.

(** ** Stand-ins for [Math.sin] and [Math.PI] in worked examples *)

(** The Taylor polynomial of degree 9 of the sine. *)
Definition sinTaylor (a : Q) : Q :=
  let a2 := a * a in
  a * (1 - a2 / 6 * (1 - a2 / 20 * (1 - a2 / 42 * (1 - a2 / 72)))).

Definition piApprox : Q := 355 # 113.

(** A rational sine: the argument is first brought into [-pi, pi) by whole
    turns, where the polynomial is within 0.01 of the sine. *)
Definition sinApprox (a : Q) : Q :=
  let turn := 2 * piApprox in
  let r := a - inject_Z (Qfloor (a / turn)) * turn in
  - sinTaylor (r - piApprox).

(** A browser environment for the examples: the clock reads [now]. *)
Definition envAt (now : Q) : Env.t := Env.mk now 0%Z 0.5 0.5 0.5 1%Z false false.

(** ** Vocabulary of the statements *)

(** The cost of the next level of a category: [3 + current[type] * 2]. *)
Definition upgradeCost (type : UpgradeState.key) (g : Game.t) : Z :=
  (3 + UpgradeState.get type (Game.upgradesRef g) * 2)%Z.

(** A leaderboard whose scores never go up from one row to the next. *)
Definition descending (l : list LeaderboardEntry.t) : Prop :=
  StronglySorted (fun a b => LeaderboardEntry.score b <= LeaderboardEntry.score a) l.

(** Applies [f] to the world the ref holds. *)
Definition onWorld (f : World.t -> World.t) (g : Game.t) : Game.t :=
  match Game.worldRef g with
  | None => g
  | Some world => Game.with_worldRef (Some (f world)) g
  end.

(** The leaderboard on the screen and its copy in local storage. *)
Definition tableOf (g : Game.t) : list LeaderboardEntry.t * option (list LeaderboardEntry.t) :=
  (Game.leaderboard g, Game.storedLeaderboard g).

(** ** Example states *)

(** A run just started on a freshly mounted component: two shield charges,
    no upgrade points. *)
Definition freshRun : Game.t := startGame (envAt 0) (mount None None).

(** The same run holding [n] upgrade points. *)
Definition runWithPoints (n : Z) : Game.t := onWorld (World.with_upgradePoints n) freshRun.

(** A firewall and a low data packet, both just ahead of the player's
    starting position. *)
Definition hazardAhead : Entity.t :=
  Entity.mk 1 firewall 200 360 50 60 4.2 None None.

Definition packetAhead : Entity.t :=
  Entity.mk 2 data 200 330 36 36 4.1 (Some 18) (Some 0).

(** Nine seconds into a run, 540 frames drawn, score 300: the player stands
    on the ground with no charge left, the last invulnerability window ended
    at 5000 ms, and the firewall and the packet are about to reach it. *)
Definition lastStandWorld : World.t :=
  World.mk running (Player.mk 160 348 48 72 0 0 true 0 5000)
    [hazardAhead; packetAhead] 8984 (LastSpawn.mk 8000 8000 8000)
    300 0 1 (Inputs.mk false false false) (Some 1%Z).

Definition gameWith (w : World.t) : Game.t :=
  Game.mk (Some w) (HudState.mk 300 1 0 0) running [] "Cipher"
    (UpgradeState.mk 0 0 1) (UpgradeState.mk 0 0 1) None 540 2 None [].

Definition lastStand : Game.t := gameWith lastStandWorld.

(** The same moment with the invulnerability window still open until
    9500 ms. *)
Definition shieldedWorld : World.t :=
  World.with_player (Player.with_invulnerableUntil 9500 (World.player lastStandWorld))
    lastStandWorld.

(** The same moment with only the packet ahead. *)
Definition packetWorld : World.t := World.with_entities [packetAhead] lastStandWorld.

(** The player in mid-air, a jump queued. *)
Definition airborneWorld : World.t :=
  World.with_inputs (Inputs.mk false false true)
    (World.with_player
       (Player.with_onGround false (Player.with_y 250 (World.player lastStandWorld)))
       lastStandWorld).

(** The world of [freshRun]. *)
Definition freshWorld : World.t :=
  World.with_animation (Some 1%Z) (World.with_status running (resetWorld (envAt 0) 2)).

(** [lastStandWorld] with two shield charges left. *)
Definition chargedWorld : World.t :=
  World.with_player (Player.with_shieldCharges 2 (World.player lastStandWorld))
    lastStandWorld.

(** A full leaderboard, sorted from high to low. *)
Definition fullTable : list LeaderboardEntry.t :=
  [ LeaderboardEntry.mk "Ada" 900 1; LeaderboardEntry.mk "Bob" 700 2;
    LeaderboardEntry.mk "Cy" 500 3; LeaderboardEntry.mk "Dee" 400 4;
    LeaderboardEntry.mk "Eve" 300 5 ].

(** * Properties *)

(** ** Boolean comparisons *)

Lemma Qltb_lt (a b : Q) : (a <? b) = true <-> a < b.
Proof.
  unfold Qltb. rewrite negb_true_iff.
  split; intro H.
  - apply Qnot_le_lt. intro Hle. apply Qle_bool_iff in Hle. congruence.
  - destruct (Qle_bool b a) eqn:E; [|reflexivity].
    apply Qle_bool_iff in E. exfalso. exact (Qlt_not_le _ _ H E).
Qed.

Lemma Qltb_ge (a b : Q) : (a <? b) = false <-> b <= a.
Proof.
  unfold Qltb. rewrite negb_false_iff. apply Qle_bool_iff.
Qed.

Lemma Qleb_le (a b : Q) : (a <=? b) = true <-> a <= b.
Proof. apply Qle_bool_iff. Qed.

Lemma Qleb_gt (a b : Q) : (a <=? b) = false <-> b < a.
Proof.
  rewrite <- Qltb_lt. unfold Qltb.
  destruct (Qle_bool a b); simpl; split; congruence.
Qed.

(** Turns the boolean tests found among the hypotheses into propositions. *)
Ltac qprop :=
  repeat match goal with
  | H : (_ <? _) = true |- _ => apply Qltb_lt in H
  | H : (_ <? _) = false |- _ => apply Qltb_ge in H
  | H : (_ <=? _) = true |- _ => apply Qleb_le in H
  | H : (_ <=? _) = false |- _ => apply Qleb_gt in H
  end.

(** ** The audio handle *)

(** [ensureAudio] writes the audio handle and nothing else. *)
Lemma ensureAudio_shape (env : Env.t) (g : Game.t) :
  exists a, ensureAudio env g = Game.with_audioRef a g.
Proof.
  clear sin PI.
  unfold ensureAudio. destruct g as [wr hud st lb nm up upr au fr uid sl tn]. cbn.
  destruct au as [h|]; [|destruct (Env.contextOk env)]; cbn;
    destruct (Env.audioOk env); eexists; reflexivity.
Qed.

Ltac audio_shape :=
  cbv zeta;
  repeat match goal with
  | |- context [ensureAudio ?e ?G] =>
      let a := fresh "a" in destruct (ensureAudio_shape e G) as [a ->]
  end.

(** ** Difficulty selector *)

Lemma getLevel_cases (score : Q) :
  (score < 600 /\ getLevel score = LEVELS_at 0)
  \/ (600 <= score /\ score < 1600 /\ getLevel score = LEVELS_at 1)
  \/ (1600 <= score /\ getLevel score = LEVELS_at 2).
Proof.
  unfold getLevel.
  destruct (1600 <=? score) eqn:E1; [right; right; qprop; auto|].
  destruct (600 <=? score) eqn:E2; qprop; [right; left; auto | left; auto].
Qed.

(** C7. The selector is total: every score is mapped to a tier of the table,
    the one fixed by comparing with 1600 first and 600 next; and it is
    monotonic: a higher score never selects a lower tier number. *)
Theorem getLevel_total_monotone :
  (forall score : Q,
      In (getLevel score) LEVELS
      /\ (LevelConfig.level (getLevel score) = 3%Z <-> 1600 <= score)
      /\ (LevelConfig.level (getLevel score) = 2%Z <-> 600 <= score /\ score < 1600)
      /\ (LevelConfig.level (getLevel score) = 1%Z <-> score < 600))
  /\ (forall s1 s2 : Q,
        s1 <= s2 ->
        (LevelConfig.level (getLevel s1) <= LevelConfig.level (getLevel s2))%Z).
Proof.
  clear sin PI.
  split.
  - intro score.
    destruct (getLevel_cases score) as [[H ->] | [(H1 & H2 & ->) | [H ->]]];
      cbn; (split; [tauto|]);
      repeat split; intros; try discriminate; try lia; try lra.
  - intros s1 s2 Hle.
    destruct (getLevel_cases s1) as [[H ->] | [(H1 & H2 & ->) | [H ->]]];
      destruct (getLevel_cases s2) as [[K ->] | [(K1 & K2 & ->) | [K ->]]];
      cbn; try lia; exfalso; lra.
Qed.

Lemma getLevel_total_monotone_witness :
  500 <= 1700
  /\ (LevelConfig.level (getLevel 500) <= LevelConfig.level (getLevel 1700))%Z.
Proof.
  assert (H : 500 <= 1700) by (unfold Qle; simpl; lia).
  split; [exact H | exact (proj2 getLevel_total_monotone 500 1700 H)].
Defined.

(** ** Upgrade purchases *)

(** C9. With no run, or with a run whose status is idle, a purchase returns
    the component state as it was: levels, currency, player, HUD and tone
    log are all untouched, whatever the currency. *)
Theorem applyUpgrade_without_run (type : UpgradeState.key) (g : Game.t) :
  (Game.worldRef g = None
   \/ exists world, Game.worldRef g = Some world /\ World.status world = idle) ->
  applyUpgrade type g = g.
Proof.
  intros [H | (world & H & Hidle)]; unfold applyUpgrade; rewrite H.
  - reflexivity.
  - rewrite Hidle. reflexivity.
Qed.

(** C6. In a run that is not idle: with currency equal to the cost the
    purchase goes through, the category's level goes up by one (the other
    two keep theirs) and the currency left is 0; with currency one short of
    the cost nothing at all changes. *)
Theorem applyUpgrade_at_cost (type : UpgradeState.key) (g : Game.t) (world : World.t) :
  Game.worldRef g = Some world ->
  World.status world <> idle ->
  (World.upgradePoints world = upgradeCost type g ->
   exists world',
     Game.worldRef (applyUpgrade type g) = Some world'
     /\ World.upgradePoints world' = 0%Z
     /\ Game.upgradesRef (applyUpgrade type g)
        = UpgradeState.set type (UpgradeState.get type (Game.upgradesRef g) + 1)%Z
            (Game.upgradesRef g)
     /\ Game.upgrades (applyUpgrade type g) = Game.upgradesRef (applyUpgrade type g)
     /\ UpgradeState.get type (Game.upgradesRef (applyUpgrade type g))
        = (UpgradeState.get type (Game.upgradesRef g) + 1)%Z
     /\ (forall other, other <> type ->
           UpgradeState.get other (Game.upgradesRef (applyUpgrade type g))
           = UpgradeState.get other (Game.upgradesRef g)))
  /\ (World.upgradePoints world = (upgradeCost type g - 1)%Z ->
      applyUpgrade type g = g).
Proof.
  intros Hw Hst. unfold upgradeCost.
  assert (Hidle : GameStatus_eqb (World.status world) idle = false)
    by (destruct (World.status world); try reflexivity; congruence).
  split; intro Hpts; unfold applyUpgrade; rewrite Hw, Hidle.
  - assert (Hlt : (World.upgradePoints world
                   <? 3 + UpgradeState.get type (Game.upgradesRef g) * 2)%Z = false)
      by (apply Z.ltb_ge; lia).
    rewrite Hlt.
    destruct type; cbn in *;
      (eexists; split; [reflexivity|]; cbn;
       repeat split; try reflexivity; try lia;
       intros other Hother; destruct other; cbn; congruence).
  - assert (Hlt : (World.upgradePoints world
                   <? 3 + UpgradeState.get type (Game.upgradesRef g) * 2)%Z = true)
      by (apply Z.ltb_lt; lia).
    rewrite Hlt. reflexivity.
Qed.

Lemma applyUpgrade_without_run_witness :
  applyUpgrade UpgradeState.Shield (mount None None) = mount None None.
Proof.
  apply (applyUpgrade_without_run UpgradeState.Shield (mount None None)).
  left. reflexivity.
Defined.

Lemma applyUpgrade_at_cost_witness :
  Game.upgradesRef (applyUpgrade UpgradeState.Speed (runWithPoints 3))
  = UpgradeState.mk 1 0 1
  /\ applyUpgrade UpgradeState.Speed (runWithPoints 2) = runWithPoints 2.
Proof.
  split.
  - destruct (applyUpgrade_at_cost UpgradeState.Speed (runWithPoints 3)
                (World.with_upgradePoints 3
                   (World.with_animation (Some 1%Z)
                      (World.with_status running (resetWorld (envAt 0) 2))))
                eq_refl ltac:(discriminate)) as [Hbuy _].
    destruct (Hbuy eq_refl) as (world' & _ & _ & Href & _).
    exact Href.
  - destruct (applyUpgrade_at_cost UpgradeState.Speed (runWithPoints 2)
                (World.with_upgradePoints 2
                   (World.with_animation (Some 1%Z)
                      (World.with_status running (resetWorld (envAt 0) 2))))
                eq_refl ltac:(discriminate)) as [_ Hshort].
    exact (Hshort eq_refl).
Defined.

(** ** Leaderboard *)

Lemma insertBy_In {A : Type} (cmp : A -> A -> Q) (a b : A) (l : list A) :
  In b (insertBy cmp a l) <-> b = a \/ In b l.
Proof.
  clear sin PI.
  induction l as [|c l IH]; simpl.
  - intuition auto.
  - destruct (cmp a c <=? 0); simpl; [intuition auto|].
    rewrite IH. intuition auto.
Qed.

Lemma insertBy_length {A : Type} (cmp : A -> A -> Q) (a : A) (l : list A) :
  List.length (insertBy cmp a l) = S (List.length l).
Proof.
  induction l as [|c l IH]; simpl; [reflexivity|].
  destruct (cmp a c <=? 0); simpl; congruence.
Qed.

Lemma sortBy_In {A : Type} (cmp : A -> A -> Q) (b : A) (l : list A) :
  In b (sortBy cmp l) <-> In b l.
Proof.
  clear sin PI.
  induction l as [|a l IH]; simpl; [tauto|].
  rewrite insertBy_In, IH. intuition auto.
Qed.

Lemma sortBy_length {A : Type} (cmp : A -> A -> Q) (l : list A) :
  List.length (sortBy cmp l) = List.length l.
Proof.
  induction l as [|a l IH]; simpl; [reflexivity|].
  rewrite insertBy_length. congruence.
Qed.

Lemma insertBy_descending (a : LeaderboardEntry.t) (l : list LeaderboardEntry.t) :
  descending l -> descending (insertBy byScoreDesc a l).
Proof.
  unfold descending.
  induction 1 as [|c l Hl IH Hc]; simpl.
  - repeat constructor.
  - destruct (byScoreDesc a c <=? 0) eqn:E; unfold byScoreDesc in E; qprop.
    + constructor; [constructor; assumption|].
      constructor; [lra|].
      rewrite Forall_forall in Hc |- *. intros b Hb.
      specialize (Hc b Hb). lra.
    + constructor; [assumption|].
      rewrite Forall_forall in Hc |- *. intros b Hb.
      apply insertBy_In in Hb. destruct Hb as [-> | Hb]; [lra | auto].
Qed.

Lemma sortBy_descending (l : list LeaderboardEntry.t) :
  descending (sortBy byScoreDesc l).
Proof.
  induction l as [|a l IH]; simpl.
  - constructor.
  - apply insertBy_descending, IH.
Qed.

Lemma firstn_In {A : Type} (n : nat) (a : A) (l : list A) :
  In a (firstn n l) -> In a l.
Proof.
  clear sin PI.
  revert n. induction l as [|b l IH]; intros [|n]; simpl; try tauto.
  intros [H | H]; [left; exact H | right; exact (IH n H)].
Qed.

Lemma firstn_descending (n : nat) (l : list LeaderboardEntry.t) :
  descending l -> descending (firstn n l).
Proof.
  unfold descending. intro H. revert n.
  induction H as [|c l Hl IH Hc]; intros [|n]; simpl; try constructor.
  - apply IH.
  - rewrite Forall_forall in Hc |- *. intros b Hb.
    apply Hc. apply (firstn_In n b l). exact Hb.
Qed.

Lemma insertBy_head (a : LeaderboardEntry.t) (l : list LeaderboardEntry.t) :
  (forall b, In b l -> LeaderboardEntry.score b <= LeaderboardEntry.score a) ->
  insertBy byScoreDesc a l = a :: l.
Proof.
  clear sin PI.
  destruct l as [|b l]; cbn [insertBy]; [reflexivity|].
  intro H. specialize (H b (or_introl eq_refl)).
  assert (E : (byScoreDesc a b <=? 0) = true)
    by (apply Qleb_le; unfold byScoreDesc; lra).
  rewrite E. reflexivity.
Qed.

(** *** The sort is stable: where the appended row lands *)

Lemma insertBy_Permutation {A : Type} (cmp : A -> A -> Q) (a : A) (l : list A) :
  Permutation (insertBy cmp a l) (a :: l).
Proof.
  clear sin PI.
  induction l as [|b l IH]; cbn [insertBy]; [reflexivity|].
  destruct (cmp a b <=? 0); [reflexivity|].
  etransitivity; [apply perm_skip; exact IH | apply perm_swap].
Qed.

Lemma sortBy_Permutation {A : Type} (cmp : A -> A -> Q) (l : list A) :
  Permutation (sortBy cmp l) l.
Proof.
  clear sin PI.
  induction l as [|a l IH]; cbn [sortBy fold_right]; [constructor|].
  fold (sortBy cmp l).
  etransitivity; [apply insertBy_Permutation | apply perm_skip; exact IH].
Qed.

Lemma filter_insertBy_length {A : Type} (keep : A -> bool) (cmp : A -> A -> Q) (a : A)
    (l : list A) :
  List.length (filter keep (insertBy cmp a l)) = List.length (filter keep (a :: l)).
Proof.
  clear sin PI.
  induction l as [|b l IH]; cbn [insertBy]; [reflexivity|].
  destruct (cmp a b <=? 0); [reflexivity|].
  cbn [filter] in *. destruct (keep b), (keep a); cbn [List.length] in *; lia.
Qed.

Lemma filter_sortBy_length {A : Type} (keep : A -> bool) (cmp : A -> A -> Q) (l : list A) :
  List.length (filter keep (sortBy cmp l)) = List.length (filter keep l).
Proof.
  clear sin PI.
  induction l as [|a l IH]; cbn [sortBy fold_right]; [reflexivity|].
  fold (sortBy cmp l). rewrite filter_insertBy_length.
  cbn [filter]. destruct (keep a); cbn [List.length]; lia.
Qed.

(** A row at least as good as the row after the block stops inside or
    right after the block. *)
Lemma insertBy_app_stop (a x : LeaderboardEntry.t) (block rest : list LeaderboardEntry.t) :
  (byScoreDesc a x <=? 0) = true ->
  insertBy byScoreDesc a (block ++ x :: rest) = insertBy byScoreDesc a block ++ x :: rest.
Proof.
  intro Hx. induction block as [|c block IH]; cbn [app insertBy].
  - rewrite Hx. reflexivity.
  - destruct (byScoreDesc a c <=? 0); [reflexivity|]. rewrite IH. reflexivity.
Qed.

(** A row worse than every row of the block passes the block. *)
Lemma insertBy_app_pass (a : LeaderboardEntry.t) (block rest : list LeaderboardEntry.t) :
  (forall c, In c block -> LeaderboardEntry.score a < LeaderboardEntry.score c) ->
  insertBy byScoreDesc a (block ++ rest) = block ++ insertBy byScoreDesc a rest.
Proof.
  clear sin PI.
  induction block as [|c block IH]; intro Hall; cbn [app insertBy]; [reflexivity|].
  assert (E : (byScoreDesc a c <=? 0) = false).
  { apply Qleb_gt. unfold byScoreDesc. specialize (Hall c (or_introl eq_refl)). lra. }
  rewrite E. rewrite IH; [reflexivity|]. intros d Hd. apply Hall. right. exact Hd.
Qed.

(** Filtering commutes with inserting into a sorted table. *)
Lemma filter_insertBy (keep : LeaderboardEntry.t -> bool) (a : LeaderboardEntry.t)
    (l : list LeaderboardEntry.t) :
  descending l ->
  filter keep (insertBy byScoreDesc a l)
  = if keep a then insertBy byScoreDesc a (filter keep l) else filter keep l.
Proof.
  clear sin PI.
  unfold descending. induction 1 as [|c l Hl IH Hc]; cbn [insertBy filter].
  - destruct (keep a); reflexivity.
  - rewrite Forall_forall in Hc.
    destruct (byScoreDesc a c <=? 0) eqn:E; cbn [filter].
    + unfold byScoreDesc in E. qprop.
      destruct (keep a) eqn:Ka; [|reflexivity].
      destruct (keep c) eqn:Kc.
      * cbn [insertBy].
        assert (E' : (byScoreDesc a c <=? 0) = true)
          by (apply Qleb_le; unfold byScoreDesc; lra).
        rewrite E'. reflexivity.
      * symmetry. apply insertBy_head. intros b Hb. apply filter_In in Hb.
        destruct Hb as [Hb _]. specialize (Hc b Hb). lra.
    + rewrite IH. destruct (keep c) eqn:Kc; [|reflexivity].
      destruct (keep a); [|reflexivity].
      cbn [insertBy]. rewrite E. reflexivity.
Qed.

(** [sort] is stable and the new row is the last of the array sorted: it
    lands below every row with an equal or higher score, above every row
    with a lower one. *)
Lemma sortBy_appended (row : LeaderboardEntry.t) (prev : list LeaderboardEntry.t) :
  sortBy byScoreDesc (prev ++ [row])
  = filter (fun r => LeaderboardEntry.score row <=? LeaderboardEntry.score r)
      (sortBy byScoreDesc prev)
    ++ row :: filter (fun r => LeaderboardEntry.score r <? LeaderboardEntry.score row)
                (sortBy byScoreDesc prev).
Proof.
  clear sin PI.
  induction prev as [|a prev IH]; [reflexivity|].
  cbn [app sortBy fold_right].
  fold (sortBy byScoreDesc (prev ++ [row])). fold (sortBy byScoreDesc prev).
  rewrite IH.
  rewrite !(filter_insertBy _ a (sortBy byScoreDesc prev) (sortBy_descending prev)).
  destruct (LeaderboardEntry.score row <=? LeaderboardEntry.score a) eqn:E.
  - assert (E' : (LeaderboardEntry.score a <? LeaderboardEntry.score row) = false)
      by (qprop; apply Qltb_ge; exact E).
    rewrite E'. apply insertBy_app_stop.
    qprop. apply Qleb_le. unfold byScoreDesc. lra.
  - assert (E' : (LeaderboardEntry.score a <? LeaderboardEntry.score row) = true)
      by (qprop; apply Qltb_lt; exact E).
    rewrite E'. qprop.
    rewrite insertBy_app_pass.
    + cbn [insertBy].
      assert (E2 : (byScoreDesc a row <=? 0) = false)
        by (apply Qleb_gt; unfold byScoreDesc; lra).
      rewrite E2. reflexivity.
    + intros c Hc. apply filter_In in Hc. destruct Hc as [_ Hc]. qprop. lra.
Qed.

(** The same for a table that is sorted already. *)
Lemma sortBy_app_last (row : LeaderboardEntry.t) (prev : list LeaderboardEntry.t) :
  descending prev ->
  sortBy byScoreDesc (prev ++ [row])
  = filter (fun r => LeaderboardEntry.score row <=? LeaderboardEntry.score r) prev
    ++ row :: filter (fun r => LeaderboardEntry.score r <? LeaderboardEntry.score row) prev.
Proof.
  clear sin PI.
  unfold descending. induction 1 as [|a l Hl IH Ha]; [reflexivity|].
  cbn [app sortBy fold_right filter]. fold (sortBy byScoreDesc (l ++ [row])).
  rewrite IH. rewrite Forall_forall in Ha.
  destruct (LeaderboardEntry.score row <=? LeaderboardEntry.score a) eqn:E.
  - assert (E' : (LeaderboardEntry.score a <? LeaderboardEntry.score row) = false)
      by (qprop; apply Qltb_ge; exact E).
    rewrite E'. cbn [app]. apply insertBy_head.
    qprop. intros b Hb. apply in_app_or in Hb. destruct Hb as [Hb | [<- | Hb]].
    + apply filter_In in Hb. apply Ha. tauto.
    + exact E.
    + apply filter_In in Hb. apply Ha. tauto.
  - assert (E' : (LeaderboardEntry.score a <? LeaderboardEntry.score row) = true)
      by (qprop; apply Qltb_lt; exact E).
    rewrite E'. qprop.
    assert (Hnone : filter (fun r => LeaderboardEntry.score row <=? LeaderboardEntry.score r) l
                    = []).
    { rewrite <- (filter_false l). apply filter_ext_in. intros b Hb.
      apply Qleb_gt. specialize (Ha b Hb). lra. }
    assert (Hall : filter (fun r => LeaderboardEntry.score r <? LeaderboardEntry.score row) l
                   = l).
    { apply forallb_filter_id. apply forallb_forall. intros b Hb.
      apply Qltb_lt. specialize (Ha b Hb). lra. }
    rewrite Hnone, Hall. cbn [app insertBy].
    assert (E2 : (byScoreDesc a row <=? 0) = false)
      by (apply Qleb_gt; unfold byScoreDesc; lra).
    rewrite E2. f_equal. apply insertBy_head. exact Ha.
Qed.

Lemma descending_split (l1 l2 : list LeaderboardEntry.t) :
  descending (l1 ++ l2) ->
  forall a b, In a l1 -> In b l2 -> LeaderboardEntry.score b <= LeaderboardEntry.score a.
Proof.
  clear sin PI.
  unfold descending. induction l1 as [|c l1 IH]; cbn [app]; intros H a b Ha Hb;
    [contradiction|].
  inversion H as [|? ? Hs Hf]; subst.
  destruct Ha as [<- | Ha].
  - rewrite Forall_forall in Hf. apply Hf. apply in_or_app. right. exact Hb.
  - exact (IH Hs a b Ha Hb).
Qed.

Lemma nth_error_firstn_block {A : Type} (n : nat) (block : list A) (x : A) (rest : list A) :
  (List.length block < n)%nat ->
  nth_error (firstn n (block ++ x :: rest)) (List.length block) = Some x.
Proof.
  clear sin PI.
  revert n. induction block as [|c block IH]; intros [|n] Hn; cbn in *; try lia.
  - reflexivity.
  - apply IH. lia.
Qed.

(** C10. Saving with an empty handle files the run under the name Anonymous.
    For any handle and score the new table is the old one plus the new row,
    sorted by score from high to low and cut to the five best, so its length
    is min(previous length + 1, 5); the same table goes to local storage.
    The row is recorded whenever it ranks among the first five, in a full
    table too: with [rank] previous rows of an equal or higher score it is
    row number [rank] (from 0) of the new table when [rank < 5], and it is
    left out when five previous rows are at least as good.  The rows of the
    new table together with the rows dropped are the old rows and the new
    one, and no dropped row beats a row kept.  A table that was sorted
    keeps the order of its rows. *)
Theorem saveScore_table (playerName : string) (score : Q) (env : Env.t) (g : Game.t) :
  let prev := Game.leaderboard g in
  let row := LeaderboardEntry.mk (nameOrAnonymous playerName) score (Env.dateNow env) in
  let next := Game.leaderboard (saveScore playerName score env g) in
  let rank := List.length (filter (fun r => score <=? LeaderboardEntry.score r) prev) in
  List.length next = Nat.min (List.length prev + 1) 5
  /\ descending next
  /\ Game.storedLeaderboard (saveScore playerName score env g) = Some next
  /\ (forall r, In r next -> In r prev \/ r = row)
  /\ ((List.length prev < 5)%nat -> In row next)
  /\ ((rank < 5)%nat -> nth_error next rank = Some row)
  /\ ((5 <= rank)%nat ->
      forall r, In r next -> In r prev /\ score <= LeaderboardEntry.score r)
  /\ (exists dropped,
        Permutation (next ++ dropped) (prev ++ [row])
        /\ forall r r', In r dropped -> In r' next ->
             LeaderboardEntry.score r <= LeaderboardEntry.score r')
  /\ (descending prev ->
      next
      = firstn 5
          (filter (fun r => score <=? LeaderboardEntry.score r) prev
           ++ row :: filter (fun r => LeaderboardEntry.score r <? score) prev))
  /\ (playerName = ""%string -> nameOrAnonymous playerName = "Anonymous"%string)
  /\ (playerName <> ""%string -> nameOrAnonymous playerName = playerName).
Proof.
  clear sin PI.
  cbn zeta. unfold saveScore, nextLeaderboard, MAX_LEADERS.
  cbn [Game.leaderboard Game.with_storedLeaderboard Game.with_leaderboard
       Game.storedLeaderboard].
  set (row := LeaderboardEntry.mk (nameOrAnonymous playerName) score (Env.dateNow env)).
  set (prev := Game.leaderboard g).
  pose proof (sortBy_appended row prev) as Hsort.
  change (LeaderboardEntry.score row) with score in Hsort.
  pose proof (filter_sortBy_length (fun r => score <=? LeaderboardEntry.score r)
                byScoreDesc prev) as Hrank.
  split; [|split; [|split; [|split; [|split; [|split; [|split; [|split; [|split; [|split]]]]]]]]].
  - rewrite length_firstn, sortBy_length, length_app. cbn [List.length]. lia.
  - apply firstn_descending, sortBy_descending.
  - reflexivity.
  - intros r Hr. apply firstn_In in Hr.
    apply sortBy_In in Hr. apply in_app_or in Hr.
    destruct Hr as [H | [H | []]]; auto.
  - intro Hlen. rewrite firstn_all2.
    + apply sortBy_In, in_or_app. right. left. reflexivity.
    + rewrite sortBy_length, length_app. simpl. lia.
  - intro Hlt. rewrite Hsort, <- Hrank.
    apply nth_error_firstn_block. rewrite Hrank. exact Hlt.
  - intros Hge r Hr. rewrite Hsort in Hr.
    rewrite firstn_app in Hr.
    replace (5 - _)%nat with 0%nat in Hr by (rewrite Hrank; lia).
    rewrite firstn_O, app_nil_r in Hr.
    apply firstn_In in Hr. apply filter_In in Hr. destruct Hr as [Hin Hs].
    split; [apply sortBy_In in Hin; exact Hin | qprop; exact Hs].
  - exists (skipn 5 (sortBy byScoreDesc (prev ++ [row]))). split.
    + rewrite firstn_skipn. apply sortBy_Permutation.
    + intros r r' Hr Hr'.
      apply (descending_split (firstn 5 (sortBy byScoreDesc (prev ++ [row])))
               (skipn 5 (sortBy byScoreDesc (prev ++ [row])))); [|exact Hr'|exact Hr].
      rewrite firstn_skipn. apply sortBy_descending.
  - intro Hdesc. pose proof (sortBy_app_last row prev Hdesc) as Hsorted.
    change (LeaderboardEntry.score row) with score in Hsorted.
    rewrite Hsorted. reflexivity.
  - intros ->. reflexivity.
  - intro Hne. unfold nameOrAnonymous.
    destruct (String.eqb_spec playerName ""); [contradiction | reflexivity].
Qed.

Lemma saveScore_table_witness :
  nth_error
    (Game.leaderboard
       (saveScore "" 1000 (envAt 0) (Game.with_leaderboard fullTable (mount None None))))
    0
  = Some (LeaderboardEntry.mk "Anonymous" 1000 0%Z).
Proof.
  assert (Hrank : (List.length
                     (filter (fun r => (1000 <=? LeaderboardEntry.score r)%Q)
                        (Game.leaderboard
                           (Game.with_leaderboard fullTable (mount None None)))) < 5)%nat)
    by (vm_compute; lia).
  exact (proj1 (proj2 (proj2 (proj2 (proj2 (proj2
           (saveScore_table "" 1000 (envAt 0)
              (Game.with_leaderboard fullTable (mount None None)))))))) Hrank).
Defined.

(** ** The collision callback, case by case *)

Lemma EntityType_eqb_eq (a b : EntityType) : EntityType_eqb a b = true <-> a = b.
Proof. destruct a, b; simpl; split; congruence. Qed.

Lemma EntityType_eqb_neq (a b : EntityType) : EntityType_eqb a b = false <-> a <> b.
Proof. destruct a, b; simpl; split; congruence. Qed.

Lemma GameStatus_eqb_eq (a b : GameStatus) : GameStatus_eqb a b = true <-> a = b.
Proof. destruct a, b; simpl; split; congruence. Qed.

Lemma GameStatus_eqb_neq (a b : GameStatus) : GameStatus_eqb a b = false <-> a <> b.
Proof. destruct a, b; simpl; split; congruence. Qed.

Lemma onEntity_cases (audio : option AudioHandles.t) (frame : Z) (timeNow : Q)
    (w : World.t) (log : list Tone.t) (entity : Entity.t) :
  let st' := onEntity audio frame timeNow (w, log) entity in
  (collides frame (World.player w) entity = false /\ st' = (w, log))
  \/ (collides frame (World.player w) entity = true
      /\ Entity.type entity = data
      /\ st' = (collected entity w, playTone audio 880 0.16 square log))
  \/ (collides frame (World.player w) entity = true
      /\ Entity.type entity <> data
      /\ timeNow < Player.invulnerableUntil (World.player w)
      /\ st' = (w, log))
  \/ (collides frame (World.player w) entity = true
      /\ Entity.type entity <> data
      /\ Player.invulnerableUntil (World.player w) <= timeNow
      /\ (0 < Player.shieldCharges (World.player w))%Z
      /\ st' = (absorbed timeNow entity w, playTone audio 160 0.3 sawtooth log))
  \/ (collides frame (World.player w) entity = true
      /\ Entity.type entity <> data
      /\ Player.invulnerableUntil (World.player w) <= timeNow
      /\ (Player.shieldCharges (World.player w) <= 0)%Z
      /\ st' = (World.with_status over w, log)).
Proof.
  cbn zeta. unfold onEntity.
  destruct (collides frame (World.player w) entity) eqn:Hc; cbn [negb]; [|auto].
  right.
  destruct (EntityType_eqb (Entity.type entity) data) eqn:Ht.
  { apply EntityType_eqb_eq in Ht. left. auto. }
  apply EntityType_eqb_neq in Ht. right.
  destruct (timeNow <? Player.invulnerableUntil (World.player w)) eqn:Hi; qprop.
  { left. auto. }
  right.
  destruct (0 <? Player.shieldCharges (World.player w))%Z eqn:Hs.
  - apply Z.ltb_lt in Hs. left. auto.
  - apply Z.ltb_ge in Hs. right. auto.
Qed.

Lemma without_In (entity a : Entity.t) (l : list Entity.t) :
  In a (without entity l) <-> In a l /\ Entity.id a <> Entity.id entity.
Proof.
  clear sin PI.
  unfold without. rewrite filter_In, negb_true_iff, Z.eqb_neq. tauto.
Qed.

Lemma NoDup_map_In_eq {A B : Type} (f : A -> B) (l : list A) (a b : A) :
  NoDup (map f l) -> In a l -> In b l -> f a = f b -> a = b.
Proof.
  clear sin PI.
  induction l as [|c l IH]; simpl; [tauto|].
  intros Hnd Ha Hb Hf. inversion Hnd as [|? ? Hnotin Hnd']; subst.
  destruct Ha as [-> | Ha], Hb as [-> | Hb]; auto.
  - exfalso. apply Hnotin. rewrite Hf. apply in_map. exact Hb.
  - exfalso. apply Hnotin. rewrite <- Hf. apply in_map. exact Ha.
Qed.

(** ** Hazards during the invulnerability window *)

(** While the clock is inside the invulnerability window, a whole collision
    pass over any array leaves the player and the status as they were, and
    keeps every entity whose identifier no data packet of the array has. *)
Lemma pass_while_invulnerable (audio : option AudioHandles.t) (frame : Z) (timeNow : Q)
    (l : list Entity.t) :
  forall st : World.t * list Tone.t,
    timeNow < Player.invulnerableUntil (World.player (fst st)) ->
    let st' := fold_left (onEntity audio frame timeNow) l st in
    World.player (fst st') = World.player (fst st)
    /\ World.status (fst st') = World.status (fst st)
    /\ (forall a, In a (World.entities (fst st)) ->
          (forall d, In d l -> Entity.type d = data -> Entity.id a <> Entity.id d) ->
          In a (World.entities (fst st'))).
Proof.
  induction l as [|e l IH]; intros [w log] Hinv; cbn zeta; cbn [fold_left fst].
  - auto.
  - cbn [fst] in Hinv.
    destruct (onEntity_cases audio frame timeNow w log e)
      as [(_ & ->) | [(_ & Hd & ->) | [(_ & _ & _ & ->) | [(_ & _ & Hle & _) | (_ & _ & Hle & _)]]]];
      try (exfalso; lra).
    + destruct (IH (w, log) Hinv) as (Hp & Hs & He).
      repeat split; auto.
      intros a Ha Hids. apply He; [exact Ha|].
      intros d Hd. apply Hids. right. exact Hd.
    + destruct (IH (collected e w, playTone audio 880 0.16 square log) Hinv)
        as (Hp & Hs & He).
      cbn [fst] in *. repeat split; auto.
      intros a Ha Hids. apply He.
      * cbn. apply without_In. split; [exact Ha|].
        apply Hids; [left; reflexivity | exact Hd].
      * intros d Hd'. apply Hids. right. exact Hd'.
    + destruct (IH (w, log) Hinv) as (Hp & Hs & He).
      repeat split; auto.
      intros a Ha Hids. apply He; [exact Ha|].
      intros d Hd. apply Hids. right. exact Hd.
Qed.

(** C2. A hazard that overlaps the player while the clock is inside the
    invulnerability window leaves the run exactly as it was: the callback
    returns the state it was given (charges, expiry, entity array, status,
    tone log).  Over the whole collision pass of such a tick the player and
    the status stay as they were, and with identifiers all distinct the
    hazard is still in the entity array when the pass ends. *)
Theorem hazard_ignored_while_invulnerable (audio : option AudioHandles.t) (frame : Z)
    (timeNow : Q) (w : World.t) (log : list Tone.t) (entity : Entity.t) :
  Entity.type entity <> data ->
  collides frame (World.player w) entity = true ->
  timeNow < Player.invulnerableUntil (World.player w) ->
  onEntity audio frame timeNow (w, log) entity = (w, log)
  /\ (let st' := resolveCollisions audio frame timeNow (w, log) in
      World.player (fst st') = World.player w
      /\ World.status (fst st') = World.status w
      /\ (In entity (World.entities w) ->
          NoDup (map Entity.id (World.entities w)) ->
          In entity (World.entities (fst st')))).
Proof.
  intros Ht Hc Hinv. split.
  - destruct (onEntity_cases audio frame timeNow w log entity)
      as [(_ & H) | [(_ & Hd & _) | [(_ & _ & _ & H) | [(_ & _ & Hle & _) | (_ & _ & Hle & _)]]]];
      try assumption; try contradiction; exfalso; lra.
  - cbn zeta. unfold resolveCollisions. cbn [fst].
    destruct (pass_while_invulnerable audio frame timeNow (World.entities w) (w, log) Hinv)
      as (Hp & Hs & He).
    cbn [fst] in *. repeat split; auto.
    intros Hin Hnd. apply He; [exact Hin|].
    intros d Hd Hdata Hid.
    assert (entity = d) by (eapply NoDup_map_In_eq; eauto).
    subst d. contradiction.
Qed.

(** ** The input flags are only read by the steering and jump blocks *)

Lemma steer_onGround (u : UpgradeState.t) (i : Inputs.t) (d : Q) (p : Player.t) :
  Player.onGround (steer u i d p) = Player.onGround p.
Proof.
  unfold steer. cbn zeta.
  repeat match goal with
  | |- context [if ?c then _ else _] => destruct c
  end; reflexivity.
Qed.

Lemma spawnDue_inputs (timestamp : Q) (env : Env.t) (lvl : LevelConfig.t)
    (i : Inputs.t) (w : World.t) (c : Z) :
  spawnDue timestamp env lvl (World.with_inputs i w, c)
  = (World.with_inputs i (fst (spawnDue timestamp env lvl (w, c))),
     snd (spawnDue timestamp env lvl (w, c))).
Proof.
  unfold spawnDue, push. cbn.
  repeat match goal with
  | |- context [if ?c then _ else _] => destruct c; cbn
  end; reflexivity.
Qed.

Lemma onEntity_inputs (audio : option AudioHandles.t) (frame : Z) (timeNow : Q)
    (i : Inputs.t) (w : World.t) (log : list Tone.t) (e : Entity.t) :
  onEntity audio frame timeNow (World.with_inputs i w, log) e
  = (World.with_inputs i (fst (onEntity audio frame timeNow (w, log) e)),
     snd (onEntity audio frame timeNow (w, log) e)).
Proof.
  unfold onEntity. cbn.
  repeat match goal with
  | |- context [if ?c then _ else _] => destruct c; cbn
  end; reflexivity.
Qed.

Lemma pass_inputs (audio : option AudioHandles.t) (frame : Z) (timeNow : Q)
    (i : Inputs.t) (l : list Entity.t) :
  forall (w : World.t) (log : list Tone.t),
    fold_left (onEntity audio frame timeNow) l (World.with_inputs i w, log)
    = (World.with_inputs i (fst (fold_left (onEntity audio frame timeNow) l (w, log))),
       snd (fold_left (onEntity audio frame timeNow) l (w, log))).
Proof.
  induction l as [|e l IH]; intros w log; cbn [fold_left]; [reflexivity|].
  rewrite onEntity_inputs.
  destruct (onEntity audio frame timeNow (w, log) e) as [w1 log1]. cbn [fst snd].
  apply IH.
Qed.

(** ** One tick of a running world *)

Lemma renderFrame_running (playerName : string) (timestamp : Q) (env : Env.t)
    (g : Game.t) (w : World.t) :
  Game.worldRef g = Some w ->
  World.status w = running ->
  renderFrame playerName timestamp env g
  = conclude playerName env (tickWorld timestamp env g w)
      (updateHud (hudOf (getLevel (World.score w)) (tickWorld timestamp env g w))
         (Game.with_tones (snd (tickState timestamp env g w))
            (Game.with_uniqueId (snd (simulate timestamp env g w))
               (Game.with_frameRef (Game.frameRef g + 1)%Z g)))).
Proof.
  intros Hw Hs. unfold renderFrame, tickWorld, tickState. rewrite Hw, Hs. cbn [GameStatus_eqb negb].
  destruct (simulate timestamp env g w) as [[w1 log1] c1]. cbn [fst snd].
  destruct (resolveCollisions (Game.audioRef g) (Game.frameRef g + 1)%Z (Env.perfNow env) (w1, log1))
    as [w2 log2].
  reflexivity.
Qed.

Lemma renderFrame_not_running (playerName : string) (timestamp : Q) (env : Env.t)
    (g : Game.t) :
  (forall w, Game.worldRef g = Some w -> World.status w <> running) ->
  renderFrame playerName timestamp env g = g.
Proof.
  intro H. unfold renderFrame.
  destruct (Game.worldRef g) as [w|]; [|reflexivity].
  specialize (H w eq_refl).
  destruct (World.status w); try reflexivity. congruence.
Qed.


(** [simulate] as a composition of its blocks. *)
Lemma simulate_eq (timestamp : Q) (env : Env.t) (g : Game.t) (w : World.t) :
  let deltaScale := (timestamp - World.lastFrame w) / (1000 / 60) in
  let lvl := getLevel (World.score w) in
  let up := Game.upgradesRef g in
  let jumped :=
    jump up (Game.audioRef g)
      (move up deltaScale
         (World.with_level (LevelConfig.level lvl) (World.with_lastFrame timestamp w)),
       Game.tones g) in
  let spawned := spawnDue timestamp env lvl (land deltaScale (fst jumped), Game.uniqueId g) in
  simulate timestamp env g w
  = (scroll up lvl deltaScale (Game.frameRef g + 1)%Z (fst spawned), snd jumped, snd spawned).
Proof.
  cbn zeta. unfold simulate. cbn [World.lastFrame World.score World.with_lastFrame].
  destruct (jump _ _ _) as [w1 log1]. cbn [fst snd].
  destruct (spawnDue _ _ _ _) as [w2 c2]. reflexivity.
Qed.

Lemma jump_airborne (u : UpgradeState.t) (audio : option AudioHandles.t)
    (w : World.t) (log : list Tone.t) :
  Player.onGround (World.player w) = false -> jump u audio (w, log) = (w, log).
Proof.
  intro H. unfold jump. rewrite H, andb_false_r. reflexivity.
Qed.

Lemma land_inputs (d : Q) (i : Inputs.t) (w : World.t) :
  land d (World.with_inputs i w) = World.with_inputs i (land d w).
Proof. reflexivity. Qed.

Lemma simulate_jumpQueued (timestamp : Q) (env : Env.t) (g : Game.t) (w : World.t)
    (q : bool) :
  Player.onGround (World.player w) = false ->
  simulate timestamp env g
    (World.with_inputs (Inputs.with_jumpQueued q (World.inputs w)) w)
  = (World.with_inputs (Inputs.with_jumpQueued q (World.inputs w))
       (fst (fst (simulate timestamp env g w))),
     snd (fst (simulate timestamp env g w)),
     snd (simulate timestamp env g w)).
Proof.
  intro Hair.
  set (i := Inputs.with_jumpQueued q (World.inputs w)).
  rewrite !simulate_eq.
  change (World.lastFrame (World.with_inputs i w)) with (World.lastFrame w).
  change (World.score (World.with_inputs i w)) with (World.score w).
  cbn [fst snd].
  set (d := (timestamp - World.lastFrame w) / (1000 / 60)).
  set (lvl := getLevel (World.score w)).
  set (w0 := World.with_level (LevelConfig.level lvl) (World.with_lastFrame timestamp w)).
  change (move (Game.upgradesRef g) d
            (World.with_level (LevelConfig.level lvl)
               (World.with_lastFrame timestamp (World.with_inputs i w))))
    with (World.with_inputs i (move (Game.upgradesRef g) d w0)).
  assert (Hair0 : Player.onGround (World.player (move (Game.upgradesRef g) d w0)) = false).
  { unfold move. cbn [World.player World.with_player]. rewrite steer_onGround. exact Hair. }
  rewrite !jump_airborne by exact Hair0.
  cbn [fst snd].
  rewrite land_inputs, spawnDue_inputs. cbn [fst snd].
  reflexivity.
Qed.

Lemma tickState_jumpQueued (timestamp : Q) (env : Env.t) (g : Game.t) (w : World.t)
    (q : bool) :
  Player.onGround (World.player w) = false ->
  tickState timestamp env g
    (World.with_inputs (Inputs.with_jumpQueued q (World.inputs w)) w)
  = (World.with_inputs (Inputs.with_jumpQueued q (World.inputs w))
       (fst (tickState timestamp env g w)),
     snd (tickState timestamp env g w)).
Proof.
  intro Hair. unfold tickState. cbn zeta.
  rewrite simulate_jumpQueued by exact Hair.
  destruct (simulate timestamp env g w) as [[w1 log1] c1]. cbn [fst snd].
  unfold resolveCollisions. cbn [fst].
  change (World.entities (World.with_inputs (Inputs.with_jumpQueued q (World.inputs w)) w1))
    with (World.entities w1).
  apply pass_inputs.
Qed.

Lemma conclude_inputs (playerName : string) (env : Env.t) (i : Inputs.t)
    (w0 : option World.t) (w : World.t) (lvl : LevelConfig.t) (g : Game.t) :
  conclude playerName env (World.with_inputs i w)
    (updateHud (hudOf lvl (World.with_inputs i w)) (Game.with_worldRef w0 g))
  = onWorld (World.with_inputs i)
      (conclude playerName env w (updateHud (hudOf lvl w) g)).
Proof.
  unfold conclude, stopAudio, onWorld, saveScore, updateHud.
  cbn [World.status World.with_inputs].
  destruct (GameStatus_eqb (World.status w) running); [reflexivity|].
  destruct (GameStatus_eqb (World.status w) over); [|reflexivity].
  cbn. destruct (Game.audioRef g); reflexivity.
Qed.

(** C5. A jump request is honoured only on the ground.  While the player is
    airborne the jump block returns the state it was given, so the vertical
    velocity that gravity is then added to is the old one, and a whole tick
    computes the same world, HUD, leaderboard and tone log whether or not a
    jump is queued (the flag itself just stays as it is).  The block changes
    anything only when the player is grounded and a jump is queued: then the
    vertical velocity becomes -(12 + 1.8 * jump level), the ground flag is
    cleared and the request is consumed. *)
Theorem jump_only_when_grounded (upgradeSnapshot : UpgradeState.t)
    (audio : option AudioHandles.t) (w : World.t) (log : list Tone.t) :
  let st' := jump upgradeSnapshot audio (w, log) in
  (Player.onGround (World.player w) = false ->
   st' = (w, log)
   /\ (forall deltaScale,
         let p' := World.player (land deltaScale (fst st')) in
         Player.vy p' = Player.vy (World.player w) + GRAVITY * deltaScale
         \/ (Player.vy p' = 0 /\ Player.onGround p' = true))
   /\ (forall playerName timestamp env g q,
         Game.worldRef g = Some w ->
         renderFrame playerName timestamp env
           (onWorld (World.with_inputs (Inputs.with_jumpQueued q (World.inputs w))) g)
         = onWorld (World.with_inputs (Inputs.with_jumpQueued q (World.inputs w)))
             (renderFrame playerName timestamp env g)))
  /\ (st' <> (w, log) ->
      Player.onGround (World.player w) = true
      /\ Inputs.jumpQueued (World.inputs w) = true)
  /\ (Player.onGround (World.player w) = true ->
      Inputs.jumpQueued (World.inputs w) = true ->
      Player.vy (World.player (fst st'))
      = - (12 + inject_Z (UpgradeState.jump upgradeSnapshot) * 1.8)
      /\ Player.onGround (World.player (fst st')) = false
      /\ Inputs.jumpQueued (World.inputs (fst st')) = false).
Proof.
  cbn zeta. repeat split.
  - apply jump_airborne. assumption.
  - rewrite jump_airborne by assumption. intro deltaScale.
    unfold land, fall. cbn.
    match goal with |- context [if ?c then _ else _] => destruct c end; cbn; auto.
  - intros playerName timestamp env g q Hw.
    set (i := Inputs.with_jumpQueued q (World.inputs w)).
    unfold onWorld at 1. rewrite Hw.
    destruct (GameStatus_eqb (World.status w) running) eqn:Hs.
    + apply GameStatus_eqb_eq in Hs.
      rewrite (renderFrame_running playerName timestamp env _ (World.with_inputs i w))
        by (reflexivity || exact Hs).
      rewrite (renderFrame_running playerName timestamp env g w Hw Hs).
      unfold tickWorld.
      change (tickState timestamp env (Game.with_worldRef (Some (World.with_inputs i w)) g))
        with (tickState timestamp env g).
      change (simulate timestamp env (Game.with_worldRef (Some (World.with_inputs i w)) g))
        with (simulate timestamp env g).
      unfold i. rewrite tickState_jumpQueued by assumption.
      rewrite simulate_jumpQueued by assumption.
      cbn [fst snd]. fold i.
      change (World.lastFrame (World.with_inputs i w)) with (World.lastFrame w).
      change (World.score (World.with_inputs i w)) with (World.score w).
      set (lvl := getLevel (World.score w)).
      set (W := fst (tickState timestamp env g w)).
      change (accrue (timestamp - World.lastFrame w) lvl (World.with_inputs i W))
        with (World.with_inputs i (accrue (timestamp - World.lastFrame w) lvl W)).
      match goal with
      | |- conclude _ _ _ (updateHud ?h ?G) = _ =>
          change G with
            (Game.with_worldRef (Some (World.with_inputs i w))
               (Game.with_tones (snd (tickState timestamp env g w))
                  (Game.with_uniqueId (snd (simulate timestamp env g w))
                     (Game.with_frameRef (Game.frameRef g + 1)%Z g))))
      end.
      rewrite conclude_inputs. reflexivity.
    + apply GameStatus_eqb_neq in Hs.
      rewrite !renderFrame_not_running.
      * unfold onWorld. rewrite Hw. reflexivity.
      * intros w' Hw'. rewrite Hw in Hw'. injection Hw' as <-. exact Hs.
      * intros w' Hw'. cbn in Hw'. injection Hw' as <-. exact Hs.
  - unfold jump in H.
    destruct (Player.onGround (World.player w)); [reflexivity|].
    rewrite andb_false_r in H. congruence.
  - unfold jump in H.
    destruct (Inputs.jumpQueued (World.inputs w)); [reflexivity|].
    cbn in H. congruence.
  - unfold jump. rewrite H, H0. reflexivity.
  - unfold jump. rewrite H, H0. reflexivity.
  - unfold jump. rewrite H, H0. reflexivity.
Qed.

(** ** What the blocks before the collision pass leave alone *)

Lemma steer_frame (u : UpgradeState.t) (i : Inputs.t) (d : Q) (p : Player.t) :
  Player.shieldCharges (steer u i d p) = Player.shieldCharges p
  /\ Player.invulnerableUntil (steer u i d p) = Player.invulnerableUntil p.
Proof.
  unfold steer. cbn zeta.
  repeat match goal with
  | |- context [if ?c then _ else _] => destruct c
  end; split; reflexivity.
Qed.

Lemma fall_frame (d : Q) (p : Player.t) :
  Player.shieldCharges (fall d p) = Player.shieldCharges p
  /\ Player.invulnerableUntil (fall d p) = Player.invulnerableUntil p.
Proof.
  unfold fall. cbn zeta.
  match goal with |- context [if ?c then _ else _] => destruct c end;
    split; reflexivity.
Qed.

Lemma jump_frame (u : UpgradeState.t) (audio : option AudioHandles.t)
    (w : World.t) (log : list Tone.t) :
  let w' := fst (jump u audio (w, log)) in
  World.status w' = World.status w
  /\ World.entities w' = World.entities w
  /\ World.lastSpawn w' = World.lastSpawn w
  /\ World.score w' = World.score w
  /\ World.upgradePoints w' = World.upgradePoints w
  /\ Player.shieldCharges (World.player w') = Player.shieldCharges (World.player w)
  /\ Player.invulnerableUntil (World.player w')
     = Player.invulnerableUntil (World.player w).
Proof.
  unfold jump.
  destruct (Inputs.jumpQueued (World.inputs w) && Player.onGround (World.player w));
    cbn; repeat split; reflexivity.
Qed.

(** The spawn block appends at most three entities, whose identifiers are
    the next values of the counter, and resets timers; nothing else. *)
Lemma spawnDue_spec (timestamp : Q) (env : Env.t) (lvl : LevelConfig.t)
    (w : World.t) (c : Z) :
  exists (added : list Entity.t) (ls : LastSpawn.t),
    fst (spawnDue timestamp env lvl (w, c))
    = World.with_lastSpawn ls (World.with_entities (World.entities w ++ added) w)
    /\ NoDup (map Entity.id added)
    /\ (forall e, In e added ->
          (c < Entity.id e <= snd (spawnDue timestamp env lvl (w, c)))%Z)
    /\ (c <= snd (spawnDue timestamp env lvl (w, c)))%Z.
Proof.
  clear sin.
  unfold spawnDue, spawnFirewall, spawnVirus, spawnDataPacket, push, createUniqueId.
  cbn.
  repeat match goal with
  | |- context [if ?b then (_, _) else _] => destruct b; cbn
  end.
  all: try (exists []; exists (World.lastSpawn w); split;
            [ rewrite app_nil_r; destruct w; reflexivity
            | split; [ constructor | split; [ intros e [] | lia ] ] ]).
  all: rewrite <- ?app_assoc; cbn [app].
  all: match goal with
       | |- context [World.with_entities (_ ++ ?l)] => exists l
       end.
  all: eexists; split; [reflexivity|].
  all: split; [ repeat constructor; cbn; intuition lia |].
  all: split; [ cbn; intros e He; intuition (subst; cbn; lia) | lia ].
Qed.

(** ** The collision pass *)

Lemma collides_box (frame : Z) (p p' : Player.t) (e : Entity.t) :
  Player.x p' = Player.x p -> Player.y p' = Player.y p ->
  Player.width p' = Player.width p -> Player.height p' = Player.height p ->
  collides frame p' e = collides frame p e.
Proof.
  intros Hx Hy Hw Hh. unfold collides. rewrite Hx, Hy, Hw, Hh. reflexivity.
Qed.

Lemma onEntity_collides (audio : option AudioHandles.t) (frame : Z) (timeNow : Q)
    (w : World.t) (log : list Tone.t) (e e' : Entity.t) :
  collides frame (World.player (fst (onEntity audio frame timeNow (w, log) e))) e'
  = collides frame (World.player w) e'.
Proof.
  destruct (onEntity_cases audio frame timeNow w log e)
    as [(_ & ->) | [(_ & _ & ->) | [(_ & _ & _ & ->) | [(_ & _ & _ & _ & ->) | (_ & _ & _ & _ & ->)]]]];
    reflexivity.
Qed.

Lemma count_cons {A : Type} (a : A) (l : list A) : count (a :: l) == count l + 1.
Proof.
  unfold count. cbn [List.length]. rewrite Nat2Z.inj_succ, <- Z.add_1_r, inject_Z_plus.
  reflexivity.
Qed.

(** Every data packet of the walked array that overlaps the player adds 120
    to the score and 1 to the upgrade points, once per element; whatever is
    left in the entity array afterwards was there before and carries the
    identifier of no packet picked up. *)
Lemma pass_account (audio : option AudioHandles.t) (frame : Z) (timeNow : Q)
    (l : list Entity.t) :
  forall (w : World.t) (log : list Tone.t),
    let st' := fold_left (onEntity audio frame timeNow) l (w, log) in
    let got := filter (picks frame (World.player w)) l in
    World.score (fst st') == World.score w + 120 * count got
    /\ World.upgradePoints (fst st')
       = (World.upgradePoints w + Z.of_nat (List.length got))%Z
    /\ (forall a, In a (World.entities (fst st')) ->
          In a (World.entities w)
          /\ forall e, In e got -> Entity.id a <> Entity.id e).
Proof.
  clear PI.
  induction l as [|e l IH]; intros w log; cbn zeta.
  - cbn [fold_left filter fst List.length]. repeat split; try tauto.
    + unfold count. cbn [List.length Z.of_nat]. change (inject_Z 0) with 0. lra.
    + cbn [Z.of_nat]. lia.
  - cbn [fold_left filter].
    pose proof (onEntity_collides audio frame timeNow w log e) as Hbox.
    assert (Hgot : filter (picks frame (World.player
                     (fst (onEntity audio frame timeNow (w, log) e)))) l
                   = filter (picks frame (World.player w)) l).
    { apply filter_ext. intro a. unfold picks. rewrite Hbox. reflexivity. }
    destruct (onEntity audio frame timeNow (w, log) e) as [w1 log1] eqn:E.
    specialize (IH w1 log1). cbn zeta in IH. cbn [fst] in Hgot. rewrite Hgot in IH.
    destruct IH as (Hscore & Hpts & Hents).
    unfold picks at 1 4 7.
    pose proof (onEntity_cases audio frame timeNow w log e) as Hcases.
    cbn zeta in Hcases. rewrite E in Hcases.
    destruct Hcases
      as [(Hc & Hst) | [(Hc & Ht & Hst) | [(Hc & Ht & _ & Hst) | [(Hc & Ht & _ & _ & Hst) | (Hc & Ht & _ & _ & Hst)]]]];
      injection Hst as -> ->; rewrite Hc; cbn [andb].
    + repeat split; auto; apply Hents; auto.
    + rewrite Ht. cbn [EntityType_eqb].
      repeat split.
      * rewrite Hscore, count_cons. cbn. lra.
      * rewrite Hpts. cbn [List.length World.upgradePoints collected World.with_upgradePoints]. lia.
      * apply Hents in H. destruct H as [Hin _]. cbn in Hin.
        apply without_In in Hin. tauto.
      * intros e0 [<- | He0].
        -- apply Hents in H. destruct H as [Hin _]. cbn in Hin.
           apply without_In in Hin. tauto.
        -- apply Hents in H. destruct H as [_ Hne]. auto.
    + apply EntityType_eqb_neq in Ht. rewrite Ht.
      repeat split; auto; apply Hents; auto.
    + apply EntityType_eqb_neq in Ht. rewrite Ht.
      repeat split; auto.
      * apply Hents in H. destruct H as [Hin _]. cbn in Hin.
        apply without_In in Hin. tauto.
      * apply Hents; auto.
    + apply EntityType_eqb_neq in Ht. rewrite Ht.
      repeat split; auto; apply Hents; auto.
Qed.

Lemma pass_shieldCharges (audio : option AudioHandles.t) (frame : Z) (timeNow : Q)
    (l : list Entity.t) :
  forall (w : World.t) (log : list Tone.t),
    (0 <= Player.shieldCharges (World.player w))%Z ->
    (0 <= Player.shieldCharges
            (World.player (fst (fold_left (onEntity audio frame timeNow) l (w, log)))))%Z.
Proof.
  induction l as [|e l IH]; intros w log Hsc; cbn [fold_left fst]; [exact Hsc|].
  destruct (onEntity_cases audio frame timeNow w log e)
    as [(_ & ->) | [(_ & _ & ->) | [(_ & _ & _ & ->) | [(_ & _ & _ & Hpos & ->) | (_ & _ & _ & _ & ->)]]]];
    apply IH; cbn; lia.
Qed.

Lemma pass_over_stays (audio : option AudioHandles.t) (frame : Z) (timeNow : Q)
    (l : list Entity.t) :
  forall (w : World.t) (log : list Tone.t),
    World.status w = over ->
    World.status (fst (fold_left (onEntity audio frame timeNow) l (w, log))) = over.
Proof.
  induction l as [|e l IH]; intros w log Hst; cbn [fold_left fst]; [exact Hst|].
  destruct (onEntity_cases audio frame timeNow w log e)
    as [(_ & ->) | [(_ & _ & ->) | [(_ & _ & _ & ->) | [(_ & _ & _ & _ & ->) | (_ & _ & _ & _ & ->)]]]];
    apply IH; cbn; auto.
Qed.

Lemma pass_status (audio : option AudioHandles.t) (frame : Z) (timeNow : Q)
    (l : list Entity.t) :
  forall (w : World.t) (log : list Tone.t),
    let w' := fst (fold_left (onEntity audio frame timeNow) l (w, log)) in
    World.status w' = World.status w \/ World.status w' = over.
Proof.
  induction l as [|e l IH]; intros w log; cbn zeta; cbn [fold_left fst]; [auto|].
  destruct (onEntity_cases audio frame timeNow w log e)
    as [(_ & ->) | [(_ & _ & ->) | [(_ & _ & _ & ->) | [(_ & _ & _ & _ & ->) | (_ & _ & _ & _ & ->)]]]];
    try (match goal with
         | |- context [fold_left _ l (?w1, ?log1)] =>
             destruct (IH w1 log1) as [H | H]; [left; rewrite H; reflexivity | right; exact H]
         end).
  right. apply pass_over_stays. reflexivity.
Qed.

(** With no charge left and the invulnerability window over, a pass that
    meets an overlapping hazard ends with the status over; the player is
    left as it was. *)
Lemma pass_lethal (audio : option AudioHandles.t) (frame : Z) (timeNow : Q)
    (l : list Entity.t) :
  forall (w : World.t) (log : list Tone.t),
    (Player.shieldCharges (World.player w) <= 0)%Z ->
    Player.invulnerableUntil (World.player w) <= timeNow ->
    (exists e, In e l /\ hits frame (World.player w) e = true) ->
    let w' := fst (fold_left (onEntity audio frame timeNow) l (w, log)) in
    World.status w' = over /\ World.player w' = World.player w.
Proof.
  induction l as [|e l IH]; intros w log Hsc Hinv (h & Hin & Hhit); cbn zeta.
  - destruct Hin.
  - cbn [fold_left].
    assert (Hplayer : forall l' w0 log0,
               World.player w0 = World.player w ->
               World.player (fst (fold_left (onEntity audio frame timeNow) l' (w0, log0)))
               = World.player w).
    { induction l' as [|e' l' IH']; intros w0 log0 Hp; cbn [fold_left fst]; [exact Hp|].
      destruct (onEntity_cases audio frame timeNow w0 log0 e')
        as [(_ & ->) | [(_ & _ & ->) | [(_ & _ & _ & ->) | [(_ & _ & _ & Hpos & _) | (_ & _ & _ & _ & ->)]]]];
        try (apply IH'; cbn; exact Hp).
      rewrite Hp in Hpos. lia. }
    unfold hits in Hhit. apply andb_true_iff in Hhit. destruct Hhit as [Hc Hty].
    apply negb_true_iff, EntityType_eqb_neq in Hty.
    destruct (onEntity_cases audio frame timeNow w log e)
      as [(Hce & ->) | [(Hce & Hte & ->) | [(_ & _ & Hlt & _) | [(_ & _ & _ & Hpos & _) | (_ & _ & _ & _ & ->)]]]];
      try lia; try (exfalso; lra).
    + destruct Hin as [<- | Hin]; [congruence|].
      apply IH; auto. exists h. unfold hits. rewrite Hc.
      split; [exact Hin|]. apply andb_true_iff. split; [reflexivity|].
      apply negb_true_iff, EntityType_eqb_neq. exact Hty.
    + destruct Hin as [<- | Hin]; [congruence|].
      destruct (IH (collected e w) (playTone audio 880 0.16 square log) Hsc Hinv)
        as [Hs Hp]; [|split; [exact Hs | exact Hp]].
      exists h. split; [exact Hin|]. unfold hits.
      change (World.player (collected e w)) with (World.player w).
      rewrite Hc. apply andb_true_iff. split; [reflexivity|].
      apply negb_true_iff, EntityType_eqb_neq. exact Hty.
    + split.
      * apply pass_over_stays. reflexivity.
      * apply Hplayer. reflexivity.
Qed.

(** ** The blocks before the pass, summed up *)

Lemma advance_id (u : UpgradeState.t) (lvl : LevelConfig.t) (d : Q) (frame : Z)
    (e : Entity.t) :
  Entity.id (advance u lvl d frame e) = Entity.id e.
Proof.
  unfold advance. cbn zeta.
  destruct (negb (EntityType_eqb (Entity.type e) firewall)); reflexivity.
Qed.

Lemma advance_type (u : UpgradeState.t) (lvl : LevelConfig.t) (d : Q) (frame : Z)
    (e : Entity.t) :
  Entity.type (advance u lvl d frame e) = Entity.type e.
Proof.
  unfold advance. cbn zeta.
  destruct (negb (EntityType_eqb (Entity.type e) firewall)); reflexivity.
Qed.

Lemma simulate_frame (timestamp : Q) (env : Env.t) (g : Game.t) (w : World.t) :
  let w1 := fst (fst (simulate timestamp env g w)) in
  World.status w1 = World.status w
  /\ World.score w1 = World.score w
  /\ World.upgradePoints w1 = World.upgradePoints w
  /\ Player.shieldCharges (World.player w1) = Player.shieldCharges (World.player w)
  /\ Player.invulnerableUntil (World.player w1)
     = Player.invulnerableUntil (World.player w)
  /\ exists added,
       World.entities w1
       = filter onScreen
           (map (advance (Game.upgradesRef g) (getLevel (World.score w))
                   ((timestamp - World.lastFrame w) / (1000 / 60))
                   (Game.frameRef g + 1)%Z)
              (World.entities w ++ added))
       /\ NoDup (map Entity.id added)
       /\ (forall e, In e added ->
             (Game.uniqueId g < Entity.id e <= snd (simulate timestamp env g w))%Z)
       /\ (Game.uniqueId g <= snd (simulate timestamp env g w))%Z.
Proof.
  cbn zeta. rewrite simulate_eq. cbn [fst snd].
  set (d := (timestamp - World.lastFrame w) / (1000 / 60)).
  set (lvl := getLevel (World.score w)).
  set (w0 := move (Game.upgradesRef g) d
               (World.with_level (LevelConfig.level lvl) (World.with_lastFrame timestamp w))).
  destruct (jump_frame (Game.upgradesRef g) (Game.audioRef g) w0 (Game.tones g))
    as (Js & Je & _ & Jsc & Jp & Jsh & Ji).
  set (wj := fst (jump (Game.upgradesRef g) (Game.audioRef g) (w0, Game.tones g))) in *.
  destruct (spawnDue_spec timestamp env lvl (land d wj) (Game.uniqueId g))
    as (added & ls & Hsp & Hnd & Hfresh & Hle).
  rewrite Hsp. unfold scroll, land.
  cbn [World.status World.score World.upgradePoints World.player World.entities
       World.with_entities World.with_lastSpawn World.with_player].
  destruct (fall_frame d (World.player wj)) as [Fsh Fi].
  destruct (steer_frame (Game.upgradesRef g) (World.inputs w) d (World.player w))
    as [Ssh Si].
  rewrite Js, Jsc, Jp, Fsh, Fi, Jsh, Ji, Je.
  unfold w0, move.
  cbn [World.status World.score World.upgradePoints World.player World.entities
       World.inputs World.with_level World.with_lastFrame World.with_player].
  rewrite Ssh, Si.
  repeat split.
  exists added. repeat split; auto; apply Hfresh; assumption.
Qed.

Lemma filter_ids_NoDup (keep : Entity.t -> bool) (entities : list Entity.t) :
  NoDup (map Entity.id entities) -> NoDup (map Entity.id (filter keep entities)).
Proof.
  clear sin PI.
  induction entities as [|e rest IH]; cbn; [auto|].
  intro H. inversion H as [|? ? Hfresh Hrest]; subst.
  destruct (keep e); cbn; [|auto].
  constructor; [|auto].
  intro Hin. apply Hfresh. apply in_map_iff in Hin.
  destruct Hin as (e' & Hid & Hin). apply filter_In in Hin.
  rewrite <- Hid. apply in_map. tauto.
Qed.

(** Identifiers before the pass: still pairwise distinct, never above the
    counter, and each either carried over from the world or fresh. *)
Lemma simulate_ids (timestamp : Q) (env : Env.t) (g : Game.t) (w : World.t) :
  NoDup (map Entity.id (World.entities w)) ->
  (forall e, In e (World.entities w) -> (Entity.id e <= Game.uniqueId g)%Z) ->
  let w1 := fst (fst (simulate timestamp env g w)) in
  NoDup (map Entity.id (World.entities w1))
  /\ (Game.uniqueId g <= snd (simulate timestamp env g w))%Z
  /\ (forall e, In e (World.entities w1) ->
        (Entity.id e <= snd (simulate timestamp env g w))%Z
        /\ ((exists e0, In e0 (World.entities w) /\ Entity.id e0 = Entity.id e)
            \/ (Game.uniqueId g < Entity.id e)%Z)).
Proof.
  intros Hnd Hle. cbn zeta.
  destruct (simulate_frame timestamp env g w)
    as (_ & _ & _ & _ & _ & added & -> & Hnda & Hfresh & Hc).
  split; [|split; [exact Hc|]].
  - apply filter_ids_NoDup. rewrite map_map.
    erewrite map_ext by (intro; apply advance_id).
    rewrite map_app. apply NoDup_app; [exact Hnd | exact Hnda |].
    intros i Hi Hi'. apply in_map_iff in Hi. apply in_map_iff in Hi'.
    destruct Hi as (a & <- & Ha). destruct Hi' as (b & Hb & Hb').
    specialize (Hle a Ha). specialize (Hfresh b Hb'). lia.
  - intros e He. apply filter_In in He. destruct He as [He _].
    apply in_map_iff in He. destruct He as (a & <- & Ha).
    rewrite advance_id. apply in_app_or in Ha. destruct Ha as [Ha | Ha].
    + split; [specialize (Hle a Ha); lia|]. left. exists a. auto.
    + specialize (Hfresh a Ha). split; [lia|]. right. lia.
Qed.

Lemma pass_NoDup (audio : option AudioHandles.t) (frame : Z) (timeNow : Q)
    (l : list Entity.t) :
  forall (w : World.t) (log : list Tone.t),
    NoDup (map Entity.id (World.entities w)) ->
    NoDup (map Entity.id
             (World.entities (fst (fold_left (onEntity audio frame timeNow) l (w, log))))).
Proof.
  induction l as [|e l IH]; intros w log Hnd; cbn [fold_left fst]; [exact Hnd|].
  destruct (onEntity_cases audio frame timeNow w log e)
    as [(_ & ->) | [(_ & _ & ->) | [(_ & _ & _ & ->) | [(_ & _ & _ & _ & ->) | (_ & _ & _ & _ & ->)]]]];
    apply IH; cbn; auto; apply filter_ids_NoDup; exact Hnd.
Qed.

(** ** The state after a tick *)

Lemma renderFrame_result (playerName : string) (timestamp : Q) (env : Env.t)
    (g : Game.t) (w : World.t) :
  Game.worldRef g = Some w ->
  World.status w = running ->
  let g' := renderFrame playerName timestamp env g in
  let W := tickWorld timestamp env g w in
  exists W',
    Game.worldRef g' = Some W'
    /\ World.status W' = World.status W
    /\ World.player W' = World.player W
    /\ World.entities W' = World.entities W
    /\ World.score W' = World.score W
    /\ World.upgradePoints W' = World.upgradePoints W
    /\ World.inputs W' = World.inputs W
    /\ Game.uniqueId g' = snd (simulate timestamp env g w)
    /\ Game.upgradesRef g' = Game.upgradesRef g
    /\ Game.upgrades g' = Game.upgrades g
    /\ Game.frameRef g' = (Game.frameRef g + 1)%Z
    /\ (World.status W = over ->
        Game.status g' = over
        /\ Game.leaderboard g'
           = nextLeaderboard playerName (inject_Z (Qfloor (World.score W)))
               (Env.dateNow env) (Game.leaderboard g)).
Proof.
  intros Hw Hs. cbn zeta. rewrite (renderFrame_running _ _ _ _ _ Hw Hs).
  generalize (tickWorld timestamp env g w) as W.
  generalize (snd (tickState timestamp env g w)) as log.
  generalize (snd (simulate timestamp env g w)) as c.
  intros c log W.
  unfold conclude.
  destruct (GameStatus_eqb (World.status W) running) eqn:Hr.
  - apply GameStatus_eqb_eq in Hr.
    eexists. split; [reflexivity|]. cbn.
    repeat split; try reflexivity; congruence.
  - destruct (GameStatus_eqb (World.status W) over) eqn:Ho.
    + exists W. unfold stopAudio, saveScore, updateHud. cbn.
      destruct (Game.audioRef g); cbn; repeat split; reflexivity.
    + apply GameStatus_eqb_neq in Ho.
      exists W. cbn. repeat split; try reflexivity; congruence.
Qed.

Lemma tickWorld_ok (timestamp : Q) (env : Env.t) (g : Game.t) (w : World.t) :
  World.status w = running ->
  worldOk (Game.uniqueId g) w ->
  worldOk (snd (simulate timestamp env g w)) (tickWorld timestamp env g w)
  /\ (World.status (tickWorld timestamp env g w) = running
      \/ World.status (tickWorld timestamp env g w) = over).
Proof.
  intros Hs (Hsc & Hnd & Hids & _).
  unfold tickWorld, tickState, accrue, resolveCollisions. cbn zeta.
  destruct (simulate_frame timestamp env g w) as (Fs & _ & _ & Fsc & _).
  destruct (simulate_ids timestamp env g w Hnd Hids) as (Snd & Sc & Sids).
  destruct (simulate timestamp env g w) as [[w1 log1] c1]. cbn [fst snd] in *.
  pose proof (pass_status (Game.audioRef g) (Game.frameRef g + 1)%Z (Env.perfNow env)
                (World.entities w1) w1 log1) as Hst.
  pose proof (pass_shieldCharges (Game.audioRef g) (Game.frameRef g + 1)%Z (Env.perfNow env)
                (World.entities w1) w1 log1) as Hch.
  pose proof (pass_NoDup (Game.audioRef g) (Game.frameRef g + 1)%Z (Env.perfNow env)
                (World.entities w1) w1 log1 Snd) as Hnd'.
  pose proof (pass_account (Game.audioRef g) (Game.frameRef g + 1)%Z (Env.perfNow env)
                (World.entities w1) w1 log1) as (_ & _ & Hin).
  cbn zeta in Hst.
  set (w2 := fst (fold_left _ (World.entities w1) (w1, log1))) in *.
  cbn [World.status World.with_score World.player World.entities].
  assert (Hrun : World.status w2 = running \/ World.status w2 = over)
    by (destruct Hst as [-> | ->]; [left; congruence | right; reflexivity]).
  split; [|exact Hrun].
  repeat split.
  - apply Hch. lia.
  - exact Hnd'.
  - intros e He. apply Hin in He. destruct He as [He _]. apply Sids in He. tauto.
  - intro Hidle. cbn in Hidle. destruct Hrun; congruence.
Qed.

(** ** The invariant of the component *)

Lemma wellFormed_mount (stored : option (list LeaderboardEntry.t))
    (storedName : option string) :
  wellFormed (mount stored storedName).
Proof.
  unfold wellFormed, mount. cbn. repeat split; try lia; intros; discriminate.
Qed.

Lemma Some_eq {A : Type} (a b : A) : Some a = Some b -> a = b.
Proof. congruence. Qed.

(** Splits the invariant into its five parts. *)
Ltac wf_split := unfold wellFormed; split; [|split; [|split; [|split]]].

(** Proves the invariant of a state whose world part was computed: the
    levels by arithmetic, the world by unfolding [worldOk]. *)
Ltac wf_world :=
  wf_split; cbn -[Z.add Z.sub Z.mul]; auto; try lia;
  let w0 := fresh "w0" in
  let Hw0 := fresh "Hw0" in
  intros w0 Hw0; apply Some_eq in Hw0; subst w0;
  unfold worldOk; cbn -[Z.add Z.sub Z.mul];
  repeat split; auto; try lia; try discriminate.

Lemma wellFormed_renderFrame (playerName : string) (timestamp : Q) (env : Env.t)
    (g : Game.t) :
  wellFormed g -> wellFormed (renderFrame playerName timestamp env g).
Proof.
  intro H. pose proof H as (Hup & H1 & H2 & H3 & Hw).
  destruct (Game.worldRef g) as [w|] eqn:Ew.
  - destruct (GameStatus_eqb (World.status w) running) eqn:Hs.
    + apply GameStatus_eqb_eq in Hs.
      destruct (renderFrame_result playerName timestamp env g w Ew Hs)
        as (W' & HW' & Es & Ep & Ee & _ & _ & _ & Ec & Er & Eu & _).
      destruct (tickWorld_ok timestamp env g w Hs (Hw w eq_refl))
        as [(Ksc & Knd & Kids & Kst) _].
      wf_split; rewrite ?Er, ?Eu, ?Ec; auto.
      intros w0 Hw0. rewrite HW' in Hw0. injection Hw0 as <-.
      unfold worldOk. rewrite Ep, Ee, Es. auto.
    + apply GameStatus_eqb_neq in Hs.
      rewrite renderFrame_not_running; [exact H|].
      intros w0 Hw0. rewrite Ew in Hw0. injection Hw0 as <-. exact Hs.
  - rewrite renderFrame_not_running; [exact H|].
    intros w0 Hw0. congruence.
Qed.

Lemma wellFormed_stopAudio (g : Game.t) : wellFormed g -> wellFormed (stopAudio g).
Proof.
  unfold stopAudio. destruct (Game.audioRef g); auto.
Qed.

Lemma wellFormed_startGame (env : Env.t) (g : Game.t) :
  wellFormed g -> wellFormed (startGame env g).
Proof.
  intros (Hup & H1 & H2 & H3 & Hw).
  unfold startGame, startLoop, updateHud.
  audio_shape. wf_world; try apply NoDup_nil; contradiction.
Qed.

Lemma wellFormed_togglePause (env : Env.t) (g : Game.t) :
  wellFormed g -> wellFormed (togglePause env g).
Proof.
  intro H. pose proof H as (Hup & H1 & H2 & H3 & Hw).
  unfold togglePause.
  destruct (Game.worldRef g) as [w|] eqn:Ew; [|exact H].
  destruct (Hw w eq_refl) as (Ksc & Knd & Kids & Kst).
  destruct (GameStatus_eqb (World.status w) running).
  - unfold stopAudio. cbn. destruct (Game.audioRef g); wf_world.
  - destruct (GameStatus_eqb (World.status w) paused); [|exact H].
    unfold startLoop.
    audio_shape. wf_world.
Qed.

Lemma wellFormed_applyUpgrade (type : UpgradeState.key) (g : Game.t) :
  wellFormed g -> wellFormed (applyUpgrade type g).
Proof.
  intro H. pose proof H as (Hup & H1 & H2 & H3 & Hw).
  unfold applyUpgrade.
  destruct (Game.worldRef g) as [w|] eqn:Ew; [|exact H].
  destruct (Hw w eq_refl) as (Ksc & Knd & Kids & Kst).
  destruct (GameStatus_eqb (World.status w) idle); [exact H|].
  destruct (World.upgradePoints w <? _)%Z; [exact H|].
  destruct type; wf_world.
Qed.

Lemma wellFormed_syncShield (g : Game.t) : wellFormed g -> wellFormed (syncShield g).
Proof.
  intro H. pose proof H as (Hup & H1 & H2 & H3 & Hw).
  unfold syncShield.
  destruct (Game.worldRef g) as [w|] eqn:Ew; [|exact H].
  destruct (Hw w eq_refl) as (Ksc & Knd & Kids & Kst).
  destruct (Player.shieldCharges (World.player w) <? _)%Z; [|exact H].
  wf_world. rewrite Hup. lia.
Qed.

Lemma wellFormed_setInputs (f : Inputs.t -> Inputs.t) (g : Game.t) :
  wellFormed g -> wellFormed (setInputs f g).
Proof.
  intro H. pose proof H as (Hup & H1 & H2 & H3 & Hw).
  unfold setInputs.
  destruct (Game.worldRef g) as [w|] eqn:Ew; [|exact H].
  destruct (Hw w eq_refl) as (Ksc & Knd & Kids & Kst).
  wf_world.
Qed.

Lemma wellFormed_step (g : Game.t) (ev : Event) : wellFormed g -> wellFormed (step g ev).
Proof.
  intro H. destruct ev; cbn [step].
  - apply wellFormed_renderFrame, H.
  - apply wellFormed_startGame, H.
  - apply wellFormed_togglePause, H.
  - apply wellFormed_startGame, wellFormed_stopAudio, H.
  - apply wellFormed_applyUpgrade, H.
  - destruct H as (Hup & H1 & H2 & H3 & Hw). unfold syncUpgradesRef.
    wf_split; cbn; rewrite ?Hup; auto.
  - apply wellFormed_syncShield, H.
  - unfold handleKeyDown. destruct (Game.worldRef g); [|exact H].
    repeat match goal with
    | |- context [if ?b then _ else _] => destruct b
    end;
    repeat first [apply wellFormed_togglePause | apply wellFormed_setInputs]; exact H.
  - unfold handleKeyUp. destruct (Game.worldRef g); [|exact H].
    repeat match goal with
    | |- context [if ?b then _ else _] => destruct b
    end;
    repeat apply wellFormed_setInputs; exact H.
  - exact H.
Qed.

Lemma wellFormed_run (evs : list Event) :
  forall g, wellFormed g -> wellFormed (run g evs).
Proof.
  induction evs as [|ev evs IH]; intros g H; cbn; [exact H|].
  apply IH, wellFormed_step, H.
Qed.

Lemma wellFormed_reachable (g : Game.t) : reachable g -> wellFormed g.
Proof.
  intros (stored & storedName & evs & ->).
  apply wellFormed_run, wellFormed_mount.
Qed.

(** ** Shield charges *)

Lemma pass_shieldCharges_le (audio : option AudioHandles.t) (frame : Z) (timeNow : Q)
    (l : list Entity.t) :
  forall (w : World.t) (log : list Tone.t),
    (Player.shieldCharges
       (World.player (fst (fold_left (onEntity audio frame timeNow) l (w, log))))
     <= Player.shieldCharges (World.player w))%Z.
Proof.
  induction l as [|e l IH]; intros w log; cbn [fold_left fst]; [lia|].
  destruct (onEntity_cases audio frame timeNow w log e)
    as [(_ & ->) | [(_ & _ & ->) | [(_ & _ & _ & ->) | [(_ & _ & _ & Hpos & ->) | (_ & _ & _ & _ & ->)]]]];
    match goal with
    | |- context [fold_left _ l (?w1, ?log1)] => specialize (IH w1 log1)
    end; cbn in IH; lia.
Qed.

Lemma renderFrame_shieldCharges (playerName : string) (timestamp : Q) (env : Env.t)
    (g : Game.t) (w w' : World.t) :
  Game.worldRef g = Some w ->
  Game.worldRef (renderFrame playerName timestamp env g) = Some w' ->
  (Player.shieldCharges (World.player w') <= Player.shieldCharges (World.player w))%Z.
Proof.
  intros Hw Hw'.
  destruct (GameStatus_eqb (World.status w) running) eqn:Hs.
  - apply GameStatus_eqb_eq in Hs.
    destruct (renderFrame_result playerName timestamp env g w Hw Hs)
      as (W' & HW' & _ & Ep & _).
    rewrite HW' in Hw'. apply Some_eq in Hw'. subst w'. rewrite Ep.
    unfold tickWorld, tickState, accrue, resolveCollisions. cbn zeta.
    destruct (simulate_frame timestamp env g w) as (_ & _ & _ & Fsc & _).
    destruct (simulate timestamp env g w) as [[w1 log1] c1]. cbn [fst snd] in *.
    cbn [World.player World.with_score]. rewrite <- Fsc.
    apply pass_shieldCharges_le.
  - apply GameStatus_eqb_neq in Hs.
    rewrite renderFrame_not_running in Hw'.
    + rewrite Hw in Hw'. apply Some_eq in Hw'. subst w'. lia.
    + intros w0 Hw0. rewrite Hw in Hw0. apply Some_eq in Hw0. subst w0. exact Hs.
Qed.

Lemma togglePause_playerOf (env : Env.t) (g : Game.t) :
  playerOf (togglePause env g) = playerOf g.
Proof.
  unfold playerOf, togglePause, stopAudio, startLoop.
  destruct (Game.worldRef g) as [w|] eqn:Hw; [|rewrite Hw; reflexivity].
  destruct (GameStatus_eqb (World.status w) running);
    [| destruct (GameStatus_eqb (World.status w) paused) ];
    audio_shape; cbn; destruct (Game.audioRef g); cbn;
    rewrite ?Hw; reflexivity.
Qed.

Lemma setInputs_playerOf (f : Inputs.t -> Inputs.t) (g : Game.t) :
  playerOf (setInputs f g) = playerOf g.
Proof.
  unfold playerOf, setInputs.
  destruct (Game.worldRef g) as [w|] eqn:Hw; cbn; rewrite ?Hw; reflexivity.
Qed.

Lemma handleKeyDown_playerOf (code : string) (env : Env.t) (g : Game.t) :
  playerOf (handleKeyDown code env g) = playerOf g.
Proof.
  unfold handleKeyDown. destruct (Game.worldRef g); [|reflexivity].
  repeat match goal with
  | |- context [if ?b then _ else _] => destruct b
  end;
  rewrite ?togglePause_playerOf, ?setInputs_playerOf; reflexivity.
Qed.

Lemma handleKeyUp_playerOf (code : string) (g : Game.t) :
  playerOf (handleKeyUp code g) = playerOf g.
Proof.
  unfold handleKeyUp. destruct (Game.worldRef g); [|reflexivity].
  repeat match goal with
  | |- context [if ?b then _ else _] => destruct b
  end;
  rewrite ?setInputs_playerOf; reflexivity.
Qed.

Lemma playerOf_eq (g g' : Game.t) (w w' : World.t) :
  playerOf g' = playerOf g ->
  Game.worldRef g = Some w -> Game.worldRef g' = Some w' ->
  World.player w' = World.player w.
Proof.
  unfold playerOf. intros H Hw Hw'. rewrite Hw, Hw' in H. cbn in H. congruence.
Qed.

Lemma applyUpgrade_player (type : UpgradeState.key) (g : Game.t) :
  type <> UpgradeState.Shield -> playerOf (applyUpgrade type g) = playerOf g.
Proof.
  intro Hty. unfold playerOf, applyUpgrade.
  destruct (Game.worldRef g) as [w|] eqn:Hw; [|rewrite Hw; reflexivity].
  destruct (GameStatus_eqb (World.status w) idle); [rewrite Hw; reflexivity|].
  destruct (World.upgradePoints w <? _)%Z; [rewrite Hw; reflexivity|].
  destruct type; try contradiction; reflexivity.
Qed.

(** C8. In every state the component can reach, the shield-charge count of
    the run is not negative.  A run starts with 1 + shield level charges,
    which is at least 1; the collision callback changes the count only by
    taking one away from a count that is strictly positive; and between two
    states of the same run the count goes up only through a shield purchase
    or the shield-level effect. *)
Theorem shieldCharges_never_negative (g : Game.t) :
  reachable g ->
  (forall w, Game.worldRef g = Some w ->
     (0 <= Player.shieldCharges (World.player w))%Z)
  /\ (forall env, exists w,
        Game.worldRef (startGame env g) = Some w
        /\ Player.shieldCharges (World.player w)
           = (1 + UpgradeState.shield (Game.upgradesRef g))%Z
        /\ (1 <= Player.shieldCharges (World.player w))%Z)
  /\ (forall audio frame timeNow w log e,
        let w' := fst (onEntity audio frame timeNow (w, log) e) in
        Player.shieldCharges (World.player w') <> Player.shieldCharges (World.player w) ->
        (0 < Player.shieldCharges (World.player w))%Z
        /\ Player.shieldCharges (World.player w')
           = (Player.shieldCharges (World.player w) - 1)%Z)
  /\ (forall ev w w',
        Game.worldRef g = Some w ->
        Game.worldRef (step g ev) = Some w' ->
        (Player.shieldCharges (World.player w)
         < Player.shieldCharges (World.player w'))%Z ->
        ev = Upgrade UpgradeState.Shield \/ ev = ShieldEffect \/ startsRun ev = true).
Proof.
  intro Hreach. apply wellFormed_reachable in Hreach.
  destruct Hreach as (Hup & H1 & H2 & H3 & Hw).
  split; [|split; [|split]].
  - intros w Ew. destruct (Hw w Ew) as (Hsc & _). exact Hsc.
  - intro env. unfold startGame, startLoop, updateHud.
    audio_shape. cbn -[Z.add]; eexists.
      all: (split; [reflexivity|]); cbn -[Z.add]; split; [reflexivity | lia].
  - intros audio frame timeNow w log e. cbn zeta.
    destruct (onEntity_cases audio frame timeNow w log e)
      as [(_ & ->) | [(_ & _ & ->) | [(_ & _ & _ & ->) | [(_ & _ & _ & Hpos & ->) | (_ & _ & _ & _ & ->)]]]];
      cbn; intro Hne; try congruence.
    split; [exact Hpos | reflexivity].
  - intros ev w w' Ew Ew' Hlt.
    assert (Hsame : playerOf (step g ev) = playerOf g -> False).
    { intro Hp. rewrite (playerOf_eq _ _ _ _ Hp Ew Ew') in Hlt. lia. }
    destruct ev as [n ts env | env | env | env | type | | | code env | code | value];
      cbn [step startsRun] in *; auto;
      try (exfalso; apply Hsame;
           first [ reflexivity
                 | apply togglePause_playerOf
                 | apply handleKeyDown_playerOf
                 | apply handleKeyUp_playerOf ]).
    + pose proof (renderFrame_shieldCharges _ _ _ _ _ _ Ew Ew'). lia.
    + destruct type; auto; exfalso; apply Hsame, applyUpgrade_player; discriminate.
Qed.

(** ** One pickup in a tick *)

(** An entity stays in the array through a pass when no overlapping element
    of the walked array carries its identifier. *)
Lemma pass_keeps (audio : option AudioHandles.t) (frame : Z) (timeNow : Q)
    (l : list Entity.t) :
  forall (w : World.t) (log : list Tone.t) (a : Entity.t),
    In a (World.entities w) ->
    (forall d, In d l -> collides frame (World.player w) d = true ->
               Entity.id a <> Entity.id d) ->
    In a (World.entities (fst (fold_left (onEntity audio frame timeNow) l (w, log)))).
Proof.
  induction l as [|e l IH]; intros w log a Ha Hids; cbn [fold_left fst]; [exact Ha|].
  pose proof (onEntity_collides audio frame timeNow w log e) as Hbox.
  pose proof (onEntity_cases audio frame timeNow w log e) as Hcases.
  cbn zeta in Hcases.
  destruct (onEntity audio frame timeNow (w, log) e) as [w1 log1]. cbn [fst] in Hbox.
  apply IH.
  - destruct Hcases
      as [(_ & E) | [(Hc & _ & E) | [(_ & _ & _ & E) | [(Hc & _ & _ & _ & E) | (_ & _ & _ & _ & E)]]]];
      apply (f_equal fst) in E; cbn [fst] in E; subst w1; try exact Ha.
    + cbn. apply without_In. split; [exact Ha|].
      apply Hids; [left; reflexivity | exact Hc].
    + cbn. apply without_In. split; [exact Ha|].
      apply Hids; [left; reflexivity | exact Hc].
  - intros d Hd Hcd. rewrite Hbox in Hcd. apply Hids; [right; exact Hd | exact Hcd].
Qed.

(** C4. A tick of a running world in which exactly one data packet overlaps
    the player ends with that packet gone from the entity array, the score
    up by 120 plus the tick's time accrual (elapsed time * 0.35 * speed
    scale of the tier), and the upgrade points up by 1.  Entities that do
    not overlap the player and share their identifier with no overlapping
    entity are all still there. *)
Theorem single_pickup (playerName : string) (timestamp : Q) (env : Env.t)
    (g : Game.t) (w : World.t) (e : Entity.t) :
  Game.worldRef g = Some w ->
  World.status w = running ->
  let w1 := fst (fst (simulate timestamp env g w)) in
  let frame := (Game.frameRef g + 1)%Z in
  filter (picks frame (World.player w1)) (World.entities w1) = [e] ->
  exists w',
    Game.worldRef (renderFrame playerName timestamp env g) = Some w'
    /\ World.score w'
       == World.score w + 120
          + (timestamp - World.lastFrame w) * 0.35
            * LevelConfig.speedScale (getLevel (World.score w))
    /\ World.upgradePoints w' = (World.upgradePoints w + 1)%Z
    /\ ~ In e (World.entities w')
    /\ (forall a, In a (World.entities w') -> Entity.id a <> Entity.id e)
    /\ (forall a, In a (World.entities w1) ->
          (forall d, In d (World.entities w1) ->
                     collides frame (World.player w1) d = true ->
                     Entity.id a <> Entity.id d) ->
          In a (World.entities w')).
Proof.
  intros Hw Hs w1 frame Hone.
  destruct (renderFrame_result playerName timestamp env g w Hw Hs)
    as (W' & HW' & _ & _ & Ee & Esc & Epts & _).
  exists W'. split; [exact HW'|].
  rewrite Ee, Esc, Epts.
  unfold tickWorld, tickState, accrue, resolveCollisions. cbn zeta.
  destruct (simulate_frame timestamp env g w) as (_ & Fscore & Fpts & _).
  subst w1 frame.
  destruct (simulate timestamp env g w) as [[w1 log1] c1]. cbn [fst snd] in *.
  cbn [World.score World.upgradePoints World.entities World.with_score].
  pose proof (pass_account (Game.audioRef g) (Game.frameRef g + 1)%Z (Env.perfNow env)
                (World.entities w1) w1 log1) as Hacc.
  cbn zeta in Hacc. rewrite Hone in Hacc. destruct Hacc as (Hscore & Hpts & Hents).
  repeat split.
  - rewrite Hscore, Fscore. change (count [e]) with 1. ring.
  - rewrite Hpts, Fpts. cbn [List.length Z.of_nat Pos.of_succ_nat]. lia.
  - intro Hin. apply Hents in Hin. destruct Hin as [_ Hne].
    apply (Hne e); [left|]; reflexivity.
  - intros a Ha. apply Hents in Ha. destruct Ha as [_ Hne]. apply Hne. left. reflexivity.
  - intros a Ha Hids. apply pass_keeps; assumption.
Qed.

(** ** After the end of a run *)

Lemma setInputs_outcomeOf (f : Inputs.t -> Inputs.t) (g : Game.t) :
  outcomeOf (setInputs f g) = outcomeOf g.
Proof.
  unfold outcomeOf, setInputs.
  destruct (Game.worldRef g) as [w|] eqn:Hw; cbn; rewrite ?Hw; reflexivity.
Qed.

Lemma togglePause_over (env : Env.t) (g : Game.t) (score : Q) :
  outcomeOf g = Some (over, score) -> togglePause env g = g.
Proof.
  unfold outcomeOf, togglePause.
  destruct (Game.worldRef g) as [w|]; cbn; [|discriminate].
  intro H. apply Some_eq in H. apply (f_equal fst) in H. cbn in H. rewrite H.
  reflexivity.
Qed.

Lemma applyUpgrade_outcomeOf (type : UpgradeState.key) (g : Game.t) :
  outcomeOf (applyUpgrade type g) = outcomeOf g.
Proof.
  unfold outcomeOf, applyUpgrade.
  destruct (Game.worldRef g) as [w|] eqn:Hw; [|rewrite Hw; reflexivity].
  destruct (GameStatus_eqb (World.status w) idle); [rewrite Hw; reflexivity|].
  destruct (World.upgradePoints w <? _)%Z; [rewrite Hw; reflexivity|].
  destruct type; reflexivity.
Qed.

Lemma syncShield_outcomeOf (g : Game.t) : outcomeOf (syncShield g) = outcomeOf g.
Proof.
  unfold outcomeOf, syncShield.
  destruct (Game.worldRef g) as [w|] eqn:Hw; [|rewrite Hw; reflexivity].
  destruct (Player.shieldCharges (World.player w) <? _)%Z; [|rewrite Hw]; reflexivity.
Qed.

(** Once the status of the run is over, no event short of starting a new
    run changes its status or its score. *)
Lemma step_over (g : Game.t) (ev : Event) (score : Q) :
  outcomeOf g = Some (over, score) ->
  startsRun ev = false ->
  outcomeOf (step g ev) = Some (over, score).
Proof.
  intros Hov Hev.
  destruct ev as [n ts env | env | env | env | type | | | code env | code | value];
    cbn [step startsRun] in *; try discriminate.
  - rewrite renderFrame_not_running; [exact Hov|].
    intros w Hw. unfold outcomeOf in Hov. rewrite Hw in Hov. cbn in Hov.
    apply Some_eq in Hov. apply (f_equal fst) in Hov. cbn in Hov. congruence.
  - rewrite (togglePause_over env g score Hov). exact Hov.
  - rewrite applyUpgrade_outcomeOf. exact Hov.
  - exact Hov.
  - rewrite syncShield_outcomeOf. exact Hov.
  - unfold handleKeyDown. destruct (Game.worldRef g) eqn:Hw; [|exact Hov].
    assert (Hin : forall g0, outcomeOf g0 = Some (over, score) ->
                  outcomeOf (if String.eqb code "KeyP" then togglePause env g0 else g0)
                  = Some (over, score)).
    { intros g0 H0. destruct (String.eqb code "KeyP"); [|exact H0].
      rewrite (togglePause_over env g0 score H0). exact H0. }
    apply Hin.
    repeat match goal with
    | |- context [if ?b then _ else _] => destruct b
    end; rewrite ?setInputs_outcomeOf; exact Hov.
  - unfold handleKeyUp. destruct (Game.worldRef g) eqn:Hw; [|exact Hov].
    repeat match goal with
    | |- context [if ?b then _ else _] => destruct b
    end; rewrite ?setInputs_outcomeOf; exact Hov.
  - exact Hov.
Qed.

Lemma run_over (evs : list Event) :
  forall (g : Game.t) (score : Q),
    outcomeOf g = Some (over, score) ->
    forallb (fun ev => negb (startsRun ev)) evs = true ->
    outcomeOf (run g evs) = Some (over, score).
Proof.
  induction evs as [|ev evs IH]; intros g score Hov Hevs; cbn; [exact Hov|].
  cbn in Hevs. apply andb_true_iff in Hevs. destruct Hevs as [Hev Hevs].
  apply negb_true_iff in Hev.
  apply IH; [|exact Hevs]. apply step_over; assumption.
Qed.

(** ** The lethal hit *)

(** C1.  In a tick of a running world whose player has no shield charge
    and is outside the invulnerability window, an overlapping hazard ends
    the run: after the tick the status of the world and of the component is
    over, and the floored score is filed in the leaderboard.  The score the
    run ends with is the score before the tick plus what this tick adds (120
    for every data packet overlapping in the same pass, and the time accrual
    of the tick).  The transition happens once: from then on no event short
    of starting a new run changes the status or the score, so the score
    never increases again. *)
Theorem lethal_hit_ends_run (playerName : string) (timestamp : Q) (env : Env.t)
    (g : Game.t) (w : World.t) :
  Game.worldRef g = Some w ->
  World.status w = running ->
  Player.shieldCharges (World.player w) = 0%Z ->
  ~ Env.perfNow env < Player.invulnerableUntil (World.player w) ->
  let w1 := fst (fst (simulate timestamp env g w)) in
  let frame := (Game.frameRef g + 1)%Z in
  (exists e, In e (World.entities w1) /\ hits frame (World.player w1) e = true) ->
  let g' := renderFrame playerName timestamp env g in
  exists final,
    outcomeOf g' = Some (over, final)
    /\ Game.status g' = over
    /\ final
       == World.score w
          + 120 * count (filter (picks frame (World.player w1)) (World.entities w1))
          + (timestamp - World.lastFrame w) * 0.35
            * LevelConfig.speedScale (getLevel (World.score w))
    /\ Game.leaderboard g'
       = nextLeaderboard playerName (inject_Z (Qfloor final)) (Env.dateNow env)
           (Game.leaderboard g)
    /\ (forall evs,
          forallb (fun ev => negb (startsRun ev)) evs = true ->
          outcomeOf (run g' evs) = Some (over, final)).
Proof.
  intros Hw Hs Hsc Hinv w1 frame Hhit g'.
  destruct (renderFrame_result playerName timestamp env g w Hw Hs)
    as (W' & HW' & Es & _ & _ & Esc & _ & _ & _ & _ & _ & _ & Hover).
  fold g' in HW', Hover.
  assert (Hst : World.status (tickWorld timestamp env g w) = over
                /\ World.score (tickWorld timestamp env g w)
                   == World.score w
                      + 120 * count (filter (picks frame (World.player w1))
                                       (World.entities w1))
                      + (timestamp - World.lastFrame w) * 0.35
                        * LevelConfig.speedScale (getLevel (World.score w))).
  { unfold tickWorld, tickState, accrue, resolveCollisions. cbn zeta.
    destruct (simulate_frame timestamp env g w) as (_ & Fscore & _ & Fsc & Finv & _).
    subst w1 frame.
    destruct (simulate timestamp env g w) as [[w1 log1] c1]. cbn [fst snd] in *.
    cbn [World.status World.score World.with_score].
    split.
    - apply pass_lethal; [lia | rewrite Finv; apply Qnot_lt_le; exact Hinv | exact Hhit].
    - pose proof (pass_account (Game.audioRef g) (Game.frameRef g + 1)%Z (Env.perfNow env)
                    (World.entities w1) w1 log1) as (Hscore & _).
      rewrite Hscore, Fscore. reflexivity. }
  destruct Hst as [Hst Hscore].
  destruct (Hover Hst) as [Hgs Hlb].
  assert (Hout : outcomeOf g' = Some (over, World.score (tickWorld timestamp env g w))).
  { unfold outcomeOf. rewrite HW'. cbn. rewrite Es, Esc, Hst. reflexivity. }
  exists (World.score (tickWorld timestamp env g w)).
  repeat split; try assumption.
  intros evs Hevs. apply run_over; assumption.
Qed.

(** ** Every packet is picked up at most once *)

Lemma setInputs_arena (f : Inputs.t -> Inputs.t) (g : Game.t) :
  arena (setInputs f g) = arena g.
Proof.
  unfold arena, entitiesOf, setInputs.
  destruct (Game.worldRef g) as [w|] eqn:Hw; cbn; rewrite ?Hw; reflexivity.
Qed.

Lemma togglePause_arena (env : Env.t) (g : Game.t) :
  arena (togglePause env g) = arena g.
Proof.
  unfold arena, entitiesOf, togglePause, stopAudio, startLoop.
  destruct (Game.worldRef g) as [w|] eqn:Hw; [|rewrite Hw; reflexivity].
  destruct (GameStatus_eqb (World.status w) running);
    [| destruct (GameStatus_eqb (World.status w) paused) ];
    audio_shape; cbn; destruct (Game.audioRef g); cbn;
    rewrite ?Hw; reflexivity.
Qed.

Lemma applyUpgrade_arena (type : UpgradeState.key) (g : Game.t) :
  arena (applyUpgrade type g) = arena g.
Proof.
  unfold arena, entitiesOf, applyUpgrade.
  destruct (Game.worldRef g) as [w|] eqn:Hw; [|rewrite Hw; reflexivity].
  destruct (GameStatus_eqb (World.status w) idle); [rewrite Hw; reflexivity|].
  destruct (World.upgradePoints w <? _)%Z; [rewrite Hw; reflexivity|].
  destruct type; reflexivity.
Qed.

Lemma syncShield_arena (g : Game.t) : arena (syncShield g) = arena g.
Proof.
  unfold arena, entitiesOf, syncShield.
  destruct (Game.worldRef g) as [w|] eqn:Hw; [|rewrite Hw; reflexivity].
  destruct (Player.shieldCharges (World.player w) <? _)%Z; [|rewrite Hw]; reflexivity.
Qed.

Lemma handleKeyDown_arena (code : string) (env : Env.t) (g : Game.t) :
  arena (handleKeyDown code env g) = arena g.
Proof.
  unfold handleKeyDown. destruct (Game.worldRef g); [|reflexivity].
  repeat match goal with
  | |- context [if ?b then _ else _] => destruct b
  end;
  rewrite ?togglePause_arena, ?setInputs_arena; reflexivity.
Qed.

Lemma handleKeyUp_arena (code : string) (g : Game.t) :
  arena (handleKeyUp code g) = arena g.
Proof.
  unfold handleKeyUp. destruct (Game.worldRef g); [|reflexivity].
  repeat match goal with
  | |- context [if ?b then _ else _] => destruct b
  end;
  rewrite ?setInputs_arena; reflexivity.
Qed.

Lemma live_arena (g g' : Game.t) (i : Z) : arena g' = arena g -> live g' i -> live g i.
Proof.
  clear sin PI.
  unfold arena, live. intro H. injection H as -> ->. tauto.
Qed.

Lemma startGame_arena (env : Env.t) (g : Game.t) :
  arena (startGame env g) = ([], Game.uniqueId g).
Proof.
  unfold arena, entitiesOf, startGame, startLoop, updateHud.
  audio_shape. reflexivity.
Qed.

Lemma stopAudio_uniqueId (g : Game.t) : Game.uniqueId (stopAudio g) = Game.uniqueId g.
Proof. unfold stopAudio. destruct (Game.audioRef g); reflexivity. Qed.

(** What a frame callback does to the identifiers of a running world. *)
Lemma renderFrame_ids (playerName : string) (timestamp : Q) (env : Env.t)
    (g : Game.t) (w : World.t) :
  wellFormed g ->
  Game.worldRef g = Some w ->
  World.status w = running ->
  let g' := renderFrame playerName timestamp env g in
  NoDup (pickedUp timestamp env g)
  /\ (forall i, In i (pickedUp timestamp env g) -> ~ live g' i)
  /\ (forall i, In i (pickedUp timestamp env g) -> live g i)
  /\ (forall i, live g' i -> live g i).
Proof.
  intros (_ & _ & _ & _ & Hok) Hw Hs g'.
  destruct (Hok w Hw) as (_ & Hnd & Hids & _).
  destruct (renderFrame_result playerName timestamp env g w Hw Hs)
    as (W' & HW' & _ & _ & Ee & _ & _ & _ & Ec & _).
  fold g' in HW', Ec.
  unfold pickedUp. rewrite Hw, Hs. cbn [GameStatus_eqb]. cbn zeta.
  destruct (simulate_ids timestamp env g w Hnd Hids) as (Snd & Sc & Sids).
  assert (Hents : entitiesOf g' = World.entities (tickWorld timestamp env g w))
    by (unfold entitiesOf; rewrite HW'; exact Ee).
  assert (Hold : entitiesOf g = World.entities w)
    by (unfold entitiesOf; rewrite Hw; reflexivity).
  unfold live. rewrite Hents, Ec, Hold.
  unfold tickWorld, tickState, accrue, resolveCollisions. cbn zeta.
  destruct (simulate timestamp env g w) as [[w1 log1] c1]. cbn [fst snd] in *.
  cbn [World.entities World.with_score].
  pose proof (pass_account (Game.audioRef g) (Game.frameRef g + 1)%Z (Env.perfNow env)
                (World.entities w1) w1 log1) as (_ & _ & Hafter).
  set (w2 := fst (fold_left _ (World.entities w1) (w1, log1))) in *.
  set (got := filter (picks (Game.frameRef g + 1)%Z (World.player w1)) (World.entities w1)) in *.
  split; [apply filter_ids_NoDup; exact Snd|].
  split; [|split].
  - intros i Hi [Hin | Hlt].
    + apply in_map_iff in Hi. destruct Hi as (e & <- & He).
      apply in_map_iff in Hin. destruct Hin as (a & Ha & Hina).
      apply Hafter in Hina. destruct Hina as [_ Hne]. exact (Hne e He Ha).
    + apply in_map_iff in Hi. destruct Hi as (e & <- & He).
      apply filter_In in He. destruct He as [He _].
      apply Sids in He. lia.
  - intros i Hi. apply in_map_iff in Hi. destruct Hi as (e & <- & He).
    apply filter_In in He. destruct He as [He _].
    destruct (Sids e He) as [_ [(e0 & He0 & Hid) | Hfresh]].
    + left. rewrite <- Hid. apply in_map. exact He0.
    + right. exact Hfresh.
  - intros i [Hin | Hlt].
    + apply in_map_iff in Hin. destruct Hin as (a & <- & Hina).
      apply Hafter in Hina. destruct Hina as [Hina _].
      destruct (Sids a Hina) as [_ [(e0 & He0 & Hid) | Hfresh]].
      * left. rewrite <- Hid. apply in_map. exact He0.
      * right. exact Hfresh.
    + right. lia.
Qed.

Lemma live_step_back (g : Game.t) (ev : Event) (i : Z) :
  wellFormed g -> live (step g ev) i -> live g i.
Proof.
  intros Hwf.
  destruct ev as [n ts env | env | env | env | type | | | code env | code | value];
    cbn [step].
  - destruct (Game.worldRef g) as [w|] eqn:Hw.
    + destruct (GameStatus_eqb (World.status w) running) eqn:Hs.
      * apply GameStatus_eqb_eq in Hs.
        destruct (renderFrame_ids n ts env g w Hwf Hw Hs) as (_ & _ & _ & Hback).
        apply Hback.
      * apply GameStatus_eqb_neq in Hs.
        rewrite renderFrame_not_running; [auto|].
        intros w0 Hw0. rewrite Hw in Hw0. apply Some_eq in Hw0. subst w0. exact Hs.
    + rewrite renderFrame_not_running; [auto|]. intros w0 Hw0. congruence.
  - unfold live. pose proof (startGame_arena env g) as H. unfold arena in H.
    injection H as -> ->. cbn. tauto.
  - apply live_arena, togglePause_arena.
  - unfold restartGame, live. pose proof (startGame_arena env (stopAudio g)) as H.
    unfold arena in H. injection H as -> ->. rewrite stopAudio_uniqueId. cbn. tauto.
  - apply live_arena, applyUpgrade_arena.
  - apply live_arena. reflexivity.
  - apply live_arena, syncShield_arena.
  - apply live_arena, handleKeyDown_arena.
  - apply live_arena, handleKeyUp_arena.
  - apply live_arena. reflexivity.
Qed.

Lemma pickedBy_spec (g : Game.t) (ev : Event) :
  wellFormed g ->
  NoDup (pickedBy g ev)
  /\ (forall i, In i (pickedBy g ev) -> live g i /\ ~ live (step g ev) i).
Proof.
  intro Hwf.
  destruct ev as [n ts env | env | env | env | type | | | code env | code | value];
    cbn [pickedBy step]; try (split; [constructor | intros i []]).
  unfold pickedUp.
  destruct (Game.worldRef g) as [w|] eqn:Hw; [|split; [constructor | intros i []]].
  destruct (GameStatus_eqb (World.status w) running) eqn:Hs;
    [|split; [constructor | intros i []]].
  apply GameStatus_eqb_eq in Hs.
  destruct (renderFrame_ids n ts env g w Hwf Hw Hs) as (Hnd & Hdead & Hlive & _).
  unfold pickedUp in Hnd, Hdead, Hlive. rewrite Hw, Hs in Hnd, Hdead, Hlive.
  cbn [GameStatus_eqb] in Hnd, Hdead, Hlive.
  split; [exact Hnd|]. intros i Hi. split; [apply Hlive | apply Hdead]; exact Hi.
Qed.

Lemma pickedAlong_live (evs : list Event) :
  forall g i, wellFormed g -> In i (pickedAlong g evs) -> live g i.
Proof.
  induction evs as [|ev evs IH]; intros g i Hwf Hi; cbn in Hi; [destruct Hi|].
  apply in_app_or in Hi. destruct Hi as [Hi | Hi].
  - destruct (pickedBy_spec g ev Hwf) as [_ H]. apply H. exact Hi.
  - apply (live_step_back g ev i Hwf).
    apply (IH (step g ev) i); [apply wellFormed_step; exact Hwf | exact Hi].
Qed.

Lemma pickedAlong_NoDup (evs : list Event) :
  forall g, wellFormed g -> NoDup (pickedAlong g evs).
Proof.
  induction evs as [|ev evs IH]; intros g Hwf; cbn; [constructor|].
  destruct (pickedBy_spec g ev Hwf) as [Hnd Hspec].
  apply NoDup_app; [exact Hnd | apply IH, wellFormed_step, Hwf |].
  intros i Hi Hi'. destruct (Hspec i Hi) as [_ Hdead].
  apply Hdead. apply (pickedAlong_live evs); [apply wellFormed_step; exact Hwf | exact Hi'].
Qed.

(** C3. Each data packet is picked up at most once.  Within a tick the
    collision pass visits every element of the walked array once, so the
    score goes up by 120 and the upgrade points by 1 for each overlapping
    packet of that array (on top of the time accrual), and no entity left
    after the tick carries the identifier of a packet picked up.  Across
    ticks, and across runs, the identifiers picked up along any sequence of
    events from a mounted component are pairwise distinct: an identifier
    picked up once is never picked up again. *)
Theorem pickup_at_most_once :
  (forall playerName timestamp env g w,
      Game.worldRef g = Some w ->
      World.status w = running ->
      exists w',
        Game.worldRef (renderFrame playerName timestamp env g) = Some w'
        /\ World.upgradePoints w'
           = (World.upgradePoints w + Z.of_nat (List.length (pickedUp timestamp env g)))%Z
        /\ World.score w'
           == World.score w + 120 * count (pickedUp timestamp env g)
              + (timestamp - World.lastFrame w) * 0.35
                * LevelConfig.speedScale (getLevel (World.score w))
        /\ (forall a, In a (World.entities w') ->
              ~ In (Entity.id a) (pickedUp timestamp env g)))
  /\ (forall g evs, reachable g ->
        NoDup (pickedAlong g evs)
        /\ (forall ev i, In i (pickedBy g ev) ->
              ~ In i (pickedAlong (step g ev) evs)))
  /\ (forall stored storedName evs,
        NoDup (pickedAlong (mount stored storedName) evs)).
Proof.
  split; [|split].
  - intros playerName timestamp env g w Hw Hs.
    destruct (renderFrame_result playerName timestamp env g w Hw Hs)
      as (W' & HW' & _ & _ & Ee & Esc & Epts & _).
    exists W'. split; [exact HW'|]. rewrite Ee, Esc, Epts.
    unfold pickedUp. rewrite Hw, Hs. cbn [GameStatus_eqb]. cbn zeta.
    unfold count. rewrite !length_map.
    unfold tickWorld, tickState, accrue, resolveCollisions. cbn zeta.
    destruct (simulate_frame timestamp env g w) as (_ & Fscore & Fpts & _).
    destruct (simulate timestamp env g w) as [[w1 log1] c1]. cbn [fst snd] in *.
    cbn [World.score World.upgradePoints World.entities World.with_score].
    pose proof (pass_account (Game.audioRef g) (Game.frameRef g + 1)%Z (Env.perfNow env)
                  (World.entities w1) w1 log1) as (Hscore & Hpts & Hafter).
    repeat split.
    + rewrite Hpts, Fpts. reflexivity.
    + rewrite Hscore, Fscore. reflexivity.
    + intros a Ha Hin. apply in_map_iff in Hin. destruct Hin as (e & Hid & He).
      apply Hafter in Ha. destruct Ha as [_ Hne]. apply (Hne e He). congruence.
  - intros g evs Hreach. apply wellFormed_reachable in Hreach. split.
    + apply pickedAlong_NoDup. exact Hreach.
    + intros ev i Hi Hi'.
      destruct (pickedBy_spec g ev Hreach) as [_ Hspec].
      destruct (Hspec i Hi) as [_ Hdead]. apply Hdead.
      apply (pickedAlong_live evs); [apply wellFormed_step; exact Hreach | exact Hi'].
  - intros stored storedName evs. apply pickedAlong_NoDup, wellFormed_mount.
Qed.

(** * Further properties of the code *)

(** ** Clamping (line 115) *)

Lemma clamp_cases (value min max : Q) :
  min <= max ->
  (value < min /\ clamp value min max == min)
  \/ (min <= value <= max /\ clamp value min max == value)
  \/ (max < value /\ clamp value min max == max).
Proof.
  clear sin PI.
  intro Hmm. unfold clamp.
  destruct (Q.min_spec max value) as [[H1 E1] | [H1 E1]];
    destruct (Q.max_spec min (Qmin max value)) as [[H2 E2] | [H2 E2]];
    rewrite E1 in *; rewrite E2.
  - right. right. split; [lra | reflexivity].
  - right. right. split; [lra | lra].
  - right. left. split; [lra | reflexivity].
  - destruct (Qlt_le_dec value min) as [Hlt | Hge].
    + left. split; [exact Hlt | reflexivity].
    + right. left. split; [lra | lra].
Qed.

(** X1. [clamp] never returns less than [min], whatever the bounds; with
    [min <= max] the result lies in [[min, max]], is the value itself when
    the value is in range, and is the nearer bound otherwise. *)
Theorem clamp_bounds (value min max : Q) :
  min <= clamp value min max
  /\ (min <= max ->
      clamp value min max <= max
      /\ (min <= value <= max -> clamp value min max == value)
      /\ (value <= min -> clamp value min max == min)
      /\ (max <= value -> clamp value min max == max)).
Proof.
  clear sin PI.
  split; [unfold clamp; apply Q.le_max_l|].
  intro Hmm.
  destruct (clamp_cases value min max Hmm) as [[H E] | [[H E] | [H E]]];
    rewrite E; repeat split; intros; try lra.
Qed.

(** ** Horizontal motion (lines 443-473) *)

Lemma inject_Z_nonneg (z : Z) : (0 <= z)%Z -> 0 <= inject_Z z.
Proof. clear sin PI. intro H. unfold Qle. simpl. lia. Qed.

(** The steering block changes the horizontal position and velocity only;
    the new position is the old one moved by the new velocity and clamped to
    the playfield margins. *)
Lemma steer_shape (u : UpgradeState.t) (i : Inputs.t) (d : Q) (p : Player.t) :
  steer u i d p
  = Player.mk
      (clamp (Player.x p + Player.vx (steer u i d p) * d) 60
         (CANVAS_WIDTH - Player.width p - 80))
      (Player.y p) (Player.width p) (Player.height p) (Player.vy p)
      (Player.vx (steer u i d p)) (Player.onGround p)
      (Player.shieldCharges p) (Player.invulnerableUntil p).
Proof.
  unfold steer. cbn zeta.
  repeat match goal with
  | |- context [if ?c then _ else _] => destruct c
  end; reflexivity.
Qed.

(** X2. With the player no wider than the playfield between its margins, the
    steering block always leaves it between the margins: 60 on the left,
    80 before the right edge. *)
Theorem steer_keeps_player_in_playfield (u : UpgradeState.t) (i : Inputs.t) (d : Q)
    (p : Player.t) :
  Player.width p <= 820 ->
  60 <= Player.x (steer u i d p)
  /\ Player.x (steer u i d p) + Player.width p <= CANVAS_WIDTH - 80.
Proof.
  intro Hw. rewrite steer_shape. cbn [Player.x].
  assert (Hmm : 60 <= CANVAS_WIDTH - Player.width p - 80)
    by (unfold CANVAS_WIDTH; lra).
  destruct (clamp_bounds (Player.x p + Player.vx (steer u i d p) * d) 60
              (CANVAS_WIDTH - Player.width p - 80)) as [Hlo Hrest].
  destruct (Hrest Hmm) as [Hhi _].
  split; [exact Hlo | lra].
Qed.

(** X3. The steering block never lets the horizontal speed exceed the top speed
    of the current upgrade level: after it the speed is within the bound
    whenever a direction key is held, and otherwise whenever it was before
    (friction only slows the player down). *)
Theorem steer_respects_top_speed (u : UpgradeState.t) (i : Inputs.t) (d : Q)
    (p : Player.t) :
  (0 <= UpgradeState.speed u)%Z ->
  (Inputs.left i = true \/ Inputs.right i = true
   \/ Qabs (Player.vx p) <= maxSpeedOf u) ->
  Qabs (Player.vx (steer u i d p)) <= maxSpeedOf u.
Proof.
  intros Hs Hcase. apply inject_Z_nonneg in Hs. unfold maxSpeedOf in *.
  set (S := inject_Z (UpgradeState.speed u)) in *.
  assert (Hmm : - (9 + S * 1.2) <= 9 + S * 1.2) by lra.
  assert (Hclamp : forall v, Qabs (clamp v (- (9 + S * 1.2)) (9 + S * 1.2)) <= 9 + S * 1.2).
  { intro v. apply Qabs_Qle_condition.
    destruct (clamp_bounds v (- (9 + S * 1.2)) (9 + S * 1.2)) as [Hlo Hrest].
    destruct (Hrest Hmm) as [Hhi _]. split; assumption. }
  assert (Hfloor : Qabs ((5 + S * 1.4) * 0.6) <= 9 + S * 1.2)
    by (apply Qabs_Qle_condition; split; lra).
  unfold steer. cbn zeta. fold S.
  destruct (Inputs.left i) eqn:El.
  - cbn [Player.vx Player.with_vx Player.with_x].
    repeat match goal with
    | |- context [if ?c then _ else _] => destruct c
    end; cbn [Player.vx Player.with_vx Player.with_x]; auto.
  - destruct (Inputs.right i) eqn:Er.
    + cbn [Player.vx Player.with_vx Player.with_x].
      repeat match goal with
      | |- context [if ?c then _ else _] => destruct c
      end; cbn [Player.vx Player.with_vx Player.with_x]; auto.
    + destruct Hcase as [Hc | [Hc | Hc]]; try discriminate.
      rewrite andb_false_r.
      cbn [Player.vx Player.with_vx Player.with_x].
      destruct (Qabs (Player.vx p * 0.92) <? 0.15);
        cbn [Player.vx Player.with_vx Player.with_x].
      * apply Qabs_Qle_condition. split; lra.
      * rewrite Qabs_Qmult.
        assert (Qabs 0.92 == 0.92) by reflexivity.
        pose proof (Qabs_nonneg (Player.vx p)). nra.
Qed.

(** ** Gravity and landing (lines 484-491) *)

(** X4. After the gravity block the player is never below the ground plane.
    When the fall reaches the plane the player is put on it with no vertical
    velocity and the ground flag set; otherwise the velocity has gained
    GRAVITY * deltaScale, the position has moved by the new velocity, and
    the ground flag is as it was.  Nothing else changes. *)
Theorem fall_lands_on_ground (deltaScale : Q) (p : Player.t) :
  let vy' := Player.vy p + GRAVITY * deltaScale in
  let y' := Player.y p + vy' * deltaScale in
  Player.y (fall deltaScale p) <= groundYOf p
  /\ (groundYOf p <= y' ->
      fall deltaScale p
      = Player.with_onGround true (Player.with_vy 0 (Player.with_y (groundYOf p) p)))
  /\ (y' < groundYOf p ->
      fall deltaScale p = Player.with_y y' (Player.with_vy vy' p)).
Proof.
  cbn zeta. unfold fall, groundYOf. cbn zeta.
  cbn [Player.vy Player.y Player.height Player.with_vy Player.with_y].
  destruct (CANVAS_HEIGHT - GROUND_HEIGHT - Player.height p
            <=? Player.y p + (Player.vy p + GRAVITY * deltaScale) * deltaScale) eqn:E;
    qprop; cbn [Player.y Player.with_onGround Player.with_vy Player.with_y];
    repeat split; intros; try reflexivity; try lra.
Qed.

(** ** The player through a collision pass *)

Lemma sameBody_refl (p : Player.t) : sameBody p p.
Proof. clear sin PI. unfold sameBody. destruct p. reflexivity. Qed.

Lemma sameBody_fields (p p' : Player.t) :
  sameBody p p' ->
  Player.x p' = Player.x p /\ Player.y p' = Player.y p
  /\ Player.width p' = Player.width p /\ Player.height p' = Player.height p
  /\ Player.vx p' = Player.vx p /\ Player.vy p' = Player.vy p
  /\ Player.onGround p' = Player.onGround p.
Proof.
  clear sin PI. unfold sameBody. intro H. rewrite <- H. cbn. repeat split; reflexivity.
Qed.

(** The collision pass touches the player only in its shield-charge count
    and its invulnerability expiry. *)
Lemma pass_sameBody (audio : option AudioHandles.t) (frame : Z) (timeNow : Q)
    (l : list Entity.t) :
  forall (w : World.t) (log : list Tone.t),
    sameBody (World.player w)
      (World.player (fst (fold_left (onEntity audio frame timeNow) l (w, log)))).
Proof.
  induction l as [|e l IH]; intros w log; cbn [fold_left fst]; [apply sameBody_refl|].
  destruct (onEntity_cases audio frame timeNow w log e)
    as [(_ & ->) | [(_ & _ & ->) | [(_ & _ & _ & ->) | [(_ & _ & _ & _ & ->) | (_ & _ & _ & _ & ->)]]]].
  - apply IH.
  - exact (IH (collected e w) _).
  - apply IH.
  - specialize (IH (absorbed timeNow e w) (playTone audio 160 0.3 sawtooth log)).
    apply sameBody_fields in IH. unfold sameBody.
    generalize dependent (World.player
      (fst (fold_left (onEntity audio frame timeNow) l
              (absorbed timeNow e w, playTone audio 160 0.3 sawtooth log)))).
    intros pf IH. cbn in IH. destruct IH as (Hx & Hy & Hw & Hh & Hvx & Hvy & Hg).
    remember (World.player w) as pw eqn:Epw. clear Epw.
    destruct pf, pw. cbn in *. subst. reflexivity.
  - exact (IH (World.with_status over w) _).
Qed.

(** ** The player after each callback *)

Lemma reachable_step (g : Game.t) (ev : Event) : reachable g -> reachable (step g ev).
Proof.
  intros (stored & storedName & evs & ->).
  exists stored, storedName, (evs ++ [ev]).
  unfold run. rewrite fold_left_app. reflexivity.
Qed.

(** Induction over the reachable states. *)
Lemma reachable_ind (P : Game.t -> Prop) :
  (forall stored storedName, P (mount stored storedName)) ->
  (forall g ev, reachable g -> P g -> P (step g ev)) ->
  forall g, reachable g -> P g.
Proof.
  intros Hmount Hstep g (stored & storedName & evs & ->).
  induction evs as [|ev evs IH] using rev_ind.
  - apply Hmount.
  - unfold run in *. rewrite fold_left_app. cbn [fold_left].
    apply Hstep; [|exact IH].
    exists stored, storedName, evs. reflexivity.
Qed.

(** The player the collision pass of a tick starts from: steered, then
    possibly launched by the jump block, then moved by gravity. *)
Lemma simulate_player (timestamp : Q) (env : Env.t) (g : Game.t) (w : World.t) :
  let d := (timestamp - World.lastFrame w) / (1000 / 60) in
  let steered := steer (Game.upgradesRef g) (World.inputs w) d (World.player w) in
  World.player (fst (fst (simulate timestamp env g w))) = fall d steered
  \/ World.player (fst (fst (simulate timestamp env g w)))
     = fall d
         (Player.with_onGround false
            (Player.with_vy (- (12 + inject_Z (UpgradeState.jump (Game.upgradesRef g)) * 1.8))
               steered)).
Proof.
  cbn zeta. rewrite simulate_eq. cbn [fst snd].
  set (d := (timestamp - World.lastFrame w) / (1000 / 60)).
  set (lvl := getLevel (World.score w)).
  set (w0 := move (Game.upgradesRef g) d
               (World.with_level (LevelConfig.level lvl) (World.with_lastFrame timestamp w))).
  set (wj := fst (jump (Game.upgradesRef g) (Game.audioRef g) (w0, Game.tones g))).
  destruct (spawnDue_spec timestamp env lvl (land d wj) (Game.uniqueId g))
    as (added & ls & Hsp & _).
  rewrite Hsp. unfold scroll, land.
  cbn [World.player World.with_entities World.with_lastSpawn World.with_player World.entities].
  subst wj. unfold jump.
  destruct (Inputs.jumpQueued (World.inputs w0) && Player.onGround (World.player w0));
    cbn [fst World.player World.with_player World.with_inputs]; [right | left]; reflexivity.
Qed.

Lemma step_player_cases (g : Game.t) (ev : Event) :
  playerOf (step g ev) = playerOf g
  \/ (exists sc, playerOf (step g ev) = Some (initialPlayer sc))
  \/ (exists p sc,
        playerOf g = Some p
        /\ playerOf (step g ev) = Some (Player.with_shieldCharges sc p))
  \/ (exists playerName timestamp env w,
        ev = Frame playerName timestamp env
        /\ Game.worldRef g = Some w
        /\ World.status w = running
        /\ playerOf (step g ev) = Some (World.player (tickWorld timestamp env g w))).
Proof.
  destruct ev as [n ts env | env | env | env | type | | | code env | code | value];
    cbn [step].
  - destruct (Game.worldRef g) as [w|] eqn:Hw.
    + destruct (GameStatus_eqb (World.status w) running) eqn:Hs.
      * apply GameStatus_eqb_eq in Hs. right. right. right.
        exists n, ts, env, w. repeat split; auto.
        destruct (renderFrame_result n ts env g w Hw Hs) as (W' & HW' & _ & Ep & _).
        unfold playerOf. rewrite HW'. cbn. rewrite Ep. reflexivity.
      * apply GameStatus_eqb_neq in Hs. left.
        rewrite renderFrame_not_running; [reflexivity|].
        intros w0 Hw0. rewrite Hw in Hw0. apply Some_eq in Hw0. subst w0. exact Hs.
    + left. rewrite renderFrame_not_running; [reflexivity|]. intros w0 Hw0. congruence.
  - right. left. exists (1 + UpgradeState.shield (Game.upgradesRef g))%Z.
    unfold playerOf, startGame, startLoop, updateHud.
    audio_shape. reflexivity.
  - left. apply togglePause_playerOf.
  - right. left. exists (1 + UpgradeState.shield (Game.upgradesRef (stopAudio g)))%Z.
    unfold restartGame, playerOf, startGame, startLoop, updateHud.
    audio_shape. reflexivity.
  - destruct type; try (left; apply applyUpgrade_player; discriminate).
    unfold playerOf, applyUpgrade.
    destruct (Game.worldRef g) as [w|] eqn:Hw; [|left; rewrite Hw; reflexivity].
    destruct (GameStatus_eqb (World.status w) idle); [left; rewrite Hw; reflexivity|].
    destruct (World.upgradePoints w <? _)%Z; [left; rewrite Hw; reflexivity|].
    right. right. left. eexists. eexists. split; reflexivity.
  - left. reflexivity.
  - unfold playerOf, syncShield.
    destruct (Game.worldRef g) as [w|] eqn:Hw; [|left; rewrite Hw; reflexivity].
    destruct (Player.shieldCharges (World.player w) <? _)%Z; [|left; rewrite Hw; reflexivity].
    right. right. left. eexists. eexists. split; reflexivity.
  - left. apply handleKeyDown_playerOf.
  - left. apply handleKeyUp_playerOf.
  - left. reflexivity.
Qed.

(** ** The player stays in the playfield *)

(** A tick of a running world whose player has the size the game gives it
    (48 by 72) ends with the player inside the horizontal margins and not
    below the ground plane, whatever its position before, the keys held and
    the time elapsed. *)
Lemma tick_player_in_playfield (timestamp : Q) (env : Env.t) (g : Game.t) (w : World.t) :
  Player.width (World.player w) = 48 ->
  Player.height (World.player w) = 72 ->
  let p' := World.player (tickWorld timestamp env g w) in
  Player.width p' = 48 /\ Player.height p' = 72
  /\ 60 <= Player.x p' <= 832 /\ Player.y p' <= 348.
Proof.
  intros Hwd Hht. cbn zeta.
  unfold tickWorld, tickState, accrue, resolveCollisions. cbn zeta.
  cbn [World.player World.with_score].
  pose proof (simulate_player timestamp env g w) as Hsim. cbn zeta in Hsim.
  destruct (simulate timestamp env g w) as [[w1 log1] c1]. cbn [fst snd] in *.
  pose proof (pass_sameBody (Game.audioRef g) (Game.frameRef g + 1)%Z (Env.perfNow env)
                (World.entities w1) w1 log1) as Hbody.
  apply sameBody_fields in Hbody.
  destruct Hbody as (Hx & Hy & Hw' & Hh' & _).
  rewrite Hx, Hy, Hw', Hh'.
  set (d := (timestamp - World.lastFrame w) / (1000 / 60)) in *.
  set (steered := steer (Game.upgradesRef g) (World.inputs w) d (World.player w)) in *.
  assert (Hsw : Player.width steered = 48 /\ Player.height steered = 72
                /\ 60 <= Player.x steered <= 832).
  { assert (Hle : Player.width (World.player w) <= 820) by (rewrite Hwd; lra).
    destruct (steer_keeps_player_in_playfield (Game.upgradesRef g) (World.inputs w) d
                (World.player w) Hle) as [Hlo Hhi].
    fold steered in Hlo, Hhi. unfold CANVAS_WIDTH in Hhi. rewrite Hwd in Hhi.
    subst steered. rewrite steer_shape. cbn [Player.width Player.height Player.x].
    rewrite steer_shape in Hlo, Hhi. cbn [Player.x] in Hlo, Hhi.
    repeat split; auto. lra. }
  destruct Hsw as (Sw & Sh & Sx).
  assert (Hfall : forall q, Player.width q = 48 -> Player.height q = 72 ->
                  60 <= Player.x q <= 832 ->
                  Player.width (fall d q) = 48 /\ Player.height (fall d q) = 72
                  /\ 60 <= Player.x (fall d q) <= 832 /\ Player.y (fall d q) <= 348).
  { intros q Qw Qh Qx.
    destruct (fall_lands_on_ground d q) as (Hy' & _ & _).
    unfold groundYOf, CANVAS_HEIGHT, GROUND_HEIGHT in Hy'. rewrite Qh in Hy'.
    unfold fall. cbn zeta.
    match goal with |- context [if ?c then _ else _] => destruct c eqn:E end;
      unfold fall in Hy'; cbn zeta in Hy'; rewrite E in Hy';
      cbn in *; repeat split; auto; lra. }
  destruct Hsim as [-> | ->]; apply Hfall; cbn; auto.
Qed.

(** X5. In every state the component can reach, the player of the run has its
    48 by 72 box, stands between the horizontal margins of the playfield
    (60 <= x <= 832 = 960 - 48 - 80) and is never below the ground plane
    (y <= 348 = 540 - 120 - 72). *)
Theorem player_stays_in_playfield (g : Game.t) :
  reachable g ->
  forall w, Game.worldRef g = Some w ->
    Player.width (World.player w) = 48
    /\ Player.height (World.player w) = 72
    /\ 60 <= Player.x (World.player w) <= 832
    /\ Player.y (World.player w) <= 348.
Proof.
  intro Hreach.
  enough (H : match playerOf g with
              | Some p => Player.width p = 48 /\ Player.height p = 72
                          /\ 60 <= Player.x p <= 832 /\ Player.y p <= 348
              | None => True
              end).
  { intros w Hw. unfold playerOf in H. rewrite Hw in H. exact H. }
  induction Hreach as [stored storedName | g ev Hreach IH] using reachable_ind.
  - exact I.
  - destruct (step_player_cases g ev)
      as [-> | [(sc & ->) | [(p & sc & Hp & ->) | (n & ts & env & w & -> & Hw & Hs & ->)]]].
    + exact IH.
    + cbn. unfold CANVAS_HEIGHT, GROUND_HEIGHT. repeat split; lra.
    + rewrite Hp in IH. exact IH.
    + unfold playerOf in IH. rewrite Hw in IH. cbn in IH.
      destruct IH as (Hwd & Hht & _).
      apply tick_player_in_playfield; assumption.
Qed.

(** ** Upgrade levels *)

Lemma togglePause_upgradesRef (env : Env.t) (g : Game.t) :
  Game.upgradesRef (togglePause env g) = Game.upgradesRef g.
Proof.
  unfold togglePause, stopAudio, startLoop.
  destruct (Game.worldRef g) as [w|]; [|reflexivity].
  destruct (GameStatus_eqb (World.status w) running);
    [| destruct (GameStatus_eqb (World.status w) paused) ];
    audio_shape; cbn; destruct (Game.audioRef g); reflexivity.
Qed.

Lemma setInputs_upgradesRef (f : Inputs.t -> Inputs.t) (g : Game.t) :
  Game.upgradesRef (setInputs f g) = Game.upgradesRef g.
Proof. unfold setInputs. destruct (Game.worldRef g); reflexivity. Qed.

Lemma handleKeyDown_upgradesRef (code : string) (env : Env.t) (g : Game.t) :
  Game.upgradesRef (handleKeyDown code env g) = Game.upgradesRef g.
Proof.
  unfold handleKeyDown. destruct (Game.worldRef g); [|reflexivity].
  repeat match goal with
  | |- context [if ?b then _ else _] => destruct b
  end;
  rewrite ?togglePause_upgradesRef, ?setInputs_upgradesRef; reflexivity.
Qed.

Lemma handleKeyUp_upgradesRef (code : string) (g : Game.t) :
  Game.upgradesRef (handleKeyUp code g) = Game.upgradesRef g.
Proof.
  unfold handleKeyUp. destruct (Game.worldRef g); [|reflexivity].
  repeat match goal with
  | |- context [if ?b then _ else _] => destruct b
  end;
  rewrite ?setInputs_upgradesRef; reflexivity.
Qed.

Lemma startGame_upgradesRef (env : Env.t) (g : Game.t) :
  Game.upgradesRef (startGame env g) = Game.upgradesRef g.
Proof.
  unfold startGame, startLoop, updateHud.
  audio_shape. reflexivity.
Qed.

Lemma stopAudio_upgradesRef (g : Game.t) :
  Game.upgradesRef (stopAudio g) = Game.upgradesRef g.
Proof. unfold stopAudio. destruct (Game.audioRef g); reflexivity. Qed.

Lemma renderFrame_upgradesRef (playerName : string) (timestamp : Q) (env : Env.t)
    (g : Game.t) :
  Game.upgradesRef (renderFrame playerName timestamp env g) = Game.upgradesRef g.
Proof.
  destruct (Game.worldRef g) as [w|] eqn:Hw.
  - destruct (GameStatus_eqb (World.status w) running) eqn:Hs.
    + apply GameStatus_eqb_eq in Hs.
      destruct (renderFrame_result playerName timestamp env g w Hw Hs)
        as (_ & _ & _ & _ & _ & _ & _ & _ & _ & Er & _).
      exact Er.
    + apply GameStatus_eqb_neq in Hs.
      rewrite renderFrame_not_running; [reflexivity|].
      intros w0 Hw0. rewrite Hw in Hw0. apply Some_eq in Hw0. subst w0. exact Hs.
  - rewrite renderFrame_not_running; [reflexivity|]. intros w0 Hw0. congruence.
Qed.

(** What a callback does to the upgrade levels: nothing, or, for a purchase
    that goes through, one more level in the category bought. *)
Lemma step_upgradesRef (g : Game.t) (ev : Event) :
  Game.upgrades g = Game.upgradesRef g ->
  Game.upgradesRef (step g ev) = Game.upgradesRef g
  \/ (exists type,
        ev = Upgrade type
        /\ Game.upgradesRef (step g ev)
           = UpgradeState.set type (UpgradeState.get type (Game.upgradesRef g) + 1)%Z
               (Game.upgradesRef g)).
Proof.
  intro Hsync.
  destruct ev as [n ts env | env | env | env | type | | | code env | code | value];
    cbn [step].
  - left. apply renderFrame_upgradesRef.
  - left. apply startGame_upgradesRef.
  - left. apply togglePause_upgradesRef.
  - left. unfold restartGame. rewrite startGame_upgradesRef. apply stopAudio_upgradesRef.
  - unfold applyUpgrade.
    destruct (Game.worldRef g) as [w|]; [|left; reflexivity].
    destruct (GameStatus_eqb (World.status w) idle); [left; reflexivity|].
    destruct (World.upgradePoints w <? _)%Z; [left; reflexivity|].
    right. exists type. split; [reflexivity|]. destruct type; reflexivity.
  - left. exact Hsync.
  - left. unfold syncShield. destruct (Game.worldRef g) as [w|]; [|reflexivity].
    destruct (Player.shieldCharges (World.player w) <? _)%Z; reflexivity.
  - left. apply handleKeyDown_upgradesRef.
  - left. apply handleKeyUp_upgradesRef.
  - left. reflexivity.
Qed.

(** X6. Upgrade levels are kept for the whole session and only ever grow.  In
    every reachable state the speed and jump levels are at least 0 and the
    shield level at least 1 (their values at mount); no callback lowers a
    level; the only callback that raises one is a purchase, by exactly one
    level in the category bought; and starting or restarting a run keeps
    all three. *)
Theorem upgrade_levels_only_grow (g : Game.t) :
  reachable g ->
  ((0 <= UpgradeState.speed (Game.upgradesRef g))%Z
   /\ (0 <= UpgradeState.jump (Game.upgradesRef g))%Z
   /\ (1 <= UpgradeState.shield (Game.upgradesRef g))%Z
   /\ Game.upgrades g = Game.upgradesRef g)
  /\ (forall ev type,
        (UpgradeState.get type (Game.upgradesRef g)
         <= UpgradeState.get type (Game.upgradesRef (step g ev)))%Z
        /\ (UpgradeState.get type (Game.upgradesRef (step g ev))
            <> UpgradeState.get type (Game.upgradesRef g) ->
            ev = Upgrade type
            /\ UpgradeState.get type (Game.upgradesRef (step g ev))
               = (UpgradeState.get type (Game.upgradesRef g) + 1)%Z))
  /\ (forall env,
        Game.upgradesRef (startGame env g) = Game.upgradesRef g
        /\ Game.upgradesRef (restartGame env g) = Game.upgradesRef g).
Proof.
  intro Hreach. apply wellFormed_reachable in Hreach.
  destruct Hreach as (Hup & H1 & H2 & H3 & _).
  split; [auto|]. split.
  - intros ev type.
    destruct (step_upgradesRef g ev Hup) as [-> | (type' & -> & Hset)].
    + split; [lia | congruence].
    + cbn [step] in *. rewrite Hset.
      destruct type, type'; cbn; split; try lia; intro Hne; try congruence; auto.
  - intro env. split; [apply startGame_upgradesRef|].
    unfold restartGame. rewrite startGame_upgradesRef. apply stopAudio_upgradesRef.
Qed.

(** ** Top speed *)

Lemma fall_vx (d : Q) (p : Player.t) : Player.vx (fall d p) = Player.vx p.
Proof.
  unfold fall. cbn zeta.
  match goal with |- context [if ?c then _ else _] => destruct c end; reflexivity.
Qed.

(** X7. In every reachable state the horizontal speed of the player is within
    the top speed of the current speed level, 9 + 1.2 * level. *)
Theorem speed_never_exceeds_top_speed (g : Game.t) :
  reachable g ->
  forall w, Game.worldRef g = Some w ->
    Qabs (Player.vx (World.player w)) <= maxSpeedOf (Game.upgradesRef g).
Proof.
  intro Hreach.
  enough (H : match playerOf g with
              | Some p => Qabs (Player.vx p) <= maxSpeedOf (Game.upgradesRef g)
              | None => True
              end).
  { intros w Hw. unfold playerOf in H. rewrite Hw in H. exact H. }
  induction Hreach as [stored storedName | g ev Hreach IH] using reachable_ind.
  - exact I.
  - pose proof (wellFormed_reachable g Hreach) as (Hup & H1 & _).
    assert (Hmax : maxSpeedOf (Game.upgradesRef g)
                   <= maxSpeedOf (Game.upgradesRef (step g ev))).
    { destruct (step_upgradesRef g ev Hup) as [-> | (type & _ & ->)]; [lra|].
      unfold maxSpeedOf.
      destruct type; cbn [UpgradeState.speed UpgradeState.set UpgradeState.get]; try lra.
      rewrite inject_Z_plus. change (inject_Z 1) with 1. lra. }
    destruct (step_player_cases g ev)
      as [-> | [(sc & ->) | [(p & sc & Hp & ->) | (n & ts & env & w & -> & Hw & Hs & ->)]]].
    + destruct (playerOf g); [lra | exact I].
    + change (Qabs (Player.vx (initialPlayer sc))) with 0. unfold maxSpeedOf.
      assert (0 <= inject_Z (UpgradeState.speed (Game.upgradesRef (step g ev)))).
      { apply inject_Z_nonneg.
        pose proof (wellFormed_reachable _ (reachable_step g ev Hreach)) as (_ & K & _).
        exact K. }
      lra.
    + rewrite Hp in IH. cbn [Player.vx Player.with_shieldCharges]. lra.
    + cbn [step]. rewrite renderFrame_upgradesRef.
      unfold playerOf in IH. rewrite Hw in IH. cbn in IH.
      unfold tickWorld, tickState, accrue, resolveCollisions. cbn zeta.
      cbn [World.player World.with_score].
      pose proof (simulate_player ts env g w) as Hsim. cbn zeta in Hsim.
      destruct (simulate ts env g w) as [[w1 log1] c1]. cbn [fst snd] in *.
      pose proof (pass_sameBody (Game.audioRef g) (Game.frameRef g + 1)%Z (Env.perfNow env)
                    (World.entities w1) w1 log1) as Hbody.
      apply sameBody_fields in Hbody. destruct Hbody as (_ & _ & _ & _ & Hvx & _).
      rewrite Hvx.
      assert (Hsteer := steer_respects_top_speed (Game.upgradesRef g) (World.inputs w)
                          ((ts - World.lastFrame w) / (1000 / 60)) (World.player w) H1
                          (or_intror (or_intror IH))).
      destruct Hsim as [-> | ->]; rewrite fall_vx; exact Hsteer.
Qed.

(** ** The overlap test (lines 522-528) *)

(** X8. The overlap test is the strict overlap of the player's box with
    the entity's box: on both axes for a firewall or a virus, and for a data
    packet with the box moved vertically to its bobbing height,
    sin(frame / 6 + phase) * 4 below its y (phase 0 when there is none).
    So an entity that has not reached the player's right edge, or has
    passed its left edge, never collides; a firewall or virus entirely above
    or below the player never collides; and, the sine being within
    [[-1, 1]], a data packet more than 4 px clear of the player above or
    below never collides. *)
Theorem collides_needs_overlap (frame : Z) (player : Player.t) (entity : Entity.t) :
  let bob := sin (inject_Z frame / 6 + orElse (Entity.phase entity) 0) * 4 in
  let overlapAt (y : Q) :=
    Player.x player < Entity.x entity + Entity.width entity
    /\ Entity.x entity < Player.x player + Player.width player
    /\ Player.y player < y + Entity.height entity
    /\ y < Player.y player + Player.height player in
  (Entity.type entity <> data ->
   (collides frame player entity = true <-> overlapAt (Entity.y entity)))
  /\ (Entity.type entity = data ->
      (collides frame player entity = true <-> overlapAt (Entity.y entity + bob)))
  /\ (Player.x player + Player.width player <= Entity.x entity ->
      collides frame player entity = false)
  /\ (Entity.x entity + Entity.width entity <= Player.x player ->
      collides frame player entity = false)
  /\ (Entity.type entity <> data ->
      Player.y player + Player.height player <= Entity.y entity
      \/ Entity.y entity + Entity.height entity <= Player.y player ->
      collides frame player entity = false)
  /\ (Entity.type entity = data ->
      -1 <= sin (inject_Z frame / 6 + orElse (Entity.phase entity) 0) <= 1 ->
      Player.y player + Player.height player <= Entity.y entity - 4
      \/ Entity.y entity + 4 + Entity.height entity <= Player.y player ->
      collides frame player entity = false).
Proof.
  cbn zeta.
  assert (Hiff : collides frame player entity = true <->
                 Player.x player < Entity.x entity + Entity.width entity
                 /\ Entity.x entity < Player.x player + Player.width player
                 /\ Player.y player
                    < Entity.y entity
                      + (if EntityType_eqb (Entity.type entity) data
                         then sin (inject_Z frame / 6 + orElse (Entity.phase entity) 0) * 4
                         else 0)
                      + Entity.height entity
                 /\ Entity.y entity
                    + (if EntityType_eqb (Entity.type entity) data
                       then sin (inject_Z frame / 6 + orElse (Entity.phase entity) 0) * 4
                       else 0)
                    < Player.y player + Player.height player).
  { unfold collides. cbn zeta. rewrite !andb_true_iff, !Qltb_lt. tauto. }
  assert (Hfalse : forall P : Prop,
             (collides frame player entity = true <-> P) -> ~ P ->
             collides frame player entity = false).
  { intros P HP HnP. destruct (collides frame player entity); [|reflexivity].
    exfalso. apply HnP. apply HP. reflexivity. }
  split; [|split; [|split; [|split; [|split]]]].
  - intro Hty. apply EntityType_eqb_neq in Hty. rewrite Hty in Hiff.
    rewrite Hiff. split; intros (H1 & H2 & H3 & H4); repeat split; lra.
  - intro Hty. apply EntityType_eqb_eq in Hty. rewrite Hty in Hiff.
    exact Hiff.
  - intro Hsep. apply (Hfalse _ Hiff). intros (H1 & H2 & _). lra.
  - intro Hsep. apply (Hfalse _ Hiff). intros (H1 & H2 & _). lra.
  - intros Hty Hsep. apply EntityType_eqb_neq in Hty. rewrite Hty in Hiff.
    apply (Hfalse _ Hiff). intros (_ & _ & H3 & H4). lra.
  - intros Hty Hsin Hsep. apply EntityType_eqb_eq in Hty. rewrite Hty in Hiff.
    apply (Hfalse _ Hiff). intros (_ & _ & H3 & H4). lra.
Qed.

(** ** A shield charge absorbs the hit (lines 538-550) *)

Lemma pass_with_charge (audio : option AudioHandles.t) (frame : Z) (timeNow : Q)
    (l : list Entity.t) :
  forall (w : World.t) (log : list Tone.t),
    (0 < Player.shieldCharges (World.player w))%Z ->
    let w' := fst (fold_left (onEntity audio frame timeNow) l (w, log)) in
    World.status w' = World.status w
    /\ (Player.shieldCharges (World.player w') = Player.shieldCharges (World.player w)
        \/ (Player.shieldCharges (World.player w')
            = (Player.shieldCharges (World.player w) - 1)%Z
            /\ Player.invulnerableUntil (World.player w') == timeNow + 1200)).
Proof.
  induction l as [|e l IH]; intros w log Hsc; cbn zeta; cbn [fold_left fst]; [auto|].
  destruct (onEntity_cases audio frame timeNow w log e)
    as [(_ & ->) | [(_ & _ & ->) | [(_ & _ & _ & ->) | [(_ & _ & _ & _ & ->) | (_ & _ & _ & Hle & _)]]]];
    try lia.
  - apply IH. exact Hsc.
  - exact (IH (collected e w) _ Hsc).
  - apply IH. exact Hsc.
  - assert (Hinv : timeNow < Player.invulnerableUntil (World.player (absorbed timeNow e w)))
      by (cbn; lra).
    destruct (pass_while_invulnerable audio frame timeNow l
                (absorbed timeNow e w, playTone audio 160 0.3 sawtooth log) Hinv)
      as (Hp & Hs & _).
    cbn [fst] in Hp, Hs. rewrite Hp, Hs. cbn.
    split; [reflexivity|]. right. split; [reflexivity | lra].
Qed.

(** X9. A tick of a running world that begins with at least one shield charge
    never ends the run, and uses up at most one charge however many hazards
    overlap the player: the first hit that counts opens an invulnerability
    window of 1200 ms from the clock reading of the tick, and every hazard
    walked after it is ignored. *)
Theorem charged_tick_never_ends_run (playerName : string) (timestamp : Q) (env : Env.t)
    (g : Game.t) (w : World.t) :
  Game.worldRef g = Some w ->
  World.status w = running ->
  (0 < Player.shieldCharges (World.player w))%Z ->
  exists w',
    Game.worldRef (renderFrame playerName timestamp env g) = Some w'
    /\ World.status w' = running
    /\ Game.status (renderFrame playerName timestamp env g) = Game.status g
    /\ Game.leaderboard (renderFrame playerName timestamp env g) = Game.leaderboard g
    /\ (Player.shieldCharges (World.player w') = Player.shieldCharges (World.player w)
        \/ (Player.shieldCharges (World.player w')
            = (Player.shieldCharges (World.player w) - 1)%Z
            /\ Player.invulnerableUntil (World.player w') == Env.perfNow env + 1200)).
Proof.
  intros Hw Hs Hsc.
  rewrite (renderFrame_running playerName timestamp env g w Hw Hs).
  assert (Hpass : World.status (tickWorld timestamp env g w) = running
                  /\ (Player.shieldCharges (World.player (tickWorld timestamp env g w))
                      = Player.shieldCharges (World.player w)
                      \/ (Player.shieldCharges (World.player (tickWorld timestamp env g w))
                          = (Player.shieldCharges (World.player w) - 1)%Z
                          /\ Player.invulnerableUntil
                               (World.player (tickWorld timestamp env g w))
                             == Env.perfNow env + 1200))).
  { unfold tickWorld, tickState, accrue, resolveCollisions. cbn zeta.
    destruct (simulate_frame timestamp env g w) as (Fs & _ & _ & Fsc & _).
    destruct (simulate timestamp env g w) as [[w1 log1] c1]. cbn [fst snd] in *.
    cbn [World.status World.player World.with_score].
    rewrite <- Fsc in Hsc.
    destruct (pass_with_charge (Game.audioRef g) (Game.frameRef g + 1)%Z (Env.perfNow env)
                (World.entities w1) w1 log1 Hsc) as [Hst Hch].
    rewrite Hst, Fs, <- Fsc. split; [exact Hs | exact Hch]. }
  destruct Hpass as [Hrun Hch].
  unfold conclude. rewrite Hrun. cbn [GameStatus_eqb].
  eexists. split; [reflexivity|].
  cbn. repeat split; auto.
Qed.

(** ** The spawn scheduler (lines 212-244, 494-505) *)

(** X10. Each of the three kinds is spawned exactly when its own timer has run
    out, independently of the other two, in the order firewall, virus, data
    packet.  The new entities are appended to the array, start 40 px beyond
    the right edge, and take the next identifiers of the counter, which
    advances by the number of entities spawned.  Only the timers of the
    kinds spawned are reset, to the timestamp of the tick; nothing else in
    the world changes, and with no timer run out the world and the counter
    are returned as they were. *)
Theorem spawnDue_schedule (timestamp : Q) (env : Env.t) (lvl : LevelConfig.t)
    (w : World.t) (c : Z) :
  let r := spawnDue timestamp env lvl (w, c) in
  let kinds :=
    (if firewallDue timestamp lvl w then [firewall] else [])
    ++ (if virusDue timestamp lvl w then [virus] else [])
    ++ (if dataDue timestamp lvl w then [data] else []) in
  exists added,
    World.entities (fst r) = World.entities w ++ added
    /\ map Entity.type added = kinds
    /\ map Entity.id added = nextIds c (List.length kinds)
    /\ snd r = (c + Z.of_nat (List.length kinds))%Z
    /\ (forall e, In e added -> Entity.x e = CANVAS_WIDTH + 40)
    /\ World.lastSpawn (fst r)
       = LastSpawn.mk
           (if firewallDue timestamp lvl w then timestamp
            else LastSpawn.firewall (World.lastSpawn w))
           (if virusDue timestamp lvl w then timestamp
            else LastSpawn.virus (World.lastSpawn w))
           (if dataDue timestamp lvl w then timestamp
            else LastSpawn.data (World.lastSpawn w))
    /\ World.with_lastSpawn (World.lastSpawn w)
         (World.with_entities (World.entities w) (fst r)) = w
    /\ (kinds = [] -> r = (w, c)).
Proof.
  clear sin. cbn zeta.
  unfold firewallDue, virusDue, dataDue, spawnDue, spawnFirewall, spawnVirus,
    spawnDataPacket, push, createUniqueId, nextIds.
  cbn [World.lastSpawn World.with_lastSpawn World.with_entities World.entities
       LastSpawn.firewall LastSpawn.virus LastSpawn.data fst snd].
  destruct (LevelConfig.obstacleInterval lvl
            <? timestamp - LastSpawn.firewall (World.lastSpawn w));
    cbn [World.lastSpawn World.with_lastSpawn World.with_entities World.entities
         LastSpawn.firewall LastSpawn.virus LastSpawn.data fst snd];
    destruct (LevelConfig.virusInterval lvl
              <? timestamp - LastSpawn.virus (World.lastSpawn w));
    cbn [World.lastSpawn World.with_lastSpawn World.with_entities World.entities
         LastSpawn.firewall LastSpawn.virus LastSpawn.data fst snd];
    destruct (LevelConfig.dataInterval lvl
              <? timestamp - LastSpawn.data (World.lastSpawn w));
    cbn [World.lastSpawn World.with_lastSpawn World.with_entities World.entities
         LastSpawn.firewall LastSpawn.virus LastSpawn.data fst snd app List.length];
    rewrite <- ?app_assoc; cbn [app].
  all: try match goal with
       | |- context [_ ++ (?e :: ?l)] => exists (e :: l)
       end.
  all: try (exists []; rewrite ?app_nil_r).
  all: repeat split; try reflexivity; try discriminate.
  all: try (cbn; intros e He; intuition (subst; reflexivity)).
  all: try lia.
  all: try (cbn -[Z.add Z.of_nat]; repeat (apply f_equal2; [lia|]); reflexivity).
  all: try match goal with
       | x : World.t |- _ => destruct x as [? ? ? ? []]; reflexivity
       end.
Qed.

(** ** The entity advancer (lines 507-518) *)

(** X11. One step of the advancer changes positions only: every entity keeps
    its identifier, kind, size, speed, amplitude and phase; its x moves left
    by (speed + 0.6 * speed level + speed scale) * deltaScale * 4.2; a
    firewall keeps its y.  The array afterwards holds exactly the moved
    entities whose right edge is still right of -160, so it never grows,
    and nothing else in the world changes. *)
Theorem scroll_moves_and_culls (u : UpgradeState.t) (lvl : LevelConfig.t) (d : Q)
    (frame : Z) (w : World.t) :
  let w' := scroll u lvl d frame w in
  (List.length (World.entities w') <= List.length (World.entities w))%nat
  /\ (forall e', In e' (World.entities w') <->
        exists e, In e (World.entities w)
                  /\ e' = advance u lvl d frame e
                  /\ -160 < Entity.x e' + Entity.width e')
  /\ (forall e,
        let e' := advance u lvl d frame e in
        Entity.id e' = Entity.id e /\ Entity.type e' = Entity.type e
        /\ Entity.width e' = Entity.width e /\ Entity.height e' = Entity.height e
        /\ Entity.speed e' = Entity.speed e
        /\ Entity.amplitude e' = Entity.amplitude e /\ Entity.phase e' = Entity.phase e
        /\ Entity.x e'
           = Entity.x e
             - (Entity.speed e + inject_Z (UpgradeState.speed u) * 0.6
                + LevelConfig.speedScale lvl) * d * 4.2
        /\ (Entity.type e = firewall -> Entity.y e' = Entity.y e))
  /\ World.with_entities (World.entities w) w' = w.
Proof.
  cbn zeta. unfold scroll. cbn [World.entities World.with_entities].
  split; [|split; [|split]].
  - rewrite <- (length_map (advance u lvl d frame) (World.entities w)).
    apply filter_length_le.
  - intro e'. rewrite filter_In, in_map_iff. unfold onScreen. split.
    + intros [(e & He & Hin) Hon]. qprop. exists e. auto.
    + intros (e & Hin & He & Hon). split; [exists e; auto|].
      apply Qltb_lt. exact Hon.
  - intro e. unfold advance. cbn zeta.
    destruct (Entity.type e) eqn:Et; cbn [EntityType_eqb negb];
      unfold Entity.with_x, Entity.with_y;
      cbn [Entity.id Entity.type Entity.x Entity.y Entity.width Entity.height
           Entity.speed Entity.amplitude Entity.phase];
      repeat split; try reflexivity; try exact Et; intro Hf; discriminate.
  - destruct w. reflexivity.
Qed.

(** ** Score and currency over a tick (lines 531-534, 553) *)

Lemma tickWorld_account (timestamp : Q) (env : Env.t) (g : Game.t) (w : World.t) :
  World.status w = running ->
  Game.worldRef g = Some w ->
  World.score (tickWorld timestamp env g w)
  == World.score w + 120 * count (pickedUp timestamp env g)
     + (timestamp - World.lastFrame w) * 0.35
       * LevelConfig.speedScale (getLevel (World.score w))
  /\ World.upgradePoints (tickWorld timestamp env g w)
     = (World.upgradePoints w + Z.of_nat (List.length (pickedUp timestamp env g)))%Z.
Proof.
  intros Hs Hw.
  unfold pickedUp. rewrite Hw, Hs. cbn [GameStatus_eqb]. cbn zeta.
  unfold count. rewrite !length_map.
  unfold tickWorld, tickState, accrue, resolveCollisions. cbn zeta.
  destruct (simulate_frame timestamp env g w) as (_ & Fscore & Fpts & _).
  destruct (simulate timestamp env g w) as [[w1 log1] c1]. cbn [fst snd] in *.
  cbn [World.score World.upgradePoints World.with_score].
  pose proof (pass_account (Game.audioRef g) (Game.frameRef g + 1)%Z (Env.perfNow env)
                (World.entities w1) w1 log1) as (Hscore & Hpts & _).
  split.
  - rewrite Hscore, Fscore. reflexivity.
  - rewrite Hpts, Fpts. reflexivity.
Qed.

Lemma speedScale_positive (score : Q) : 0 < LevelConfig.speedScale (getLevel score).
Proof.
  clear sin PI.
  destruct (getLevel_cases score) as [[_ ->] | [(_ & _ & ->) | [_ ->]]];
    cbn; reflexivity.
Qed.

Lemma count_nonneg {A : Type} (l : list A) : 0 <= count l.
Proof. clear sin PI. unfold count. apply inject_Z_nonneg. lia. Qed.

(** X12. While the run is running the score never goes down from one tick to the
    next as long as the clock does not run backwards, and it goes up
    strictly when time has passed; with it the difficulty tier chosen for
    the next tick never goes down. *)
Theorem score_grows_with_time (playerName : string) (timestamp : Q) (env : Env.t)
    (g : Game.t) (w : World.t) :
  Game.worldRef g = Some w ->
  World.status w = running ->
  World.lastFrame w <= timestamp ->
  exists w',
    Game.worldRef (renderFrame playerName timestamp env g) = Some w'
    /\ World.score w <= World.score w'
    /\ (World.lastFrame w < timestamp -> World.score w < World.score w')
    /\ (LevelConfig.level (getLevel (World.score w))
        <= LevelConfig.level (getLevel (World.score w')))%Z
    /\ World.lastFrame w' = timestamp.
Proof.
  intros Hw Hs Htime.
  destruct (renderFrame_result playerName timestamp env g w Hw Hs)
    as (W' & HW' & _ & _ & _ & Esc & _).
  destruct (tickWorld_account timestamp env g w Hs Hw) as [Hscore _].
  pose proof (speedScale_positive (World.score w)) as Hscale.
  pose proof (count_nonneg (pickedUp timestamp env g)) as Hcount.
  exists W'. split; [exact HW'|]. rewrite Esc.
  assert (Hacc : 0 <= (timestamp - World.lastFrame w) * 0.35
                      * LevelConfig.speedScale (getLevel (World.score w))) by nra.
  assert (Hle : World.score w <= World.score (tickWorld timestamp env g w))
    by (rewrite Hscore; lra).
  split; [exact Hle|]. split; [|split].
  - intro Hlt. rewrite Hscore.
    assert (0 < (timestamp - World.lastFrame w) * 0.35
                * LevelConfig.speedScale (getLevel (World.score w))) by nra.
    lra.
  - destruct (getLevel_cases (World.score w)) as [[H ->] | [(H1 & H2 & ->) | [H ->]]];
      destruct (getLevel_cases (World.score (tickWorld timestamp env g w)))
        as [[K ->] | [(K1 & K2 & ->) | [K ->]]];
      cbn; try lia; exfalso; lra.
  - pose proof HW' as HW''.
    rewrite (renderFrame_running playerName timestamp env g w Hw Hs) in HW''.
    unfold conclude in HW''.
    assert (Hlf : World.lastFrame (tickWorld timestamp env g w) = timestamp).
    { unfold tickWorld, tickState, accrue, resolveCollisions. cbn zeta.
      cbn [World.lastFrame World.with_score].
      rewrite simulate_eq. cbn [fst snd].
      match goal with
      | |- World.lastFrame (fst (fold_left ?f ?l (?w0, ?log0))) = _ =>
          assert (Hkeep : forall l' w1 log1,
                     World.lastFrame (fst (fold_left f l' (w1, log1)))
                     = World.lastFrame w1)
      end.
      { induction l' as [|e l' IH]; intros w1 log1; cbn [fold_left fst]; [reflexivity|].
        destruct (onEntity_cases (Game.audioRef g) (Game.frameRef g + 1)%Z
                    (Env.perfNow env) w1 log1 e)
          as [(_ & ->) | [(_ & _ & ->) | [(_ & _ & _ & ->) | [(_ & _ & _ & _ & ->) | (_ & _ & _ & _ & ->)]]]];
          rewrite IH; reflexivity. }
      rewrite Hkeep. unfold scroll. cbn [World.lastFrame World.with_entities].
      match goal with
      | |- World.lastFrame (fst (spawnDue ?t ?e ?l (?w0, ?c))) = _ =>
          destruct (spawnDue_spec t e l w0 c) as (added & ls & -> & _)
      end.
      unfold land.
      cbn [World.lastFrame World.with_lastSpawn World.with_entities World.with_player].
      unfold jump.
      match goal with |- context [if ?b then _ else _] => destruct b end;
        reflexivity. }
    destruct (GameStatus_eqb (World.status (tickWorld timestamp env g w)) running);
      [| destruct (GameStatus_eqb (World.status (tickWorld timestamp env g w)) over) ].
    + cbn in HW''. apply Some_eq in HW''. subst W'. exact Hlf.
    + unfold stopAudio, saveScore, updateHud in HW''. cbn in HW''.
      destruct (Game.audioRef g); cbn in HW''; apply Some_eq in HW''; subst W'; exact Hlf.
    + cbn in HW''. apply Some_eq in HW''. subst W'. exact Hlf.
Qed.

(** ** What the screen shows *)

Ltac consistent_world :=
  unfold consistent; cbn -[Z.add Z.sub Z.mul Qfloor]; repeat split; auto; try lia.

Lemma consistent_setInputs (f : Inputs.t -> Inputs.t) (g : Game.t) :
  consistent g -> consistent (setInputs f g).
Proof.
  clear sin PI.
  unfold consistent at 1, setInputs.
  destruct (Game.worldRef g) as [w|] eqn:Hw.
  - intros (H1 & H2 & H3 & H4 & H5). consistent_world.
  - intro H. unfold consistent. rewrite Hw. exact H.
Qed.

Lemma consistent_togglePause (env : Env.t) (g : Game.t) :
  consistent g -> consistent (togglePause env g).
Proof.
  clear sin PI.
  intro H. pose proof H as H'. unfold consistent in H'. unfold togglePause.
  destruct (Game.worldRef g) as [w|] eqn:Hw; [|exact H].
  destruct H' as (H1 & H2 & H3 & H4 & H5).
  destruct (GameStatus_eqb (World.status w) running).
  - unfold stopAudio. cbn. destruct (Game.audioRef g); consistent_world.
  - destruct (GameStatus_eqb (World.status w) paused); [|exact H].
    unfold startLoop.
    audio_shape. consistent_world.
Qed.

Lemma consistent_startGame (env : Env.t) (g : Game.t) : consistent (startGame env g).
Proof.
  clear sin PI.
  unfold startGame, startLoop, updateHud.
  audio_shape. consistent_world.
Qed.

Lemma consistent_applyUpgrade (type : UpgradeState.key) (g : Game.t) :
  consistent g -> consistent (applyUpgrade type g).
Proof.
  clear sin PI.
  intro H. pose proof H as H'. unfold consistent in H'. unfold applyUpgrade.
  destruct (Game.worldRef g) as [w|] eqn:Hw; [|exact H].
  destruct H' as (H1 & H2 & H3 & H4 & H5).
  destruct (GameStatus_eqb (World.status w) idle); [exact H|].
  destruct (World.upgradePoints w <? _)%Z eqn:Hlt; [exact H|].
  apply Z.ltb_ge in Hlt.
  destruct type; cbn [UpgradeState.get] in Hlt; unfold updateHud; consistent_world.
Qed.

Lemma consistent_syncShield (g : Game.t) : consistent g -> consistent (syncShield g).
Proof.
  clear sin PI.
  intro H. pose proof H as H'. unfold consistent in H'. unfold syncShield.
  destruct (Game.worldRef g) as [w|] eqn:Hw; [|exact H].
  destruct H' as (H1 & H2 & H3 & H4 & H5).
  destruct (Player.shieldCharges (World.player w) <? _)%Z; [|exact H].
  consistent_world.
Qed.

Lemma tickWorld_level (timestamp : Q) (env : Env.t) (g : Game.t) (w : World.t) :
  World.level (tickWorld timestamp env g w) = LevelConfig.level (getLevel (World.score w)).
Proof.
  unfold tickWorld, tickState, accrue, resolveCollisions. cbn zeta.
  cbn [World.level World.with_score].
  rewrite simulate_eq. cbn [fst snd].
  match goal with
  | |- World.level (fst (fold_left ?f ?l (?w0, ?log0))) = _ =>
      assert (Hkeep : forall l' w1 log1,
                 World.level (fst (fold_left f l' (w1, log1))) = World.level w1)
  end.
  { induction l' as [|e l' IH]; intros w1 log1; cbn [fold_left fst]; [reflexivity|].
    destruct (onEntity_cases (Game.audioRef g) (Game.frameRef g + 1)%Z
                (Env.perfNow env) w1 log1 e)
      as [(_ & ->) | [(_ & _ & ->) | [(_ & _ & _ & ->) | [(_ & _ & _ & _ & ->) | (_ & _ & _ & _ & ->)]]]];
      rewrite IH; reflexivity. }
  rewrite Hkeep. unfold scroll. cbn [World.level World.with_entities].
  match goal with
  | |- World.level (fst (spawnDue ?t ?e ?l (?w0, ?c))) = _ =>
      destruct (spawnDue_spec t e l w0 c) as (added & ls & -> & _)
  end.
  unfold land.
  cbn [World.level World.with_lastSpawn World.with_entities World.with_player].
  unfold jump.
  match goal with |- context [if ?b then _ else _] => destruct b end; reflexivity.
Qed.

Lemma consistent_renderFrame (playerName : string) (timestamp : Q) (env : Env.t)
    (g : Game.t) :
  wellFormed g -> consistent g -> consistent (renderFrame playerName timestamp env g).
Proof.
  intros Hwf H. pose proof H as H'. unfold consistent in H'.
  destruct (Game.worldRef g) as [w|] eqn:Hw.
  - destruct H' as (H1 & H2 & H3 & H4 & H5).
    destruct (GameStatus_eqb (World.status w) running) eqn:Hs.
    + apply GameStatus_eqb_eq in Hs.
      rewrite (renderFrame_running playerName timestamp env g w Hw Hs).
      destruct Hwf as (_ & _ & _ & _ & Hok).
      destruct (tickWorld_ok timestamp env g w Hs (Hok w Hw)) as [_ Hst].
      destruct (tickWorld_account timestamp env g w Hs Hw) as [_ Hpts].
      pose proof (tickWorld_level timestamp env g w) as Hlvl.
      generalize dependent (tickWorld timestamp env g w).
      generalize (snd (tickState timestamp env g w)) (snd (simulate timestamp env g w)).
      intros log c W Hst Hpts Hlvl.
      unfold conclude, stopAudio, saveScore, updateHud, hudOf.
      destruct Hst as [Hst | Hst]; rewrite Hst; cbn [GameStatus_eqb].
      * consistent_world; congruence.
      * cbn -[Z.add Qfloor]. destruct (Game.audioRef g); consistent_world; congruence.
    + apply GameStatus_eqb_neq in Hs.
      rewrite renderFrame_not_running; [exact H|].
      intros w0 Hw0. rewrite Hw in Hw0. apply Some_eq in Hw0. subst w0. exact Hs.
  - rewrite renderFrame_not_running; [exact H|]. intros w0 Hw0. congruence.
Qed.

Lemma consistent_stopAudio (g : Game.t) : consistent g -> consistent (stopAudio g).
Proof. clear sin PI. unfold stopAudio. destruct (Game.audioRef g); auto. Qed.

Lemma consistent_reachable (g : Game.t) : reachable g -> consistent g.
Proof.
  intro Hreach.
  induction Hreach as [stored storedName | g ev Hreach IH] using reachable_ind.
  - reflexivity.
  - destruct ev as [n ts env | env | env | env | type | | | code env | code | value];
      cbn [step].
    + apply consistent_renderFrame; [apply wellFormed_reachable; exact Hreach | exact IH].
    + apply consistent_startGame.
    + apply consistent_togglePause, IH.
    + apply consistent_startGame.
    + apply consistent_applyUpgrade, IH.
    + exact IH.
    + apply consistent_syncShield, IH.
    + unfold handleKeyDown. destruct (Game.worldRef g); [|exact IH].
      repeat match goal with
      | |- context [if ?b then _ else _] => destruct b
      end;
      repeat first [apply consistent_togglePause | apply consistent_setInputs]; exact IH.
    + unfold handleKeyUp. destruct (Game.worldRef g); [|exact IH].
      repeat match goal with
      | |- context [if ?b then _ else _] => destruct b
      end;
      repeat apply consistent_setInputs; exact IH.
    + exact IH.
Qed.

(** X13. In every reachable state the overlay status is the status of the run,
    and idle exactly when no run was started yet; the HUD shows the floored
    score, the tier number and the upgrade points of the run. *)
Theorem screen_agrees_with_run (g : Game.t) :
  reachable g ->
  (Game.worldRef g = None -> Game.status g = idle)
  /\ (forall w, Game.worldRef g = Some w ->
        Game.status g = World.status w
        /\ World.status w <> idle
        /\ HudState.score (Game.hudRef g) = Qfloor (World.score w)
        /\ HudState.level (Game.hudRef g) = World.level w
        /\ HudState.upgradePoints (Game.hudRef g) = World.upgradePoints w).
Proof.
  intro Hreach.
  pose proof (consistent_reachable g Hreach) as H. unfold consistent in H.
  pose proof (wellFormed_reachable g Hreach) as (_ & _ & _ & _ & Hok).
  split.
  - intro Hw. rewrite Hw in H. exact H.
  - intros w Hw. rewrite Hw in H. destruct H as (H1 & H2 & H3 & H4 & _).
    destruct (Hok w Hw) as (_ & _ & _ & Hidle). auto.
Qed.

(** X14. The upgrade points of a run are never negative: they start at 0, a
    pickup adds 1, and a purchase takes the cost away only when the points
    cover it. *)
Theorem upgradePoints_never_negative (g : Game.t) :
  reachable g ->
  forall w, Game.worldRef g = Some w -> (0 <= World.upgradePoints w)%Z.
Proof.
  intros Hreach w Hw.
  pose proof (consistent_reachable g Hreach) as H. unfold consistent in H.
  rewrite Hw in H. tauto.
Qed.

(** ** Pause and resume (lines 684-699) *)

(** X15. Pausing a running world sets both statuses to paused and nothing else
    in the world; while paused, frame callbacks leave the whole component
    as it is; resuming gives back the world as it was when paused, with the
    last-frame time set to the clock reading at the resume (so the pause
    does not count as elapsed time) and a new frame requested.  With no
    run, or with a run that is over, the toggle does nothing at all. *)
Theorem pause_resume_round_trip (env1 env2 : Env.t) (g : Game.t) (w : World.t) :
  Game.worldRef g = Some w ->
  (World.status w = running ->
   let held := togglePause env1 g in
   Game.worldRef held = Some (World.with_status paused w)
   /\ Game.status held = paused
   /\ (forall playerName timestamp env,
         renderFrame playerName timestamp env held = held)
   /\ Game.worldRef (togglePause env2 held)
      = Some (World.with_animation (Some (Env.rafHandle env2))
                (World.with_lastFrame (Env.perfNow env2) w))
   /\ Game.status (togglePause env2 held) = running)
  /\ (World.status w = over \/ World.status w = idle -> togglePause env1 g = g).
Proof.
  intros Hw. split.
  - intros Hs held.
    assert (Hheld : Game.worldRef held = Some (World.with_status paused w)
                    /\ Game.status held = paused).
    { subst held. unfold togglePause, stopAudio. rewrite Hw, Hs. cbn.
      destruct (Game.audioRef g); split; reflexivity. }
    destruct Hheld as [Hhw Hhs].
    split; [exact Hhw|]. split; [exact Hhs|]. split.
    + intros playerName timestamp env. apply renderFrame_not_running.
      intros w0 Hw0. rewrite Hhw in Hw0. apply Some_eq in Hw0. subst w0. discriminate.
    + clearbody held. unfold togglePause. rewrite Hhw.
      cbn [World.status World.with_status GameStatus_eqb].
      unfold startLoop.
      audio_shape. cbn; rewrite <- Hs; destruct w; split; reflexivity.
  - intros [Hs | Hs]; unfold togglePause; rewrite Hw, Hs; reflexivity.
Qed.

(** ** Entity identifiers (lines 123-129) *)

Lemma step_uniqueId (g : Game.t) (ev : Event) :
  wellFormed g -> (Game.uniqueId g <= Game.uniqueId (step g ev))%Z.
Proof.
  intro Hwf.
  assert (Hsame : forall g', arena g' = arena g -> (Game.uniqueId g <= Game.uniqueId g')%Z).
  { intros g' H. unfold arena in H. injection H as _ ->. lia. }
  destruct ev as [n ts env | env | env | env | type | | | code env | code | value];
    cbn [step].
  - destruct (Game.worldRef g) as [w|] eqn:Hw.
    + destruct (GameStatus_eqb (World.status w) running) eqn:Hs.
      * apply GameStatus_eqb_eq in Hs.
        destruct (renderFrame_result n ts env g w Hw Hs)
          as (_ & _ & _ & _ & _ & _ & _ & _ & -> & _).
        destruct Hwf as (_ & _ & _ & _ & Hok).
        destruct (Hok w Hw) as (_ & Hnd & Hids & _).
        destruct (simulate_ids ts env g w Hnd Hids) as (_ & Hc & _). exact Hc.
      * apply GameStatus_eqb_neq in Hs.
        rewrite renderFrame_not_running; [lia|].
        intros w0 Hw0. rewrite Hw in Hw0. apply Some_eq in Hw0. subst w0. exact Hs.
    + rewrite renderFrame_not_running; [lia|]. intros w0 Hw0. congruence.
  - pose proof (startGame_arena env g) as H. unfold arena in H. injection H as _ ->. lia.
  - apply Hsame, togglePause_arena.
  - unfold restartGame.
    pose proof (startGame_arena env (stopAudio g)) as H. unfold arena in H.
    injection H as _ ->. rewrite stopAudio_uniqueId. lia.
  - apply Hsame, applyUpgrade_arena.
  - apply Hsame. reflexivity.
  - apply Hsame, syncShield_arena.
  - apply Hsame, handleKeyDown_arena.
  - apply Hsame, handleKeyUp_arena.
  - apply Hsame. reflexivity.
Qed.

(** X16. In every reachable state the entities of the run carry pairwise
    distinct identifiers, all of them handed out already (none above the
    counter); the counter is shared by all runs of the session and no
    callback ever lowers it, so an identifier is never handed out twice. *)
Theorem entity_ids_are_unique (g : Game.t) :
  reachable g ->
  (forall w, Game.worldRef g = Some w ->
     NoDup (map Entity.id (World.entities w))
     /\ (forall e, In e (World.entities w) -> (Entity.id e <= Game.uniqueId g)%Z))
  /\ (forall ev, (Game.uniqueId g <= Game.uniqueId (step g ev))%Z)
  /\ (forall timestamp env lvl w,
        let spawned := spawnDue timestamp env lvl (w, Game.uniqueId g) in
        forall e, In e (World.entities (fst spawned)) ->
                  In e (World.entities w)
                  \/ (Game.uniqueId g < Entity.id e <= snd spawned)%Z).
Proof.
  intro Hreach. apply wellFormed_reachable in Hreach.
  pose proof Hreach as (_ & _ & _ & _ & Hok).
  split; [|split].
  - intros w Hw. destruct (Hok w Hw) as (_ & Hnd & Hids & _). auto.
  - intro ev. apply step_uniqueId. exact Hreach.
  - intros timestamp env lvl w spawned e He. subst spawned.
    destruct (spawnDue_spec timestamp env lvl w (Game.uniqueId g))
      as (added & ls & Hsp & _ & Hfresh & _).
    rewrite Hsp in He. cbn in He. apply in_app_or in He.
    destruct He as [He | He]; [left; exact He | right; apply Hfresh; exact He].
Qed.

(** ** Where a saved score lands (lines 409-422, 747) *)

(** X17. Saved into a table that is sorted from high to low, a new row goes
    below every row with an equal or higher score and above every row with
    a lower one, and the table is then cut to five rows.  So a full table is
    left exactly as it was by a score that beats none of its rows, a tie
    with the last row included.  Whatever the old table, the score shown as
    Best afterwards is the highest score among the old rows and the new
    one. *)
Theorem saved_score_placement (playerName : string) (score : Q) (env : Env.t)
    (g : Game.t) :
  let prev := Game.leaderboard g in
  let row := LeaderboardEntry.mk (nameOrAnonymous playerName) score (Env.dateNow env) in
  let next := Game.leaderboard (saveScore playerName score env g) in
  (descending prev ->
   next
   = firstn MAX_LEADERS
       (filter (fun r => score <=? LeaderboardEntry.score r) prev
        ++ row :: filter (fun r => LeaderboardEntry.score r <? score) prev)
   /\ (List.length prev = MAX_LEADERS ->
       (forall r, In r prev -> score <= LeaderboardEntry.score r) ->
       next = prev))
  /\ (forall r, In r (prev ++ [row]) -> LeaderboardEntry.score r <= highestScore next)
  /\ (exists r, In r (prev ++ [row]) /\ LeaderboardEntry.score r = highestScore next).
Proof.
  clear sin PI.
  cbn zeta. unfold saveScore, nextLeaderboard.
  cbn [Game.leaderboard Game.with_storedLeaderboard Game.with_leaderboard].
  set (row := LeaderboardEntry.mk (nameOrAnonymous playerName) score (Env.dateNow env)).
  set (prev := Game.leaderboard g).
  split; [|].
  - intro Hdesc.
    pose proof (sortBy_app_last row prev Hdesc) as Hsort. cbn [LeaderboardEntry.score row] in Hsort.
    change (LeaderboardEntry.score row) with score in Hsort.
    rewrite Hsort. split; [reflexivity|].
    intros Hlen Hlow.
    assert (Hall : filter (fun r => score <=? LeaderboardEntry.score r) prev = prev).
    { apply forallb_filter_id. apply forallb_forall. intros b Hb.
      apply Qleb_le. apply Hlow. exact Hb. }
    rewrite Hall. rewrite firstn_app, Hlen, Nat.sub_diag. cbn [firstn].
    rewrite app_nil_r. rewrite <- Hlen. apply firstn_all.
  - pose proof (sortBy_descending (prev ++ [row])) as Hsorted.
    assert (Hin : forall r, In r (sortBy byScoreDesc (prev ++ [row])) <-> In r (prev ++ [row]))
      by (intro r; apply sortBy_In).
    assert (Hlen : List.length (sortBy byScoreDesc (prev ++ [row])) <> 0%nat)
      by (rewrite sortBy_length, length_app; cbn; lia).
    destruct (sortBy byScoreDesc (prev ++ [row])) as [|top rest]; [contradiction|].
    cbn [MAX_LEADERS firstn highestScore].
    unfold descending in Hsorted. inversion Hsorted as [|? ? _ Htop]; subst.
    rewrite Forall_forall in Htop.
    split.
    + intros r Hr. apply Hin in Hr. destruct Hr as [<- | Hr]; [lra | apply Htop; exact Hr].
    + exists top. split; [apply Hin; left; reflexivity | reflexivity].
Qed.

(** ** Audio never steers the game (lines 479-481, 535-537, 544-546) *)

Lemma onEntity_audio (a a' : option AudioHandles.t) (frame : Z) (timeNow : Q)
    (w : World.t) (log log' : list Tone.t) (e : Entity.t) :
  fst (onEntity a frame timeNow (w, log) e) = fst (onEntity a' frame timeNow (w, log') e).
Proof.
  unfold onEntity.
  repeat match goal with
  | |- context [if ?c then _ else _] => destruct c
  end; reflexivity.
Qed.

Lemma pass_audio (a a' : option AudioHandles.t) (frame : Z) (timeNow : Q)
    (l : list Entity.t) :
  forall (w : World.t) (log log' : list Tone.t),
    fst (fold_left (onEntity a frame timeNow) l (w, log))
    = fst (fold_left (onEntity a' frame timeNow) l (w, log')).
Proof.
  induction l as [|e l IH]; intros w log log'; cbn [fold_left]; [reflexivity|].
  pose proof (onEntity_audio a a' frame timeNow w log log' e) as H.
  destruct (onEntity a frame timeNow (w, log) e) as [w1 log1].
  destruct (onEntity a' frame timeNow (w, log') e) as [w2 log2].
  cbn [fst] in H. subst w2. apply IH.
Qed.

Lemma pass_silent (frame : Z) (timeNow : Q) (l : list Entity.t) :
  forall (w : World.t) (log : list Tone.t),
    snd (fold_left (onEntity None frame timeNow) l (w, log)) = log.
Proof.
  induction l as [|e l IH]; intros w log; cbn [fold_left]; [reflexivity|].
  destruct (onEntity_cases None frame timeNow w log e)
    as [(_ & ->) | [(_ & _ & ->) | [(_ & _ & _ & ->) | [(_ & _ & _ & _ & ->) | (_ & _ & _ & _ & ->)]]]];
    apply IH.
Qed.

Lemma tickWorld_audio (a : option AudioHandles.t) (timestamp : Q) (env : Env.t)
    (g : Game.t) (w : World.t) :
  tickWorld timestamp env (Game.with_audioRef a g) w = tickWorld timestamp env g w
  /\ snd (simulate timestamp env (Game.with_audioRef a g) w)
     = snd (simulate timestamp env g w).
Proof.
  unfold tickWorld, tickState, resolveCollisions. cbn zeta.
  rewrite !simulate_eq. cbn [fst snd].
  cbn [Game.upgradesRef Game.audioRef Game.tones Game.uniqueId Game.frameRef
       Game.with_audioRef].
  set (d := (timestamp - World.lastFrame w) / (1000 / 60)).
  set (lvl := getLevel (World.score w)).
  set (w0 := move (Game.upgradesRef g) d
               (World.with_level (LevelConfig.level lvl) (World.with_lastFrame timestamp w))).
  assert (Hj : fst (jump (Game.upgradesRef g) a (w0, Game.tones g))
               = fst (jump (Game.upgradesRef g) (Game.audioRef g) (w0, Game.tones g))).
  { unfold jump.
    destruct (Inputs.jumpQueued (World.inputs w0) && Player.onGround (World.player w0));
      reflexivity. }
  rewrite Hj. split; [|reflexivity].
  f_equal. apply pass_audio.
Qed.

Lemma conclude_fields (playerName : string) (env : Env.t) (W : World.t) (G : Game.t) :
  let G' := conclude playerName env W G in
  Game.worldRef G'
  = Some (if GameStatus_eqb (World.status W) running
          then World.with_animation (Some (Env.rafHandle env)) W else W)
  /\ Game.hudRef G'
     = (if GameStatus_eqb (World.status W) running then Game.hudRef G
        else if GameStatus_eqb (World.status W) over
             then HudState.spread (Game.hudRef G)
                    (HudState.mkPartial None None None (Some 0%Z))
             else Game.hudRef G)
  /\ Game.status G'
     = (if GameStatus_eqb (World.status W) running then Game.status G
        else if GameStatus_eqb (World.status W) over then over else Game.status G)
  /\ Game.leaderboard G'
     = (if GameStatus_eqb (World.status W) running then Game.leaderboard G
        else if GameStatus_eqb (World.status W) over
             then nextLeaderboard playerName (inject_Z (Qfloor (World.score W)))
                    (Env.dateNow env) (Game.leaderboard G)
             else Game.leaderboard G)
  /\ Game.uniqueId G' = Game.uniqueId G
  /\ Game.frameRef G' = Game.frameRef G
  /\ Game.tones G' = Game.tones G.
Proof.
  clear sin PI.
  cbn zeta. unfold conclude, stopAudio, saveScore, updateHud.
  destruct (GameStatus_eqb (World.status W) running); [repeat split; reflexivity|].
  destruct (GameStatus_eqb (World.status W) over); [|repeat split; reflexivity].
  cbn. destruct (Game.audioRef G); repeat split; reflexivity.
Qed.

(** X18. Whether an audio handle exists makes no difference to the game: a
    frame callback computes the same world, HUD, status, leaderboard,
    identifier counter and frame counter with any handle as with none; and
    with no handle neither a frame callback nor a purchase plays a tone. *)
Theorem audio_never_steers_the_game (playerName : string) (timestamp : Q) (env : Env.t)
    (g : Game.t) (a : option AudioHandles.t) :
  let quiet := renderFrame playerName timestamp env g in
  let loud := renderFrame playerName timestamp env (Game.with_audioRef a g) in
  (Game.worldRef loud = Game.worldRef quiet
   /\ Game.hudRef loud = Game.hudRef quiet
   /\ Game.status loud = Game.status quiet
   /\ Game.leaderboard loud = Game.leaderboard quiet
   /\ Game.uniqueId loud = Game.uniqueId quiet
   /\ Game.frameRef loud = Game.frameRef quiet)
  /\ (Game.audioRef g = None ->
      Game.tones quiet = Game.tones g
      /\ forall type, Game.tones (applyUpgrade type g) = Game.tones g).
Proof.
  cbn zeta. split.
  - destruct (Game.worldRef g) as [w|] eqn:Hw.
    + destruct (GameStatus_eqb (World.status w) running) eqn:Hs.
      * apply GameStatus_eqb_eq in Hs.
        rewrite (renderFrame_running playerName timestamp env g w Hw Hs).
        rewrite (renderFrame_running playerName timestamp env (Game.with_audioRef a g) w
                   Hw Hs).
        destruct (tickWorld_audio a timestamp env g w) as [-> ->].
        set (W := tickWorld timestamp env g w).
        match goal with
        | |- context [conclude _ _ W ?G1] =>
            destruct (conclude_fields playerName env W G1) as (-> & -> & -> & -> & -> & -> & _)
        end.
        match goal with
        | |- context [conclude _ _ W ?G2] =>
            destruct (conclude_fields playerName env W G2) as (-> & -> & -> & -> & -> & -> & _)
        end.
        repeat split; reflexivity.
      * apply GameStatus_eqb_neq in Hs.
        rewrite !renderFrame_not_running; [repeat split; reflexivity | |];
          intros w0 Hw0; cbn in Hw0; rewrite Hw in Hw0; apply Some_eq in Hw0;
          subst w0; exact Hs.
    + rewrite !renderFrame_not_running; [repeat split; reflexivity | |];
        intros w0 Hw0; cbn in Hw0; congruence.
  - intro Hnone. split.
    + destruct (Game.worldRef g) as [w|] eqn:Hw.
      * destruct (GameStatus_eqb (World.status w) running) eqn:Hs.
        -- apply GameStatus_eqb_eq in Hs.
           rewrite (renderFrame_running playerName timestamp env g w Hw Hs).
           match goal with
           | |- context [conclude _ _ ?W ?G1] =>
               destruct (conclude_fields playerName env W G1) as (_ & _ & _ & _ & _ & _ & ->)
           end.
           cbn [Game.tones updateHud Game.with_hudRef Game.with_tones].
           unfold tickState, resolveCollisions. cbn zeta. rewrite Hnone.
           rewrite simulate_eq. cbn [fst snd].
           rewrite pass_silent. rewrite Hnone. unfold jump.
           match goal with |- context [if ?b then _ else _] => destruct b end; reflexivity.
        -- apply GameStatus_eqb_neq in Hs.
           rewrite renderFrame_not_running; [reflexivity|].
           intros w0 Hw0. rewrite Hw in Hw0. apply Some_eq in Hw0. subst w0. exact Hs.
      * rewrite renderFrame_not_running; [reflexivity|]. intros w0 Hw0. congruence.
    + intro type. unfold applyUpgrade.
      destruct (Game.worldRef g) as [w|]; [|reflexivity].
      destruct (GameStatus_eqb (World.status w) idle); [reflexivity|].
      destruct (World.upgradePoints w <? _)%Z; [reflexivity|].
      destruct type; cbn; rewrite Hnone; reflexivity.
Qed.

(** ** The handle field (line 765) *)

Lemma substring_length_le (n : nat) (s : string) :
  (String.length (String.substring 0 n s) <= n)%nat.
Proof.
  clear sin PI.
  revert s. induction n as [|n IH]; intros [|c s]; cbn; try lia.
  specialize (IH s). lia.
Qed.

Lemma substring_short (n : nat) (s : string) :
  (String.length s <= n)%nat -> String.substring 0 n s = s.
Proof.
  clear sin PI.
  revert s. induction n as [|n IH]; intros [|c s]; cbn; intro H; try reflexivity; try lia.
  rewrite IH; [reflexivity | lia].
Qed.

Lemma substring_length_min (n : nat) (s : string) :
  String.length (String.substring 0 n s) = Nat.min n (String.length s).
Proof.
  clear sin PI.
  revert s. induction n as [|n IH]; intros [|c s]; cbn; try reflexivity.
  rewrite IH. reflexivity.
Qed.

Lemma substring_prefix (n : nat) (s : string) :
  exists rest, s = (String.substring 0 n s ++ rest)%string.
Proof.
  clear sin PI.
  revert s. induction n as [|n IH]; intros [|c s]; cbn.
  - exists ""%string. reflexivity.
  - exists (String c s). reflexivity.
  - exists ""%string. reflexivity.
  - destruct (IH s) as [rest Hrest]. exists rest. rewrite <- Hrest. reflexivity.
Qed.

(** X19. Typing into the handle field keeps the first 16 characters: the
    stored handle is the beginning of the value typed, of length
    min(16, length of the value), so a longer value is cut after its 16th
    character and a value that fits is stored as typed; nothing but the
    handle changes. *)
Theorem changeName_keeps_16_characters (value : string) (g : Game.t) :
  let stored := Game.playerName (changeName value g) in
  String.length stored = Nat.min 16 (String.length value)
  /\ (exists rest, value = (stored ++ rest)%string)
  /\ (String.length stored <= 16)%nat
  /\ ((String.length value <= 16)%nat -> stored = value)
  /\ Game.with_playerName (Game.playerName g) (changeName value g) = g.
Proof.
  clear sin PI.
  cbn zeta. unfold changeName. cbn [Game.playerName Game.with_playerName].
  split; [apply substring_length_min|]. split; [apply substring_prefix|].
  split; [apply substring_length_le|]. split; [apply substring_short|].
  destruct g. reflexivity.
Qed.

(** ** The leaderboard is written when a run ends, and only then (lines 598-607) *)

Lemma setInputs_tableOf (f : Inputs.t -> Inputs.t) (g : Game.t) :
  tableOf (setInputs f g) = tableOf g.
Proof. unfold setInputs. destruct (Game.worldRef g); reflexivity. Qed.

Lemma stopAudio_tableOf (g : Game.t) : tableOf (stopAudio g) = tableOf g.
Proof. unfold stopAudio. destruct (Game.audioRef g); reflexivity. Qed.

Lemma startGame_tableOf (env : Env.t) (g : Game.t) :
  tableOf (startGame env g) = tableOf g.
Proof.
  unfold startGame, startLoop, updateHud.
  audio_shape. reflexivity.
Qed.

Lemma togglePause_tableOf (env : Env.t) (g : Game.t) :
  tableOf (togglePause env g) = tableOf g.
Proof.
  unfold togglePause, stopAudio, startLoop.
  destruct (Game.worldRef g) as [w|]; [|reflexivity].
  destruct (GameStatus_eqb (World.status w) running);
    [| destruct (GameStatus_eqb (World.status w) paused) ];
    audio_shape; cbn; destruct (Game.audioRef g); reflexivity.
Qed.

Lemma applyUpgrade_tableOf (type : UpgradeState.key) (g : Game.t) :
  tableOf (applyUpgrade type g) = tableOf g.
Proof.
  unfold applyUpgrade.
  destruct (Game.worldRef g) as [w|]; [|reflexivity].
  destruct (GameStatus_eqb (World.status w) idle); [reflexivity|].
  destruct (World.upgradePoints w <? _)%Z; [reflexivity|].
  destruct type; reflexivity.
Qed.

Lemma syncShield_tableOf (g : Game.t) : tableOf (syncShield g) = tableOf g.
Proof.
  unfold syncShield. destruct (Game.worldRef g) as [w|]; [|reflexivity].
  destruct (Player.shieldCharges (World.player w) <? _)%Z; reflexivity.
Qed.

Lemma handleKeyDown_tableOf (code : string) (env : Env.t) (g : Game.t) :
  tableOf (handleKeyDown code env g) = tableOf g.
Proof.
  unfold handleKeyDown. destruct (Game.worldRef g); [|reflexivity].
  repeat match goal with
  | |- context [if ?b then _ else _] => destruct b
  end;
  rewrite ?togglePause_tableOf, ?setInputs_tableOf; reflexivity.
Qed.

Lemma handleKeyUp_tableOf (code : string) (g : Game.t) :
  tableOf (handleKeyUp code g) = tableOf g.
Proof.
  unfold handleKeyUp. destruct (Game.worldRef g); [|reflexivity].
  repeat match goal with
  | |- context [if ?b then _ else _] => destruct b
  end;
  rewrite ?setInputs_tableOf; reflexivity.
Qed.

(** X20. The leaderboard and its copy in local storage change in one place
    only: a frame callback on a running world whose tick ends the run.
    That callback files the floored final score of the run under the handle
    it captured, and stores the new table.  No other callback, and no other
    tick, touches either. *)
Theorem leaderboard_written_only_when_run_ends (g : Game.t) (ev : Event) :
  tableOf (step g ev) <> tableOf g ->
  exists playerName timestamp env w w',
    ev = Frame playerName timestamp env
    /\ Game.worldRef g = Some w
    /\ World.status w = running
    /\ Game.worldRef (step g ev) = Some w'
    /\ World.status w' = over
    /\ Game.leaderboard (step g ev)
       = nextLeaderboard playerName (inject_Z (Qfloor (World.score w')))
           (Env.dateNow env) (Game.leaderboard g)
    /\ Game.storedLeaderboard (step g ev) = Some (Game.leaderboard (step g ev)).
Proof.
  destruct ev as [n ts env | env | env | env | type | | | code env | code | value];
    cbn [step]; intro Hne.
  - destruct (Game.worldRef g) as [w|] eqn:Hw.
    + destruct (GameStatus_eqb (World.status w) running) eqn:Hs.
      * apply GameStatus_eqb_eq in Hs.
        exists n, ts, env, w.
        rewrite (renderFrame_running n ts env g w Hw Hs) in Hne |- *.
        revert Hne.
        generalize (tickWorld ts env g w) as W.
        generalize (snd (tickState ts env g w)) as log.
        generalize (snd (simulate ts env g w)) as c.
        intros c log W. unfold conclude.
        destruct (GameStatus_eqb (World.status W) running) eqn:Hr;
          [intro Hne; exfalso; apply Hne; reflexivity|].
        destruct (GameStatus_eqb (World.status W) over) eqn:Ho;
          [|intro Hne; exfalso; apply Hne; reflexivity].
        intros _. apply GameStatus_eqb_eq in Ho.
        exists W. unfold stopAudio, saveScore, updateHud. cbn.
        destruct (Game.audioRef g); cbn; repeat split; auto.
      * apply GameStatus_eqb_neq in Hs. exfalso. apply Hne.
        rewrite renderFrame_not_running; [reflexivity|].
        intros w0 Hw0. rewrite Hw in Hw0. apply Some_eq in Hw0. subst w0. exact Hs.
    + exfalso. apply Hne.
      rewrite renderFrame_not_running; [reflexivity|]. intros w0 Hw0. congruence.
  - exfalso. apply Hne. apply startGame_tableOf.
  - exfalso. apply Hne. apply togglePause_tableOf.
  - exfalso. apply Hne. unfold restartGame.
    rewrite startGame_tableOf. apply stopAudio_tableOf.
  - exfalso. apply Hne. apply applyUpgrade_tableOf.
  - exfalso. apply Hne. reflexivity.
  - exfalso. apply Hne. apply syncShield_tableOf.
  - exfalso. apply Hne. apply handleKeyDown_tableOf.
  - exfalso. apply Hne. apply handleKeyUp_tableOf.
  - exfalso. apply Hne. reflexivity.
Qed.

(** ** Keyboard (lines 634-670) *)

Lemma eqb_KeyP (code : string) : code <> "KeyP"%string -> String.eqb code "KeyP" = false.
Proof. clear sin PI. intro H. apply String.eqb_neq. exact H. Qed.

(** X21. A key other than P touches nothing but the input flags of the world.
    Releasing it clears whatever pressing it had set: release after press
    is the same as release alone, so from a world with no flag set press
    and release bring the whole component back.  A key the game does not
    bind changes nothing at all. *)
Theorem key_release_undoes_press (code : string) (env : Env.t) (g : Game.t) :
  code <> "KeyP"%string ->
  (exists f, handleKeyDown code env g = setInputs f g)
  /\ handleKeyUp code (handleKeyDown code env g) = handleKeyUp code g
  /\ (forall w, Game.worldRef g = Some w ->
        World.inputs w = Inputs.mk false false false ->
        handleKeyUp code (handleKeyDown code env g) = g)
  /\ (isLeftKey code || isRightKey code || isJumpKey code = false ->
      handleKeyDown code env g = g /\ handleKeyUp code g = g).
Proof.
  intro HP. apply eqb_KeyP in HP.
  unfold handleKeyDown, handleKeyUp, setInputs. rewrite HP.
  destruct g as [wr hud st lb nm up upr au fr uid sl tn]. cbn [Game.worldRef].
  destruct wr as [w|].
  - destruct w as [ws wp we wlf wls wsc wup wlv wi wa].
    destruct wi as [il ir ij].
    split; [|split; [|split]].
    + eexists (fun i =>
        (if isJumpKey code then Inputs.with_jumpQueued true else fun j => j)
          ((if isRightKey code then Inputs.with_right true else fun j => j)
             ((if isLeftKey code then Inputs.with_left true else fun j => j) i))).
      destruct (isLeftKey code), (isRightKey code), (isJumpKey code); reflexivity.
    + destruct (isLeftKey code), (isRightKey code), (isJumpKey code); reflexivity.
    + intros w Hw Hi. cbn in Hw. apply Some_eq in Hw. subst w. cbn in Hi.
      injection Hi as -> -> ->.
      destruct (isLeftKey code), (isRightKey code), (isJumpKey code); reflexivity.
    + intro Hnone.
      destruct (isLeftKey code), (isRightKey code), (isJumpKey code);
        try discriminate Hnone.
      split; reflexivity.
  - split; [|split; [|split]].
    + exists (fun i => i). reflexivity.
    + reflexivity.
    + intros w Hw. discriminate Hw.
    + intros _. split; reflexivity.
Qed.

End Simulation.

(** * Worked examples

    The theorems above hold for every function put in place of the sine;
    the examples below run the code with [sinApprox] and [piApprox]. *)

(** A run played from a freshly mounted component up to the eve of its
    end.  The clock is moved on by pausing and resuming; in the ticks at
    1650 ms and 3300 ms the firewall spawned in that tick reaches the player
    and uses up a shield charge, which leaves none. *)
Definition lethalEvents : list Event :=
  [ Start (envAt 0);
    Pause (envAt 0); Pause (envAt 1000); Frame "Cipher" 1650 (envAt 1650);
    Pause (envAt 1650); Pause (envAt 2650); Frame "Cipher" 3300 (envAt 3300);
    Pause (envAt 3300); Pause (envAt 4300) ].

Definition lethalEve : Game.t := run sinApprox piApprox (mount None None) lethalEvents.

Definition lethalEveWorld : World.t :=
  match Game.worldRef lethalEve with
  | Some w => w
  | None => freshWorld
  end.

(** The tick at 4950 ms of [lethalEve]: the array walked by the collision
    pass holds the firewall and the data packet spawned in this tick. *)
Definition lethalPass : World.t * list Tone.t :=
  fst (simulate sinApprox piApprox 4950 (envAt 4950) lethalEve lethalEveWorld).

Definition walkedFirewall (st : World.t * list Tone.t) : Entity.t :=
  hd hazardAhead (filter (fun e => EntityType_eqb (Entity.type e) firewall)
                    (World.entities (fst st))).

Lemma lethal_hit_ends_run_witness :
  reachable sinApprox piApprox lethalEve
  /\ exists final,
       outcomeOf (renderFrame sinApprox piApprox "Cipher" 4950 (envAt 4950) lethalEve)
       = Some (over, final)
       /\ final == 1365 # 2
       /\ outcomeOf
            (run sinApprox piApprox
               (renderFrame sinApprox piApprox "Cipher" 4950 (envAt 4950) lethalEve)
               [Frame "Cipher" 5000 (envAt 5000); KeyDown "KeyP" (envAt 5010);
                Upgrade UpgradeState.Speed])
          = Some (over, final).
Proof.
  split; [exists None, None, lethalEvents; reflexivity|].
  assert (Hw : Game.worldRef lethalEve = Some lethalEveWorld)
    by (vm_compute; reflexivity).
  assert (Hs : World.status lethalEveWorld = running) by (vm_compute; reflexivity).
  assert (Hsc : Player.shieldCharges (World.player lethalEveWorld) = 0%Z)
    by (vm_compute; reflexivity).
  assert (Hnow : ~ Env.perfNow (envAt 4950)
                   < Player.invulnerableUntil (World.player lethalEveWorld))
    by (vm_compute; discriminate).
  assert (Hhit : exists e,
             In e (World.entities (fst lethalPass))
             /\ hits sinApprox (Game.frameRef lethalEve + 1)
                  (World.player (fst lethalPass)) e = true).
  { exists (walkedFirewall lethalPass). split; vm_compute; [left|]; reflexivity. }
  destruct (lethal_hit_ends_run sinApprox piApprox "Cipher" 4950 (envAt 4950)
              lethalEve lethalEveWorld Hw Hs Hsc Hnow Hhit)
    as (final & Hout & _ & Hscore & _ & Hlater).
  exists final. split; [exact Hout|]. split.
  - rewrite Hscore. vm_compute. reflexivity.
  - apply Hlater. reflexivity.
Defined.

Lemma hazard_ignored_while_invulnerable_witness :
  onEntity sinApprox None 541 9000 (shieldedWorld, []) hazardAhead = (shieldedWorld, []).
Proof.
  assert (Hty : Entity.type hazardAhead <> data) by discriminate.
  assert (Hc : collides sinApprox 541 (World.player shieldedWorld) hazardAhead = true)
    by (vm_compute; reflexivity).
  assert (Hinv : 9000 < Player.invulnerableUntil (World.player shieldedWorld))
    by (vm_compute; reflexivity).
  exact (proj1 (hazard_ignored_while_invulnerable sinApprox None 541 9000 shieldedWorld []
                  hazardAhead Hty Hc Hinv)).
Defined.

Lemma pickup_at_most_once_witness :
  exists w',
    Game.worldRef (renderFrame sinApprox piApprox "Cipher" 9000 (envAt 9000) lastStand)
    = Some w'
    /\ World.upgradePoints w'
       = (0 + Z.of_nat
                (List.length (pickedUp sinApprox piApprox 9000 (envAt 9000) lastStand)))%Z.
Proof.
  destruct (proj1 (pickup_at_most_once sinApprox piApprox) "Cipher"%string 9000 (envAt 9000)
              lastStand lastStandWorld eq_refl eq_refl)
    as (w' & Hw' & Hpts & _).
  exists w'. split; [exact Hw' | exact Hpts].
Defined.

Lemma single_pickup_witness :
  exists w',
    Game.worldRef
      (renderFrame sinApprox piApprox "Cipher" 9000 (envAt 9000) (gameWith packetWorld))
    = Some w'
    /\ World.upgradePoints w' = 1%Z
    /\ World.entities w' = [].
Proof.
  pose (pass := fst (simulate sinApprox piApprox 9000 (envAt 9000)
                       (gameWith packetWorld) packetWorld)).
  assert (Hone : filter (picks sinApprox (Game.frameRef (gameWith packetWorld) + 1)
                           (World.player (fst pass)))
                   (World.entities (fst pass))
                 = [hd packetAhead (World.entities (fst pass))])
    by (vm_compute; reflexivity).
  destruct (single_pickup sinApprox piApprox "Cipher" 9000 (envAt 9000)
              (gameWith packetWorld) packetWorld
              (hd packetAhead (World.entities (fst pass))) eq_refl eq_refl Hone)
    as (w' & Hw' & _ & Hpts & _).
  exists w'. split; [exact Hw'|]. split; [exact Hpts|].
  assert (Hents : option_map World.entities
                    (Game.worldRef
                       (renderFrame sinApprox piApprox "Cipher" 9000 (envAt 9000)
                          (gameWith packetWorld)))
                  = Some []) by (vm_compute; reflexivity).
  rewrite Hw' in Hents. cbn in Hents. congruence.
Defined.

Lemma jump_only_when_grounded_witness :
  jump (UpgradeState.mk 0 0 1) None (airborneWorld, []) = (airborneWorld, []).
Proof.
  assert (Hair : Player.onGround (World.player airborneWorld) = false) by reflexivity.
  exact (proj1 (proj1 (jump_only_when_grounded sinApprox piApprox (UpgradeState.mk 0 0 1)
                         None airborneWorld []) Hair)).
Defined.

Lemma shieldCharges_never_negative_witness :
  (0 <= Player.shieldCharges
          (World.player
             (World.with_animation (Some 1%Z)
                (World.with_status running (resetWorld (envAt 0) 2)))))%Z.
Proof.
  assert (Hreach : reachable sinApprox piApprox freshRun)
    by (exists None, None, [Start (envAt 0)]; reflexivity).
  exact (proj1 (shieldCharges_never_negative sinApprox piApprox freshRun Hreach)
           (World.with_animation (Some 1%Z)
              (World.with_status running (resetWorld (envAt 0) 2)))
           eq_refl).
Defined.

(** ** Examples for the further properties *)

Lemma freshRun_reachable : reachable sinApprox piApprox freshRun.
Proof. exists None, None, [Start (envAt 0)]. reflexivity. Qed.

Lemma clamp_bounds_witness : clamp 1000 60 832 == 832.
Proof.
  assert (Hmm : 60 <= 832) by (vm_compute; discriminate).
  assert (Hhi : 832 <= 1000) by (vm_compute; discriminate).
  exact (proj2 (proj2 (proj2 (proj2 (clamp_bounds 1000 60 832) Hmm))) Hhi).
Defined.

Lemma steer_keeps_player_in_playfield_witness :
  60 <= Player.x (steer (UpgradeState.mk 0 0 1) (Inputs.mk true false false) 1
                    (initialPlayer 2)).
Proof.
  assert (Hw : Player.width (initialPlayer 2) <= 820) by (vm_compute; discriminate).
  exact (proj1 (steer_keeps_player_in_playfield (UpgradeState.mk 0 0 1)
                  (Inputs.mk true false false) 1 (initialPlayer 2) Hw)).
Defined.

Lemma steer_respects_top_speed_witness :
  Qabs (Player.vx (steer (UpgradeState.mk 0 0 1) (Inputs.mk false true false) 1
                     (initialPlayer 2)))
  <= maxSpeedOf (UpgradeState.mk 0 0 1).
Proof.
  assert (Hs : (0 <= UpgradeState.speed (UpgradeState.mk 0 0 1))%Z) by (cbn; lia).
  exact (steer_respects_top_speed (UpgradeState.mk 0 0 1) (Inputs.mk false true false) 1
           (initialPlayer 2) Hs (or_intror (or_introl eq_refl))).
Defined.

Lemma fall_lands_on_ground_witness :
  fall 1 (initialPlayer 2)
  = Player.with_onGround true
      (Player.with_vy 0 (Player.with_y (groundYOf (initialPlayer 2)) (initialPlayer 2))).
Proof.
  assert (Hland : groundYOf (initialPlayer 2)
                  <= Player.y (initialPlayer 2)
                     + (Player.vy (initialPlayer 2) + GRAVITY * 1) * 1)
    by (vm_compute; discriminate).
  exact (proj1 (proj2 (fall_lands_on_ground 1 (initialPlayer 2))) Hland).
Defined.

Lemma player_stays_in_playfield_witness :
  60 <= Player.x (World.player freshWorld) <= 832.
Proof.
  exact (proj1 (proj2 (proj2 (player_stays_in_playfield sinApprox piApprox freshRun
                                freshRun_reachable freshWorld eq_refl)))).
Defined.

Lemma upgrade_levels_only_grow_witness :
  (1 <= UpgradeState.shield (Game.upgradesRef freshRun))%Z.
Proof.
  exact (proj1 (proj2 (proj2 (proj1 (upgrade_levels_only_grow sinApprox piApprox freshRun
                                       freshRun_reachable))))).
Defined.

Lemma speed_never_exceeds_top_speed_witness :
  Qabs (Player.vx (World.player freshWorld)) <= maxSpeedOf (Game.upgradesRef freshRun).
Proof.
  exact (speed_never_exceeds_top_speed sinApprox piApprox freshRun freshRun_reachable
           freshWorld eq_refl).
Defined.

Lemma collides_needs_overlap_witness :
  collides sinApprox 541 (World.player lastStandWorld) packetAhead = true
  /\ collides sinApprox 541 (World.player lastStandWorld) (Entity.with_y 250 packetAhead)
     = false.
Proof.
  assert (Hat : Player.x (World.player lastStandWorld)
                < Entity.x packetAhead + Entity.width packetAhead
                /\ Entity.x packetAhead
                   < Player.x (World.player lastStandWorld)
                     + Player.width (World.player lastStandWorld)
                /\ Player.y (World.player lastStandWorld)
                   < Entity.y packetAhead
                     + sinApprox (inject_Z 541 / 6 + orElse (Entity.phase packetAhead) 0) * 4
                     + Entity.height packetAhead
                /\ Entity.y packetAhead
                   + sinApprox (inject_Z 541 / 6 + orElse (Entity.phase packetAhead) 0) * 4
                   < Player.y (World.player lastStandWorld)
                     + Player.height (World.player lastStandWorld))
    by (repeat split; vm_compute; reflexivity).
  assert (Hsin : -1 <= sinApprox (inject_Z 541 / 6
                                   + orElse (Entity.phase (Entity.with_y 250 packetAhead)) 0)
                 <= 1)
    by (split; vm_compute; discriminate).
  assert (Hclear : Player.y (World.player lastStandWorld)
                   + Player.height (World.player lastStandWorld)
                   <= Entity.y (Entity.with_y 250 packetAhead) - 4
                   \/ Entity.y (Entity.with_y 250 packetAhead) + 4
                      + Entity.height (Entity.with_y 250 packetAhead)
                      <= Player.y (World.player lastStandWorld))
    by (right; vm_compute; discriminate).
  split.
  - exact (proj2 (proj1 (proj2 (collides_needs_overlap sinApprox 541
                                  (World.player lastStandWorld) packetAhead)) eq_refl) Hat).
  - exact (proj2 (proj2 (proj2 (proj2 (proj2
             (collides_needs_overlap sinApprox 541 (World.player lastStandWorld)
                (Entity.with_y 250 packetAhead))))))
             eq_refl Hsin Hclear).
Defined.

Lemma charged_tick_never_ends_run_witness :
  exists w',
    Game.worldRef
      (renderFrame sinApprox piApprox "Cipher" 9000 (envAt 9000) (gameWith chargedWorld))
    = Some w'
    /\ World.status w' = running.
Proof.
  assert (Hsc : (0 < Player.shieldCharges (World.player chargedWorld))%Z)
    by (cbn; lia).
  destruct (charged_tick_never_ends_run sinApprox piApprox "Cipher" 9000 (envAt 9000)
              (gameWith chargedWorld) chargedWorld eq_refl eq_refl Hsc)
    as (w' & Hw' & Hs & _).
  exists w'. split; [exact Hw' | exact Hs].
Defined.

Lemma spawnDue_schedule_witness :
  spawnDue piApprox 9000 (envAt 9000) LEVEL_BOOT (lastStandWorld, 2%Z)
  = (lastStandWorld, 2%Z).
Proof.
  destruct (spawnDue_schedule piApprox 9000 (envAt 9000) LEVEL_BOOT lastStandWorld 2)
    as (added & _ & _ & _ & _ & _ & _ & _ & Hnone).
  exact (Hnone eq_refl).
Defined.

Lemma scroll_moves_and_culls_witness :
  (List.length
     (World.entities
        (scroll sinApprox (UpgradeState.mk 0 0 1) LEVEL_BOOT 1 541 lastStandWorld))
   <= List.length (World.entities lastStandWorld))%nat.
Proof.
  exact (proj1 (scroll_moves_and_culls sinApprox (UpgradeState.mk 0 0 1) LEVEL_BOOT 1 541
                  lastStandWorld)).
Defined.

Lemma score_grows_with_time_witness :
  exists w',
    Game.worldRef
      (renderFrame sinApprox piApprox "Cipher" 9000 (envAt 9000) (gameWith chargedWorld))
    = Some w'
    /\ World.score chargedWorld < World.score w'.
Proof.
  assert (Hle : World.lastFrame chargedWorld <= 9000) by (vm_compute; discriminate).
  assert (Hlt : World.lastFrame chargedWorld < 9000) by (vm_compute; reflexivity).
  destruct (score_grows_with_time sinApprox piApprox "Cipher" 9000 (envAt 9000)
              (gameWith chargedWorld) chargedWorld eq_refl eq_refl Hle)
    as (w' & Hw' & _ & Hgrow & _).
  exists w'. split; [exact Hw' | exact (Hgrow Hlt)].
Defined.

Lemma screen_agrees_with_run_witness :
  Game.status freshRun = World.status freshWorld.
Proof.
  exact (proj1 (proj2 (screen_agrees_with_run sinApprox piApprox freshRun
                         freshRun_reachable) freshWorld eq_refl)).
Defined.

Lemma upgradePoints_never_negative_witness :
  (0 <= World.upgradePoints freshWorld)%Z.
Proof.
  exact (upgradePoints_never_negative sinApprox piApprox freshRun freshRun_reachable
           freshWorld eq_refl).
Defined.

Lemma pause_resume_round_trip_witness :
  Game.worldRef (togglePause (envAt 20) (togglePause (envAt 10) freshRun))
  = Some (World.with_animation (Some 1%Z) (World.with_lastFrame 20 freshWorld)).
Proof.
  exact (proj1 (proj2 (proj2 (proj2
           (proj1 (pause_resume_round_trip sinApprox piApprox (envAt 10) (envAt 20)
                     freshRun freshWorld eq_refl) eq_refl))))).
Defined.

Lemma entity_ids_are_unique_witness :
  NoDup (map Entity.id (World.entities freshWorld)).
Proof.
  exact (proj1 (proj1 (entity_ids_are_unique sinApprox piApprox freshRun
                         freshRun_reachable) freshWorld eq_refl)).
Defined.

Lemma saved_score_placement_witness :
  Game.leaderboard
    (saveScore "Zed" 300 (envAt 0) (Game.with_leaderboard fullTable (mount None None)))
  = fullTable.
Proof.
  assert (Hdesc : descending fullTable).
  { unfold descending, fullTable.
    repeat (constructor; [|repeat (constructor; [cbn; discriminate|]); constructor]).
    constructor. }
  assert (Hlow : forall r, In r fullTable -> 300 <= LeaderboardEntry.score r).
  { intros r Hr. cbn in Hr.
    repeat (destruct Hr as [<- | Hr]; [cbn; discriminate|]). destruct Hr. }
  exact (proj2 (proj1 (saved_score_placement "Zed" 300 (envAt 0)
                         (Game.with_leaderboard fullTable (mount None None))) Hdesc)
           eq_refl Hlow).
Defined.

Lemma audio_never_steers_the_game_witness :
  Game.tones (renderFrame sinApprox piApprox "Cipher" 9000 (envAt 9000) lastStand)
  = Game.tones lastStand.
Proof.
  exact (proj1 (proj2 (audio_never_steers_the_game sinApprox piApprox "Cipher" 9000
                         (envAt 9000) lastStand None) eq_refl)).
Defined.

Lemma changeName_keeps_16_characters_witness :
  Game.playerName (changeName "Cipher" (mount None None)) = "Cipher"%string
  /\ String.length (Game.playerName (changeName "ZeroCoolTheGreatest" (mount None None)))
     = 16%nat
  /\ exists rest,
       "ZeroCoolTheGreatest"%string
       = (Game.playerName (changeName "ZeroCoolTheGreatest" (mount None None)) ++ rest)%string.
Proof.
  assert (Hlen : (String.length "Cipher" <= 16)%nat) by (cbn; lia).
  split; [|split].
  - exact (proj1 (proj2 (proj2 (proj2
             (changeName_keeps_16_characters "Cipher" (mount None None))))) Hlen).
  - exact (proj1 (changeName_keeps_16_characters "ZeroCoolTheGreatest" (mount None None))).
  - exact (proj1 (proj2
             (changeName_keeps_16_characters "ZeroCoolTheGreatest" (mount None None)))).
Defined.

Lemma leaderboard_written_only_when_run_ends_witness :
  exists w',
    Game.worldRef (step sinApprox piApprox lastStand (Frame "Cipher" 9000 (envAt 9000)))
    = Some w'
    /\ World.status w' = over.
Proof.
  assert (Hne : tableOf (step sinApprox piApprox lastStand
                           (Frame "Cipher" 9000 (envAt 9000)))
                <> tableOf lastStand)
    by (vm_compute; discriminate).
  destruct (leaderboard_written_only_when_run_ends sinApprox piApprox lastStand
              (Frame "Cipher" 9000 (envAt 9000)) Hne)
    as (n & ts & env & w & w' & _ & _ & _ & Hw' & Ho & _).
  exists w'. split; [exact Hw' | exact Ho].
Defined.

Lemma key_release_undoes_press_witness :
  handleKeyUp "ArrowLeft" (handleKeyDown "ArrowLeft" (envAt 0) freshRun) = freshRun.
Proof.
  assert (HP : "ArrowLeft"%string <> "KeyP"%string) by discriminate.
  exact (proj1 (proj2 (proj2 (key_release_undoes_press "ArrowLeft" (envAt 0) freshRun HP)))
           freshWorld eq_refl eq_refl).
Defined.
